(** * encrypt-util: a rotating-key XOR stream transform

    Shallow embedding of [encrypt.c] and proofs about it.  Machine
    integers are [Z] with their wrap-around written out, the key and the
    blocks are byte lists, the two linked-list queues live in a heap of
    block descriptors, and a loop the C text does not bound takes fuel.

    The properties come in two kinds.  Some are stated at one input,
    where the program is evaluated: keys longer than 128 bytes, whose
    byte rotation goes through an 8-bit position, and a completion queue
    that receives a block smaller than its head.  The others hold in
    general: the single-bit pass, the submission loop, the sorted
    insertion behind the head, the rotation on keys of at most 128
    bytes, sequential mode, parallel mode when the oldest block of every
    batch is the first to complete, the release of the descriptors, and
    what the program reports and returns. *)

From Stdlib Require Import ZArith Lia.
From Stdlib Require Import Ascii String.
From stdpp Require Import base option list sorting strings gmap.

Local Open Scope Z_scope.

(** ** Outcomes of running a piece of the program *)

(** [Fault] is undefined behaviour of the C program (an access outside a
    buffer, a dereference of a freed or null descriptor, a remainder by
    zero); [Timeout] is a loop that has used all its fuel. *)
Inductive result (A : Type) : Type :=
  | Ok (a : A)
  | Fault
  | Timeout.
Arguments Ok {A} a.
Arguments Fault {A}.
Arguments Timeout {A}.

#[global] Instance result_ret : MRet result := fun A a => Ok a.
#[global] Instance result_bind : MBind result := fun A B f r =>
  match r with
  | Ok a => f a
  | Fault => Fault
  | Timeout => Timeout
  end.

(** ** Machine integers *)

(** [unsigned char]: 8 bits. *)
Definition uchar (z : Z) : Z := z mod 256.
(** [unsigned int]: 32 bits. *)
Definition uint (z : Z) : Z := z mod 4294967296.

(** ** Byte buffers *)

(** [key[i]] as an rvalue: a read outside the buffer is a fault. *)
Definition rd (buf : list Z) (i : Z) : result Z :=
  if i <? 0 then Fault else
  match buf !! Z.to_nat i with
  | Some v => Ok v
  | None => Fault
  end.

(** [key[i] = v]. *)
Definition wr (buf : list Z) (i : Z) (v : Z) : result (list Z) :=
  if i <? 0 then Fault else
  match buf !! Z.to_nat i with
  | Some _ => Ok (<[Z.to_nat i := v]> buf)
  | None => Fault
  end.

(** ** RotationEngine *)

Module Rotate.

(** The inner [for] of [encrypt_rotate_key_bits]: one scan over the key.
    [todo] counts the iterations that are left, so the call from
    [rotate_bits_pass] gives it [keylength]. *)
Fixpoint rotate_bits_scan (todo : nat) (key : list Z) (keylength index : Z)
  : result (list Z) :=
  match todo with
  | O => Ok key
  | S todo =>
      if index <? keylength then
        k ← rd key index;
        key ← wr key index (uchar (Z.shiftl k 1));
        if uint (index + 1) >=? keylength then Ok key
        else
          k1 ← rd key (index + 1);
          k0 ← rd key index;
          key ← wr key index
                 (Z.lor k0 (if Z.land k1 128 =? 0 then 0 else 1));
          rotate_bits_scan todo key keylength (uint (index + 1))
      else Ok key
  end.

(** The body of the outer [for]: one single-bit pass. *)
Definition rotate_bits_pass (key : list Z) (keylength : Z) : result (list Z) :=
  k0 ← rd key 0;
  let carry := if Z.land k0 128 =? 0 then 0 else 1 in
  key ← rotate_bits_scan (Z.to_nat keylength) key keylength 0;
  kl ← rd key (uint (keylength - 1));
  wr key (uint (keylength - 1)) (Z.lor kl (if carry =? 0 then 0 else 1)).

Fixpoint rotate_bits_loop (passes : nat) (key : list Z) (keylength : Z)
  : result (list Z) :=
  match passes with
  | O => Ok key
  | S passes =>
      key ← rotate_bits_pass key keylength;
      rotate_bits_loop passes key keylength
  end.

(** [shift] is an [unsigned char] parameter. *)
Definition encrypt_rotate_key_bits (key : list Z) (keylength shift : Z)
  : result (list Z) :=
  rotate_bits_loop (Z.to_nat (uchar shift)) key keylength.

Fixpoint compute_gcd_rec (fuel : nat) (a b : Z) : result Z :=
  match fuel with
  | O => Timeout
  | S fuel => if b =? 0 then Ok a else compute_gcd_rec fuel b (a mod b)
  end.

(** The remainders decrease, so [b + 1] calls are enough. *)
Definition compute_gcd (a b : Z) : result Z :=
  compute_gcd_rec (S (Z.to_nat b)) a b.

(** The [while( 1 )] of [encrypt_rotate_key_bytes].  [next] is declared
    [unsigned char], so both assignments to it keep 8 bits.  The result is
    the key and the last [pos]. *)
Fixpoint rotate_bytes_cycle (fuel : nat) (key : list Z)
    (keylength shift index pos : Z) : result (list Z * Z) :=
  match fuel with
  | O => Timeout
  | S fuel =>
      let next := uchar (uint (pos + shift)) in
      let next :=
        if next >=? keylength then uchar (uint (next - keylength)) else next in
      if next =? index then Ok (key, pos)
      else
        v ← rd key next;
        key ← wr key pos v;
        rotate_bytes_cycle fuel key keylength shift index next
  end.

(** The outer [for( index = 0; index < gcd; index++ )]. *)
Fixpoint rotate_bytes_outer (todo : nat) (fuel : nat) (key : list Z)
    (keylength shift gcd index : Z) : result (list Z) :=
  match todo with
  | O => Ok key
  | S todo =>
      if index <? gcd then
        value ← rd key index;
        '(key, pos) ← rotate_bytes_cycle fuel key keylength shift index index;
        key ← wr key pos value;
        rotate_bytes_outer todo fuel key keylength shift gcd (uint (index + 1))
      else Ok key
  end.

(** [shift] is an [unsigned char] parameter: the caller's [shift / 8] is
    cut to 8 bits.  [assert( shift < keylength )] fails into [Fault]. *)
Definition encrypt_rotate_key_bytes (fuel : nat) (key : list Z)
    (keylength shift : Z) : result (list Z) :=
  let shift := uchar shift in
  if shift <? keylength then
    gcd ← compute_gcd shift keylength;
    rotate_bytes_outer (Z.to_nat gcd) fuel key keylength shift gcd 0
  else Fault.

Definition encrypt_rotate_key (fuel : nat) (key : list Z)
    (keylength shift : Z) : result (list Z) :=
  let modulus := uint (keylength * 8) in
  if modulus =? 0 then Fault else
  let shift := shift mod modulus in
  key ← (if shift / 8 =? 0 then Ok key
         else encrypt_rotate_key_bytes fuel key keylength (shift / 8));
  if shift mod 8 =? 0 then Ok key
  else encrypt_rotate_key_bits key keylength (shift mod 8).

End Rotate.

(** ** BlockCipher *)

Fixpoint encrypt_block_loop (todo : nat) (block : list Z) (length : Z)
    (key : list Z) (index : Z) : result (list Z) :=
  match todo with
  | O => Ok block
  | S todo =>
      if index <? length then
        b ← rd block index;
        k ← rd key index;
        block ← wr block index (Z.lxor b k);
        encrypt_block_loop todo block length key (uint (index + 1))
      else Ok block
  end.

(** [assert( length <= keylength )] fails into [Fault]. *)
Definition encrypt_block (block : list Z) (length : Z) (key : list Z)
    (keylength : Z) : result (list Z) :=
  if length <=? keylength then
    encrypt_block_loop (Z.to_nat length) block length key 0
  else Fault.

(** ** Byte streams *)

(** [fread(buf, 1, n, stream)] on a stream that holds the bytes [input]:
    the bytes read, the buffer after the read, and the rest of the
    stream.  The count the C call returns is the length of the bytes
    read. *)
Definition fread (buf : list Z) (n : Z) (input : list Z)
  : list Z * list Z * list Z :=
  let data := take (Z.to_nat n) input in
  (data, data ++ drop (length data) buf, drop (Z.to_nat n) input).

(** [fwrite(buf, 1, n, stream)]. *)
Definition fwrite (buf : list Z) (n : Z) (output : list Z) : list Z :=
  output ++ take (Z.to_nat n) buf.

(** ** Block descriptors and the machine state *)

Module Info.
(** [encrypt_block_info_t]; [next] is [None] for a null pointer. *)
Record t : Type := mk
  { index : Z;
    block : list Z;
    length : Z;
    next : option nat }.

Definition set_block (b : t) (blk : list Z) : t :=
  mk (index b) blk (length b) (next b).
Definition set_length (b : t) (len : Z) : t :=
  mk (index b) (block b) len (next b).
Definition set_next (b : t) (n : option nat) : t :=
  mk (index b) (block b) (length b) n.
End Info.

(** The part of the process state the pipeline touches: the descriptors
    that are allocated, the next address [malloc] hands out, the two
    queue heads of [encrypt_context_t], and the two streams. *)
Record machine : Type := Machine
  { heap : gmap nat Info.t;
    brk : nat;
    process_queue : option nat;
    completion_queue : option nat;
    stdin : list Z;
    stdout : list Z }.

Definition set_heap (m : machine) (h : gmap nat Info.t) : machine :=
  Machine h (brk m) (process_queue m) (completion_queue m) (stdin m) (stdout m).
Definition set_process_queue (m : machine) (q : option nat) : machine :=
  Machine (heap m) (brk m) q (completion_queue m) (stdin m) (stdout m).
Definition set_completion_queue (m : machine) (q : option nat) : machine :=
  Machine (heap m) (brk m) (process_queue m) q (stdin m) (stdout m).
Definition set_stdin (m : machine) (s : list Z) : machine :=
  Machine (heap m) (brk m) (process_queue m) (completion_queue m) s (stdout m).
Definition set_stdout (m : machine) (s : list Z) : machine :=
  Machine (heap m) (brk m) (process_queue m) (completion_queue m) (stdin m) s.

(** [p->field] for a descriptor pointer: null or freed is a fault. *)
Definition load (h : gmap nat Info.t) (p : nat) : result Info.t :=
  match h !! p with
  | Some b => Ok b
  | None => Fault
  end.

(** [encrypt_block_init]: a fresh descriptor with a buffer of
    [blocklength] bytes.  The bytes [malloc] leaves in the buffer are
    indeterminate; the model takes zeros, and no function reads them
    before [fread] has written them. *)
Definition encrypt_block_init (m : machine) (blockindex blocklength : Z)
  : machine * nat :=
  let info := brk m in
  let b := Info.mk blockindex (replicate (Z.to_nat blocklength) 0)
                   blocklength None in
  (Machine (<[info := b]> (heap m)) (S info) (process_queue m)
           (completion_queue m) (stdin m) (stdout m), info).

(** [encrypt_block_deinit] of a non-null descriptor. *)
Definition encrypt_block_deinit (h : gmap nat Info.t) (info : nat)
  : result (gmap nat Info.t) :=
  _ ← load h info;
  Ok (delete info h).

(** ** Workers *)

Module Worker.

(** The worker takes the head of the process queue. *)
Definition pop (m : machine) : result (machine * option nat) :=
  match process_queue m with
  | None => Ok (m, None)
  | Some info =>
      b ← load (heap m) info;
      Ok (set_process_queue m (Info.next b), Some info)
  end.

(** The worker's copy of the key, rotated by the block index, is XORed
    onto the block. *)
Definition transform (fuel : nat) (key : list Z) (keylength : Z)
    (h : gmap nat Info.t) (info : nat) : result (gmap nat Info.t) :=
  b ← load h info;
  k ← Rotate.encrypt_rotate_key fuel key keylength (Info.index b);
  blk ← encrypt_block (Info.block b) (Info.length b) k keylength;
  Ok (<[info := Info.set_block b blk]> h).

(** The search loop of the insertion: it returns [current] and
    [previous] as they are when the loop ends. *)
Fixpoint find_slot (fuel : nat) (h : gmap nat Info.t) (index : Z)
    (current previous : option nat) : result (option nat * option nat) :=
  match fuel with
  | O => Timeout
  | S fuel =>
      match current with
      | None => Ok (current, previous)
      | Some c =>
          cb ← load h c;
          if index <? Info.index cb then Ok (current, previous)
          else find_slot fuel h index (Info.next cb) (Some c)
      end
  end.

(** The insertion into the completion queue, under the lock. *)
Definition insert (fuel : nat) (m : machine) (info : nat) : result machine :=
  ib ← load (heap m) info;
  '(current, previous) ←
    find_slot fuel (heap m) (Info.index ib)
              (completion_queue m) (completion_queue m);
  m ← match completion_queue m with
      | None => Ok (set_completion_queue m (Some info))
      | Some _ =>
          match previous with
          | None => Fault
          | Some p =>
              pb ← load (heap m) p;
              Ok (set_heap m (<[p := Info.set_next pb (Some info)]> (heap m)))
          end
      end;
  ib ← load (heap m) info;
  Ok (set_heap m (<[info := Info.set_next ib current]> (heap m))).

End Worker.

(** ** Coordinator *)

(** What one round of the parallel loop did: the value of [slot] when the
    submission loop ends, the [length] of every block it submitted, the
    number of blocks the drain wrote, and [quit]. *)
Record round : Type := Round
  { submitted : Z;
    lengths : list Z;
    drained : nat;
    saw_end : bool }.

Module Coordinator.

(** The walk to the last descriptor of the process queue. *)
Fixpoint find_tail (fuel : nat) (h : gmap nat Info.t) (current : nat)
  : result nat :=
  match fuel with
  | O => Timeout
  | S fuel =>
      cb ← load h current;
      match Info.next cb with
      | None => Ok current
      | Some n => find_tail fuel h n
      end
  end.

(** The block is appended to the process queue, under the lock. *)
Definition submit (fuel : nat) (m : machine) (info : nat) : result machine :=
  match process_queue m with
  | None => Ok (set_process_queue m (Some info))
  | Some head =>
      tail ← find_tail fuel (heap m) head;
      tb ← load (heap m) tail;
      Ok (set_heap m (<[tail := Info.set_next tb (Some info)]> (heap m)))
  end.

(** The submission loop [for( slot = 0; slot < threadcount; index++,
    slot++ )].  It returns the state, [index], [slot], [quit] and the
    lengths of the blocks it submitted. *)
Fixpoint submit_loop (todo : nat) (fuel : nat) (m : machine)
    (keylength threadcount index slot : Z) (lens : list Z)
  : result (machine * Z * Z * bool * list Z) :=
  match todo with
  | O => Ok (m, index, slot, false, lens)
  | S todo =>
      if slot <? threadcount then
        let '(m, info) := encrypt_block_init m index keylength in
        ib ← load (heap m) info;
        let '(data, buf, rest) := fread (Info.block ib) keylength (stdin m) in
        let len := Z.of_nat (length data) in
        let ib := Info.set_length (Info.set_block ib buf) len in
        let m := set_stdin (set_heap m (<[info := ib]> (heap m))) rest in
        if len =? 0 then
          h ← encrypt_block_deinit (heap m) info;
          Ok (set_heap m h, index, slot, true, lens)
        else
          m ← submit fuel m info;
          submit_loop todo fuel m keylength threadcount
                      (uint (index + 1)) (uint (slot + 1)) (lens ++ [len])
      else Ok (m, index, slot, false, lens)
  end.

(** The workers take the blocks of the round, the head of the process
    queue first. *)
Fixpoint take_blocks (posts : nat) (m : machine)
  : result (machine * list nat) :=
  match posts with
  | O => Ok (m, [])
  | S posts =>
      '(m, o) ← Worker.pop m;
      match o with
      | None => Ok (m, [])
      | Some info =>
          '(m, l) ← take_blocks posts m;
          Ok (m, info :: l)
      end
  end.

(** The scheduler's choice among the blocks in flight. *)
Definition pick (n : nat) (inflight : list nat) : option (nat * list nat) :=
  let i := (n mod length inflight)%nat in
  match inflight !! i with
  | Some info => Some (info, delete i inflight)
  | None => None
  end.

(** The workers finish the blocks in flight in the order the schedule
    picks: each number of [sched] chooses the block that completes next;
    when [sched] is used up the oldest block in flight completes next. *)
Fixpoint complete (todo : nat) (fuel : nat) (sched : list nat)
    (key : list Z) (keylength : Z) (m : machine) (inflight : list nat)
  : result (machine * list nat) :=
  match todo with
  | O => Ok (m, sched)
  | S todo =>
      match pick (hd 0%nat sched) inflight with
      | None => Ok (m, sched)
      | Some (info, inflight) =>
          h ← Worker.transform fuel key keylength (heap m) info;
          m ← Worker.insert fuel (set_heap m h) info;
          complete todo fuel (tl sched) key keylength m inflight
      end
  end.

(** The drain: every block of the completion queue is written and
    released. *)
Fixpoint drain (fuel : nat) (m : machine) (current : option nat)
    (count : nat) : result (machine * nat) :=
  match fuel with
  | O => Timeout
  | S fuel =>
      match current with
      | None => Ok (m, count)
      | Some info =>
          ib ← load (heap m) info;
          let m := set_stdout m
                     (fwrite (Info.block ib) (Info.length ib) (stdout m)) in
          h ← encrypt_block_deinit (heap m) info;
          drain fuel (set_heap m h) (Info.next ib) (S count)
      end
  end.

(** The body of [while( !quit )]: the submission loop, the workers, the
    barrier and the drain.  It returns the state, [index], what is left
    of the schedule, what the round did, and [quit]. *)
Definition parallel_round (fuel : nat) (sched : list nat) (key : list Z)
    (keylength threadcount : Z) (m : machine) (index : Z)
  : result (machine * Z * list nat * round * bool) :=
  '(m, index, slot, quit, lens) ←
    submit_loop (Z.to_nat threadcount) fuel m keylength threadcount index 0 [];
  '(m, inflight) ← take_blocks (Z.to_nat slot) m;
  '(m, sched) ← complete (length inflight) fuel sched key keylength m inflight;
  '(m, count) ← drain fuel m (completion_queue m) 0%nat;
  Ok (set_completion_queue m None, index, sched,
      Round slot lens count quit, quit).

(** [while( !quit )]. *)
Fixpoint parallel_loop (rounds : nat) (fuel : nat) (sched : list nat)
    (key : list Z) (keylength threadcount : Z) (m : machine) (index : Z)
    (log : list round) : result (machine * list round) :=
  match rounds with
  | O => Timeout
  | S rounds =>
      '(m, index, sched, r, quit) ←
        parallel_round fuel sched key keylength threadcount m index;
      if (quit : bool) then Ok (m, log ++ [r])
      else parallel_loop rounds fuel sched key keylength threadcount m index
                         (log ++ [r])
  end.

Definition start (input : list Z) : machine :=
  Machine ∅ 0%nat None None input [].

(** [encrypt_execute_parallel], with the worker pool started.  The two
    [assert]s fail into [Fault].  The result is what was written to the
    output stream, and the rounds. *)
Definition encrypt_execute_parallel (fuel : nat) (sched : list nat)
    (key : list Z) (keylength threadcount : Z) (input : list Z)
  : result (list Z * list round) :=
  if (0 <? keylength) && (0 <? threadcount) then
    '(m, log) ← parallel_loop fuel fuel sched key keylength threadcount
                   (start input) 0 [];
    Ok (stdout m, log)
  else Fault.

(** The loop of [encrypt_execute_sequential]: one descriptor, whose
    buffer is [block], and the live key. *)
Fixpoint sequential_loop (rounds : nat) (fuel : nat) (key : list Z)
    (keylength : Z) (block : list Z) (input output : list Z) (index : Z)
  : result (list Z) :=
  match rounds with
  | O => Timeout
  | S rounds =>
      let '(data, block, input) := fread block keylength input in
      let len := Z.of_nat (length data) in
      if len =? 0 then Ok output
      else
        block ← encrypt_block block len key keylength;
        let output := fwrite block len output in
        key ← Rotate.encrypt_rotate_key fuel key keylength 1;
        sequential_loop rounds fuel key keylength block input output
                        (uint (index + 1))
  end.

Definition encrypt_execute_sequential (fuel : nat) (key : list Z)
    (keylength : Z) (input : list Z) : result (list Z) :=
  if 0 <? keylength then
    sequential_loop fuel fuel key keylength
                    (replicate (Z.to_nat keylength) 0) input [] 0
  else Fault.

End Coordinator.

(** ** The end of the pool *)

Module Context.

(** The loops of [encrypt_context_deinit] that release what a queue
    still holds: [current->next] is read, then the descriptor is
    released. *)
Fixpoint free_queue (fuel : nat) (h : gmap nat Info.t) (current : option nat)
  : result (gmap nat Info.t) :=
  match fuel with
  | O => Timeout
  | S fuel =>
      match current with
      | None => Ok h
      | Some info =>
          ib ← load h info;
          h ← encrypt_block_deinit h info;
          free_queue fuel h (Info.next ib)
      end
  end.

(** [encrypt_context_deinit], once the workers have been woken and
    joined: the completion queue is released, then the process queue,
    and both heads are cleared. *)
Definition encrypt_context_deinit (fuel : nat) (m : machine) : result machine :=
  h ← free_queue fuel (heap m) (completion_queue m);
  h ← free_queue fuel h (process_queue m);
  Ok (Machine h (brk m) None None (stdin m) (stdout m)).

(** [encrypt_execute_parallel] up to its [return], with the worker pool
    started: the loop, then [encrypt_context_deinit].  The result is the
    state the function leaves. *)
Definition encrypt_execute_parallel (fuel : nat) (sched : list nat)
    (key : list Z) (keylength threadcount : Z) (input : list Z)
  : result machine :=
  if (0 <? keylength) && (0 <? threadcount) then
    '(m, _) ← Coordinator.parallel_loop fuel fuel sched key keylength
                 threadcount (Coordinator.start input) 0 [];
    encrypt_context_deinit fuel m
  else Fault.

End Context.

(** ** The program: [encrypt] and [main] *)

Module Program.

(** A line the [verify] macros print to the error stream: the function,
    the source line and, for [verify], the code. *)
Record diagnostic : Type := Diagnostic
  { func : string;
    line : Z;
    code : option Z }.

(** What the system gives the process: the files [fopen] can open, and
    the results of the calls that can fail during setup. *)
Record environment : Type := Environment
  { files : gmap string (list Z);
    fseek_end : Z;
    fseek_set : Z;
    fread_key : bool;
    malloc_key : bool;
    malloc_block : bool;
    malloc_threads : bool;
    malloc_worker : bool;
    pthread_mutex_init : Z;
    sem_init_process : Z;
    sem_init_completion : Z;
    pthread_create : Z → Z }.

(** How the process ended: the exit status, the error stream and the
    output stream. *)
Record outcome : Type := Outcome
  { status : Z;
    stderr : list diagnostic;
    output : list Z }.

Definition verify_bool (f : string) (l : Z) : diagnostic :=
  Diagnostic f l None.
Definition verify (f : string) (l : Z) (retval : Z) : diagnostic :=
  Diagnostic f l (Some retval).

(** The thread-creation loop of [encrypt_context_init]: the code of the
    first call that fails, or 0. *)
Fixpoint create_threads (todo : nat) (env : environment)
    (threadcount index : Z) : Z :=
  match todo with
  | O => 0
  | S todo =>
      if index <? threadcount then
        if pthread_create env index =? 0
        then create_threads todo env threadcount (uint (index + 1))
        else pthread_create env index
      else 0
  end.

(** [encrypt_context_init]: the value it returns, what it prints, and
    whether [context->threadcount] has been set. *)
Definition encrypt_context_init (env : environment) (threadcount : Z)
  : Z * list diagnostic * bool :=
  let f := "encrypt_context_init"%string in
  if negb (pthread_mutex_init env =? 0) then
    (pthread_mutex_init env, [verify f 238 (pthread_mutex_init env)], false)
  else if negb (sem_init_process env =? 0) then
    (sem_init_process env, [verify f 240 (sem_init_process env)], false)
  else if negb (sem_init_completion env =? 0) then
    (sem_init_completion env, [verify f 241 (sem_init_completion env)], false)
  else if negb (malloc_threads env) then
    (-1, [verify_bool f 243], false)
  else
    let r := create_threads (Z.to_nat threadcount) env threadcount 0 in
    if r =? 0 then (0, [], true) else (r, [verify f 250 r], true).

(** What a call of [encrypt] gives back: either it returns to [main], or
    a worker has ended the process with [exit(-1)]. *)
Inductive control : Type :=
  | Returns (retval : Z) (err : list diagnostic) (out : list Z)
  | Exits (st : Z) (err : list diagnostic).

(** [encrypt_execute_parallel] with its setup.  When a thread could not
    be started, [encrypt_context_deinit] joins threads that were never
    created, which is a fault.  A worker whose key buffer cannot be
    allocated ends the process at once. *)
Definition encrypt_execute_parallel (fuel : nat) (sched : list nat)
    (env : environment) (key : list Z) (keylength threadcount : Z)
    (input : list Z) : result control :=
  let f := "encrypt_execute_parallel"%string in
  let '(r, err, started) := encrypt_context_init env threadcount in
  if negb (r =? 0) then
    if started then Fault
    else Ok (Returns r (err ++ [verify f 328 r]) [])
  else if negb (malloc_worker env) then Ok (Exits 255 [])
  else if negb (malloc_block env) then
    Ok (Returns (-1) [verify_bool "encrypt_block_init" 199; verify f 334 (-1)] [])
  else
    '(out, _) ← Coordinator.encrypt_execute_parallel fuel sched key keylength
                   threadcount input;
    Ok (Returns 0 [] out).

Definition encrypt_execute_sequential (fuel : nat) (env : environment)
    (key : list Z) (keylength : Z) (input : list Z) : result control :=
  let f := "encrypt_execute_sequential"%string in
  if negb (malloc_block env) then
    Ok (Returns (-1) [verify_bool "encrypt_block_init" 199; verify f 394 (-1)] [])
  else
    out ← Coordinator.encrypt_execute_sequential fuel key keylength input;
    Ok (Returns 0 [] out).

Definition encrypt (fuel : nat) (sched : list nat) (env : environment)
    (keyfilename : option string) (threadcount : Z) (input : list Z)
  : result control :=
  let f := "encrypt"%string in
  match keyfilename with
  | None => Ok (Returns (-1) [verify_bool f 426] [])
  | Some name =>
      match files env !! name with
      | None => Ok (Returns (-1) [verify_bool f 427] [])
      | Some content =>
          if negb (fseek_end env =? 0) then
            Ok (Returns (fseek_end env) [verify f 429 (fseek_end env)] [])
          else
            let keylength := uint (Z.of_nat (length content)) in
            if negb (0 <? keylength) then
              Ok (Returns (-1) [verify_bool f 430] [])
            else if negb (fseek_set env =? 0) then
              Ok (Returns (fseek_set env) [verify f 431 (fseek_set env)] [])
            else if negb (malloc_key env) then
              Ok (Returns (-1) [verify_bool f 433] [])
            else if negb (fread_key env) then
              Ok (Returns (-1) [verify_bool f 434] [])
            else
              let key := take (Z.to_nat keylength) content in
              c ← (if threadcount =? 0
                   then encrypt_execute_sequential fuel env key keylength input
                   else encrypt_execute_parallel fuel sched env key keylength
                                                 threadcount input);
              match c with
              | Returns r err out =>
                  if r =? 0 then Ok c
                  else Ok (Returns r
                             (err ++ [verify f (if threadcount =? 0 then 438 else 442) r])
                             out)
              | Exits _ _ => Ok c
              end
      end
  end.

(** [atoi] on a decimal numeral: the digits at the front of the string. *)
Fixpoint atoi_digits (s : string) (acc : Z) : Z :=
  match s with
  | String c s' =>
      let d := Z.of_N (N_of_ascii c) - 48 in
      if (0 <=? d) && (d <=? 9) then atoi_digits s' (acc * 10 + d) else acc
  | EmptyString => acc
  end.

Definition atoi (s : string) : Z := atoi_digits s 0.

(** The option loop of [main]: an option that is the last argument is
    skipped. *)
Fixpoint parse_args (args : list string) (threadcount : Z)
    (keyfilename : option string) : Z * option string :=
  match args with
  | [] => (threadcount, keyfilename)
  | a :: rest =>
      match rest with
      | [] => (threadcount, keyfilename)
      | v :: rest' =>
          if String.eqb a "-n" then parse_args rest' (uint (atoi v)) keyfilename
          else if String.eqb a "-k" then parse_args rest' threadcount (Some v)
          else parse_args rest threadcount keyfilename
      end
  end.

(** [main]: [argv] without the program name.  What [encrypt] returns is
    dropped and [main] returns 0. *)
Definition main (fuel : nat) (sched : list nat) (env : environment)
    (argv : list string) (input : list Z) : result outcome :=
  let '(threadcount, keyfilename) := parse_args argv 0 None in
  c ← encrypt fuel sched env keyfilename threadcount input;
  match c with
  | Returns _ err out => Ok (Outcome 0 err out)
  | Exits st err => Ok (Outcome st err [])
  end.

End Program.

(** * Specification-level notions *)

(** ** The key as a bit string *)

(** A byte is a number below 256. *)
Definition is_byte (b : Z) : Prop := 0 ≤ b < 256.

(** The most significant bit of a byte, as the C text tests it. *)
Definition msb (b : Z) : Z := if Z.land b 128 =? 0 then 0 else 1.

(** The bits of a byte, the most significant one first. *)
Definition byte_bits (b : Z) : list bool :=
  (λ i, Z.testbit b i) <$> [7; 6; 5; 4; 3; 2; 1; 0].

(** The key as a bit string of [8 * length key] bits: byte 0 holds the
    most significant 8 bits. *)
Definition key_bits (key : list Z) : list bool := key ≫= byte_bits.

(** What one pass leaves in the key: every byte is shifted left and takes
    the top bit of the byte after it; the last byte takes [c]. *)
Fixpoint shift_in (c : Z) (key : list Z) : list Z :=
  match key with
  | [] => []
  | k :: rest =>
      Z.lor (uchar (Z.shiftl k 1))
            (match rest with [] => c | k' :: _ => msb k' end)
      :: shift_in c rest
  end.

#[local] Instance is_byte_dec (b : Z) : Decision (is_byte b).
Proof. unfold is_byte. apply _. Defined.

(** One single-bit pass as a function: the top bit of byte 0 is the bit
    that comes in at the end. *)
Definition rotl1 (key : list Z) : list Z := shift_in (msb (hd 0 key)) key.

(** The carry of a pass, read forward: the top bit of byte [i] arrives in
    the bottom bit of byte [i + 1]. *)
Definition carries_forward (key key' : list Z) : Prop :=
  ∀ (i : nat) (k k' : Z),
    key !! i = Some k → key' !! S i = Some k' →
    Z.testbit k' 0 = Z.testbit k 7.

(** The carry of a pass, read backward: byte [i] is shifted left by one
    and its bottom bit is the top bit of byte [i + 1]. *)
Definition carries_backward (key key' : list Z) : Prop :=
  ∀ (i : nat) (k k1 k' : Z),
    key !! i = Some k → key !! S i = Some k1 → key' !! i = Some k' →
    k' = Z.lor (uchar (Z.shiftl k 1)) (msb k1) ∧
    Z.testbit k' 0 = Z.testbit k1 7.

(** The wrap of a pass: the last byte is shifted left by one and its
    bottom bit is the top bit of byte 0. *)
Definition wraps_around (key key' : list Z) : Prop :=
  ∀ (k0 kl k' : Z),
    key !! 0%nat = Some k0 → key !! (length key - 1)%nat = Some kl →
    key' !! (length key - 1)%nat = Some k' →
    k' = Z.lor (uchar (Z.shiftl kl 1)) (msb k0) ∧
    Z.testbit k' 0 = Z.testbit k0 7.

(** ** The queues as lists *)

(** The descriptors from [p] up to [q], following [next], are [l]. *)
Fixpoint is_seg (h : gmap nat Info.t) (p q : option nat) (l : list nat)
  : Prop :=
  match l with
  | [] => p = q
  | x :: l' =>
      p = Some x ∧ ∃ b, h !! x = Some b ∧ is_seg h (Info.next b) q l'
  end.

(** A queue is a segment that ends in the null pointer. *)
Definition is_queue (h : gmap nat Info.t) (p : option nat) (l : list nat)
  : Prop := is_seg h p None l.

(** The block index of the descriptor at [x]. *)
Definition index_at (h : gmap nat Info.t) (x : nat) : Z :=
  from_option Info.index 0 (h !! x).

(** The block indices of the descriptors [l]. *)
Definition indices (h : gmap nat Info.t) (l : list nat) : list Z :=
  index_at h <$> l.

(** [previous] when the search loop ends: the last descriptor it went
    past, or its initial value. *)
Definition last_or (previous : option nat) (l : list nat) : option nat :=
  match last l with
  | Some p => Some p
  | None => previous
  end.

(** A completion queue that holds block 1 alone, and block 0 whose worker
    is about to insert it. *)
Definition block1_then_block0 : machine :=
  Machine (<[0%nat := Info.mk 0 [0] 1 None]>
             (<[1%nat := Info.mk 1 [0] 1 None]> ∅))
          2%nat None (Some 1%nat) [] [].

(** What a descriptor says about its block, apart from the link. *)
Definition data_of (h : gmap nat Info.t) (x : nat) : option (Z * list Z * Z) :=
  (λ b, (Info.index b, Info.block b, Info.length b)) <$> h !! x.

(** No descriptor lives at or above the next address to be handed out. *)
Definition heap_fresh (m : machine) : Prop :=
  ∀ x, (brk m ≤ x)%nat → heap m !! x = None.

(** ** A round of reads *)

(** The reads of one submission round, with the first empty read ending
    the round: the chunks that were read, whether an empty read was
    seen, and the rest of the stream. *)
Fixpoint reads_until_empty (todo : nat) (L : nat) (input : list Z)
  : list (list Z) * bool * list Z :=
  match todo with
  | O => ([], false, input)
  | S todo =>
      match take L input with
      | [] => ([], true, input)
      | data =>
          let '(ds, q, rest) := reads_until_empty todo L (drop L input) in
          (data :: ds, q, rest)
      end
  end.

(** The reads of one submission round as the spec words them: the first
    read that is short or empty ends the round and marks the end of the
    input. *)
Fixpoint reads_until_short (todo : nat) (L : nat) (input : list Z)
  : list (list Z) * bool * list Z :=
  match todo with
  | O => ([], false, input)
  | S todo =>
      let data := take L input in
      if (length data <? L)%nat then
        (match data with [] => [] | _ => [data] end, true, drop L input)
      else
        let '(ds, q, rest) := reads_until_short todo L (drop L input) in
        (data :: ds, q, rest)
  end.

(** The descriptor the submission loop queues for a chunk: the block
    index, the buffer of [L] bytes with the chunk at its front, and the
    number of bytes read. *)
Definition submitted_block (L : Z) (index : Z) (j : nat) (chunk : list Z)
  : Z * list Z * Z :=
  (uint (index + Z.of_nat j),
   chunk ++ drop (length chunk) (replicate (Z.to_nat L) 0),
   Z.of_nat (length chunk)).

(** ** A system where every call succeeds *)

(** The environment with the key files [fs] in which no call fails. *)
Definition healthy (fs : gmap string (list Z)) : Program.environment :=
  Program.Environment fs 0 0 true true true true true 0 0 0 (λ _, 0).


(** ** Fuel *)

(** [r'] is what [r] becomes when the loops are given more fuel: a run
    that timed out may now end in any way, any other run is unchanged. *)
Definition le_result {A : Type} (r r' : result A) : Prop :=
  r = Timeout ∨ r = r'.

(** ** Inputs on which the claims are tried *)

(** A key file of 257 bytes: 256 zero bytes, then one byte 1. *)
Definition key257 : list Z := replicate 256 0 ++ [1].

(** A key file of 255 zero bytes. *)
Definition key255 : list Z := replicate 255 0.

(** An input of [n] zero bytes: its transform is the key stream. *)
Definition zeros (n : Z) : list Z := replicate (Z.to_nat n) 0.

(** ** Short keys *)

(** The positions of the cycle of the byte rotation that starts at
    [index]: position [j] of the cycle, for a key of [L] bytes and the byte
    shift [s]. *)
Definition orbit (L s index j : Z) : Z := (index + j * s) mod L.

(** The byte that has the bits [bs], the most significant one first. *)
Definition byte_of_bits (bs : list bool) : Z :=
  foldl (λ acc (b : bool), 2 * acc + (if b then 1 else 0)) 0 bs.

(** The bytes of a bit string, eight bits a byte. *)
Fixpoint key_of_bits (n : nat) (bs : list bool) : list Z :=
  match n with
  | O => []
  | S n => byte_of_bits (take 8 bs) :: key_of_bits n (drop 8 bs)
  end.

(** What [encrypt_rotate_key] leaves in a key of at most 128 bytes: the
    bytes rotated left by the byte part of the reduced shift, then as
    many single-bit passes as its bit part. *)
Definition rotated (key : list Z) (shift : Z) : list Z :=
  let shift := shift mod (Z.of_nat (length key) * 8) in
  Nat.iter (Z.to_nat (shift mod 8)) rotl1 (rotate (Z.to_nat (shift / 8)) key).

(** ** The transform as a function of the input *)

(** A block XORed with the front of a key. *)
Definition xor_block (chunk key : list Z) : list Z := zip_with Z.lxor chunk key.

(** The input cut into chunks of [L] bytes; the last may be shorter.
    [n] bounds the number of chunks. *)
Fixpoint chunks (n : nat) (L : nat) (input : list Z) : list (list Z) :=
  match n with
  | O => []
  | S n =>
      match input with
      | [] => []
      | _ => take L input :: chunks n L (drop L input)
      end
  end.

(** Every chunk XORed with the key as the single-bit passes have left it:
    chunk [i] meets the key rotated left by [i] bits. *)
Fixpoint transform_chunks (key : list Z) (cs : list (list Z)) : list Z :=
  match cs with
  | [] => []
  | c :: cs => xor_block c key ++ transform_chunks (rotl1 key) cs
  end.

(** The transform of an input under a key, in stream order. *)
Definition transform (key input : list Z) : list Z :=
  transform_chunks key (chunks (length input) (length key) input).

(** ** Blocks in flight *)

(** What a worker leaves of a block: the index, the buffer with its
    valid bytes XORed with the key rotated by the index, the length. *)
Definition transformed (key : list Z) (d : Z * list Z * Z) : Z * list Z * Z :=
  let '(index, block, len) := d in
  (index,
   xor_block (take (Z.to_nat len) block) (rotated key index)
     ++ drop (Z.to_nat len) block,
   len).

(** A block a worker can take: its index is not negative, and its valid
    bytes fit the buffer and the key. *)
Definition workable (key : list Z) (d : Z * list Z * Z) : Prop :=
  let '(index, block, len) := d in
  0 ≤ index ∧ 0 ≤ len ≤ Z.of_nat (length key) ∧
  (Z.to_nat len ≤ length block)%nat.

(** The bytes the drain writes for a block. *)
Definition written (d : Z * list Z * Z) : list Z :=
  let '(_, block, len) := d in take (Z.to_nat len) block.

(** A schedule under which the blocks of a batch complete in submission
    order: either the pool has one worker, or every choice is the oldest
    block in flight. *)
Definition in_order (threadcount : Z) (sched : list nat) : Prop :=
  threadcount = 1 ∨ Forall (λ n, n = 0%nat) sched.

(** The sizes of the batches of a run over [M] blocks with a pool of [N]
    workers: full batches while [N] blocks are left, then the batch that
    meets the end of the input, which may be empty. *)
Fixpoint batch_sizes (fuel : nat) (N M : nat) : list nat :=
  match fuel with
  | O => []
  | S fuel =>
      if (M <? N)%nat then [M] else N :: batch_sizes fuel N (M - N)
  end.

(** The number of blocks of an input, for a key of [L] bytes. *)
Definition block_count (L : nat) (input : list Z) : nat :=
  length (chunks (length input) L input).

(** The blocks a round submitted and the blocks its drain wrote. *)
Definition batch (r : round) : Z * nat := (submitted r, drained r).

(** ** States on which the queue operations are tried *)

(** Two descriptors, block 0 at address 0 and block 1 at address 1, that
    are not linked, and the two queue heads. *)
Definition two_blocks (process completion : option nat) : machine :=
  Machine (<[0%nat := Info.mk 0 [7] 1 None]>
             (<[1%nat := Info.mk 1 [9] 1 None]> ∅))
          2%nat process completion [] [].

(** A schedule under which, in every batch, the oldest block in flight
    is the first to complete, the others finishing in any order;
    [sizes] are the sizes of the batches, in the order of the rounds. *)
Fixpoint oldest_first (sizes : list nat) (sched : list nat) : Prop :=
  match sizes with
  | [] => True
  | k :: sizes =>
      ((k ≤ 1)%nat ∨ (hd 0%nat sched mod k)%nat = 0%nat) ∧
      oldest_first sizes (drop k sched)
  end.

(** * Properties *)

(** ** Outcomes and buffers *)

Lemma bind_Ok {A B : Type} (r : result A) (f : A → result B) (b : B) :
  r ≫= f = Ok b ↔ ∃ a, r = Ok a ∧ f a = Ok b.
Proof.
  destruct r as [a| |]; simpl; split.
  - intros H. by exists a.
  - by intros (a' & [= <-] & H).
  - discriminate.
  - by intros (a' & [=] & _).
  - discriminate.
  - by intros (a' & [=] & _).
Qed.

Lemma bind_Ok_l {A B : Type} (a : A) (f : A → result B) : Ok a ≫= f = f a.
Proof. done. Qed.

Lemma rd_Ok (buf : list Z) (i : nat) (v : Z) :
  buf !! i = Some v → rd buf (Z.of_nat i) = Ok v.
Proof.
  intros H. unfold rd.
  destruct (Z.ltb_spec (Z.of_nat i) 0); [lia |].
  by rewrite Nat2Z.id, H.
Qed.

Lemma wr_Ok (buf : list Z) (i : nat) (v : Z) :
  (i < length buf)%nat → wr buf (Z.of_nat i) v = Ok (<[i := v]> buf).
Proof.
  intros H. unfold wr.
  destruct (Z.ltb_spec (Z.of_nat i) 0); [lia |].
  rewrite Nat2Z.id.
  destruct (lookup_lt_is_Some_2 buf i H) as [x ->]. done.
Qed.

Lemma uint_small (z : Z) : 0 ≤ z < 4294967296 → uint z = z.
Proof. intros H. unfold uint. by apply Z.mod_small. Qed.

Lemma length_shift_in (c : Z) (key : list Z) :
  length (shift_in c key) = length key.
Proof. induction key; simpl; congruence. Qed.

Lemma length_key_bits (key : list Z) :
  length (key_bits key) = (8 * length key)%nat.
Proof.
  unfold key_bits. induction key as [|k key IH]; [done |].
  rewrite bind_cons, length_app, IH. simpl. lia.
Qed.

(** The scan rewrites the key from [index] on: the bytes before it are
    already done. *)
Lemma rotate_bits_scan_spec (rest done : list Z) (k : Z) (todo : nat) :
  Z.of_nat (length (done ++ k :: rest)) < 4294967296 →
  (length (k :: rest) ≤ todo)%nat →
  Rotate.rotate_bits_scan todo (done ++ k :: rest)
    (Z.of_nat (length (done ++ k :: rest))) (Z.of_nat (length done))
  = Ok (done ++ shift_in 0 (k :: rest)).
Proof.
  revert done k todo.
  induction rest as [|k' rest IH]; intros done k todo Hlen Htodo;
    (destruct todo as [|todo]; [simpl in Htodo; lia |]).
  - simpl Rotate.rotate_bits_scan.
    rewrite length_app in *. simpl length in *.
    destruct (Z.ltb_spec (Z.of_nat (length done))
                (Z.of_nat (length done + 1))); [| lia].
    rewrite (rd_Ok _ _ k) by (by rewrite lookup_app_r, Nat.sub_diag by lia).
    simpl. rewrite wr_Ok by (rewrite length_app; simpl; lia).
    simpl. rewrite uint_small by lia.
    destruct (Z.geb_spec (Z.of_nat (length done) + 1)
                (Z.of_nat (length done + 1))); [| lia].
    f_equal. rewrite insert_app_r_alt, Nat.sub_diag by lia.
    simpl. by rewrite Z.lor_0_r.
  - simpl Rotate.rotate_bits_scan.
    set (key := done ++ k :: k' :: rest) in *.
    assert (Hk : length key = (length done + S (S (length rest)))%nat)
      by (unfold key; rewrite length_app; done).
    destruct (Z.ltb_spec (Z.of_nat (length done)) (Z.of_nat (length key)));
      [| lia].
    rewrite (rd_Ok _ _ k)
      by (unfold key; by rewrite lookup_app_r, Nat.sub_diag by lia).
    simpl. rewrite wr_Ok by lia.
    simpl. rewrite uint_small by lia.
    destruct (Z.geb_spec (Z.of_nat (length done) + 1) (Z.of_nat (length key)));
      [lia |].
    assert (Hins : ∀ v, <[length done := v]> key = done ++ v :: k' :: rest).
    { intros v. unfold key.
      by rewrite insert_app_r_alt, Nat.sub_diag by lia. }
    rewrite Hins.
    replace (Z.of_nat (length done) + 1) with (Z.of_nat (S (length done)))
      by lia.
    rewrite (rd_Ok _ (S (length done)) k').
    2:{ rewrite lookup_app_r by lia.
        replace (S (length done) - length done)%nat with 1%nat by lia.
        done. }
    simpl. rewrite (rd_Ok _ (length done) (uchar (Z.shiftl k 1)))
      by (by rewrite lookup_app_r, Nat.sub_diag by lia).
    simpl. rewrite wr_Ok by (rewrite length_app; simpl; lia).
    simpl. rewrite insert_app_r_alt, Nat.sub_diag by lia. simpl.
    fold (msb k').
    specialize (IH (done ++ [Z.lor (uchar (Z.shiftl k 1)) (msb k')]) k' todo).
    rewrite <- !(assoc_L (++)) in IH. simpl in IH.
    rewrite (length_app done [_]) in IH. simpl length in IH.
    replace (length done + 1)%nat with (S (length done)) in IH by lia.
    rewrite length_app in IH. simpl length in IH.
    rewrite Hk. apply IH; [lia |]. simpl in Htodo. lia.
Qed.

Lemma shift_in_last (c : Z) (key : list Z) (x : Z) :
  shift_in 0 key !! (length key - 1)%nat = Some x →
  <[(length key - 1)%nat := Z.lor x c]> (shift_in 0 key) = shift_in c key.
Proof.
  induction key as [|k [|k' rest] IH]; intros Hx.
  - done.
  - simpl in *. injection Hx as <-. by rewrite Z.lor_0_r.
  - replace (length (k :: k' :: rest) - 1)%nat
      with (S (length (k' :: rest) - 1)) in * by (simpl; lia).
    change (shift_in 0 (k :: k' :: rest))
      with (Z.lor (uchar (Z.shiftl k 1)) (msb k') :: shift_in 0 (k' :: rest))
      in *.
    change (shift_in c (k :: k' :: rest))
      with (Z.lor (uchar (Z.shiftl k 1)) (msb k') :: shift_in c (k' :: rest)).
    simpl insert. f_equal. apply IH. exact Hx.
Qed.

(** One pass, as a function of the key. *)
Lemma rotate_bits_pass_spec (key : list Z) :
  key ≠ [] →
  Z.of_nat (length key) < 4294967296 →
  Rotate.rotate_bits_pass key (Z.of_nat (length key))
  = Ok (shift_in (msb (hd 0 key)) key).
Proof.
  intros Hne Hlen. destruct key as [|k0 rest]; [done |]. clear Hne.
  set (key := k0 :: rest) in *.
  assert (Hpos : (0 < length key)%nat) by (simpl; lia).
  assert (Hscan : Rotate.rotate_bits_scan (Z.to_nat (Z.of_nat (length key)))
                    key (Z.of_nat (length key)) 0 = Ok (shift_in 0 key)).
  { rewrite Nat2Z.id. apply (rotate_bits_scan_spec rest [] k0); simpl; [done | lia]. }
  assert (Hrd : rd key 0 = Ok k0) by done.
  destruct (lookup_lt_is_Some_2 (shift_in 0 key) (length key - 1)) as [x Hx].
  { rewrite length_shift_in. lia. }
  unfold Rotate.rotate_bits_pass.
  rewrite Hrd, bind_Ok_l. cbv beta zeta.
  rewrite Hscan, bind_Ok_l. cbv beta.
  rewrite uint_small by lia.
  replace (Z.of_nat (length key) - 1) with (Z.of_nat (length key - 1)) by lia.
  rewrite (rd_Ok _ _ x Hx), bind_Ok_l. cbv beta.
  rewrite wr_Ok by (rewrite length_shift_in; lia).
  f_equal. simpl hd. fold (msb k0).
  replace (if msb k0 =? 0 then 0 else 1) with (msb k0)
    by (unfold msb; by destruct (Z.land k0 128 =? 0)).
  by apply shift_in_last.
Qed.

(** A property of every byte follows from its 256 instances. *)
Lemma byte_cases (P : Z → Prop) `{!∀ b, Decision (P b)} :
  bool_decide (Forall P (seqZ 0 256)) = true → ∀ b, is_byte b → P b.
Proof.
  intros Hall b Hb. apply bool_decide_eq_true_1 in Hall.
  rewrite Forall_forall in Hall. apply Hall. apply elem_of_seqZ.
  unfold is_byte in Hb. lia.
Qed.

Lemma msb_testbit (k : Z) : is_byte k → msb k = Z.b2z (Z.testbit k 7).
Proof.
  revert k. apply (byte_cases (λ k, msb k = Z.b2z (Z.testbit k 7))).
  by vm_compute.
Qed.

Lemma byte_bits_shift (k : Z) :
  is_byte k →
  byte_bits (Z.lor (uchar (Z.shiftl k 1)) 0) = tl (byte_bits k) ++ [false] ∧
  byte_bits (Z.lor (uchar (Z.shiftl k 1)) 1) = tl (byte_bits k) ++ [true].
Proof.
  revert k.
  apply (byte_cases (λ k,
    byte_bits (Z.lor (uchar (Z.shiftl k 1)) 0) = tl (byte_bits k) ++ [false] ∧
    byte_bits (Z.lor (uchar (Z.shiftl k 1)) 1) = tl (byte_bits k) ++ [true])).
  by vm_compute.
Qed.

Lemma is_byte_shift (k m : Z) :
  is_byte k → 0 ≤ m ≤ 1 → is_byte (Z.lor (uchar (Z.shiftl k 1)) m).
Proof.
  intros Hk Hm. assert (m = 0 ∨ m = 1) as [-> | ->] by lia; revert k Hk.
  - apply (byte_cases (λ k, is_byte (Z.lor (uchar (Z.shiftl k 1)) 0))).
    by vm_compute.
  - apply (byte_cases (λ k, is_byte (Z.lor (uchar (Z.shiftl k 1)) 1))).
    by vm_compute.
Qed.

Lemma msb_range (k : Z) : 0 ≤ msb k ≤ 1.
Proof. unfold msb. destruct (Z.land k 128 =? 0); lia. Qed.

Lemma shift_in_bytes (c : Z) (key : list Z) :
  0 ≤ c ≤ 1 → Forall is_byte key → Forall is_byte (shift_in c key).
Proof.
  intros Hc. induction 1 as [|k rest Hk Hrest IH]; simpl; constructor; auto.
  apply is_byte_shift; [done |]. destruct rest; [done | apply msb_range].
Qed.

(** On the bit string a pass drops the first bit and appends the bit that
    is shifted in. *)
Lemma key_bits_shift_in (c : Z) (key : list Z) :
  0 ≤ c ≤ 1 → Forall is_byte key → key ≠ [] →
  key_bits (shift_in c key) = tl (key_bits key) ++ [Z.testbit c 0].
Proof.
  intros Hc Hkey Hne. induction Hkey as [|k rest Hk Hrest IH]; [done |].
  clear Hne. unfold key_bits in *. simpl shift_in. rewrite !bind_cons.
  destruct (byte_bits_shift k Hk) as [H0 H1].
  destruct rest as [|k' rest].
  - simpl mbind. rewrite !app_nil_r.
    assert (c = 0 ∨ c = 1) as [-> | ->] by lia; [by rewrite H0 | by rewrite H1].
  - rewrite IH by done.
    apply Forall_cons in Hrest as [Hk' _].
    rewrite (msb_testbit k' Hk').
    rewrite bind_cons.
    change (byte_bits k') with
      (Z.testbit k' 7 :: ((λ i, Z.testbit k' i) <$> [6; 5; 4; 3; 2; 1; 0])).
    destruct (Z.testbit k' 7); simpl Z.b2z; [rewrite H1 | rewrite H0];
      by rewrite <- !(assoc_L (++)).
Qed.

(** ** Rotations of a list *)

Lemma rotate_1_cons {A : Type} (x : A) (l : list A) :
  rotate 1 (x :: l) = l ++ [x].
Proof.
  unfold rotate. simpl length. destruct l as [|y l]; [done |].
  rewrite Nat.mod_small by (simpl; lia). done.
Qed.

Lemma rotate_nil {A : Type} (n : nat) : rotate n (@nil A) = [].
Proof. unfold rotate. by rewrite drop_nil, take_nil. Qed.

Lemma rotate_rotate {A : Type} (a b : nat) (l : list A) :
  rotate a (rotate b l) = rotate (a + b) l.
Proof.
  destruct (decide (length l = 0%nat)) as [Hz | Hnz].
  { apply nil_length_inv in Hz as ->. by rewrite !rotate_nil. }
  apply list_eq. intros i.
  destruct (decide (i < length l)%nat) as [Hi | Hi].
  - rewrite !lookup_rotate_r; rewrite ?length_rotate; try done.
    + f_equal. unfold rotate_nat_add.
      rewrite Z2Nat.id by (apply Z.mod_pos_bound; lia).
      rewrite Zplus_mod_idemp_r. f_equal. f_equal. lia.
    + apply rotate_nat_add_lt. lia.
  - rewrite !lookup_ge_None_2; rewrite ?length_rotate; try done; lia.
Qed.

Lemma rotate_mod {A : Type} (n : nat) (l : list A) :
  rotate (n mod length l) l = rotate n l.
Proof.
  unfold rotate. destruct (decide (length l = 0%nat)) as [Hz | Hnz].
  - apply nil_length_inv in Hz as ->. by rewrite !drop_nil, !take_nil.
  - by rewrite Nat.Div0.mod_mod.
Qed.

Lemma rotate_0 {A : Type} (l : list A) : rotate 0 l = l.
Proof.
  unfold rotate. rewrite Nat.Div0.mod_0_l. simpl. by rewrite app_nil_r.
Qed.

(** ** The bit rotation *)

Lemma rotl1_bytes (key : list Z) : Forall is_byte key → Forall is_byte (rotl1 key).
Proof. intros H. apply shift_in_bytes; [apply msb_range | done]. Qed.

Lemma length_rotl1 (key : list Z) : length (rotl1 key) = length key.
Proof. apply length_shift_in. Qed.

Lemma key_bits_rotl1 (key : list Z) :
  Forall is_byte key → key_bits (rotl1 key) = rotate 1 (key_bits key).
Proof.
  intros Hkey. destruct key as [|k0 rest]; [done |].
  unfold rotl1. rewrite key_bits_shift_in; [| apply msb_range | done | done].
  apply Forall_cons in Hkey as [Hk0 _].
  simpl hd. rewrite (msb_testbit k0 Hk0).
  unfold key_bits. rewrite bind_cons.
  change (byte_bits k0) with
    (Z.testbit k0 7 :: ((λ i, Z.testbit k0 i) <$> [6; 5; 4; 3; 2; 1; 0])).
  rewrite <- app_comm_cons, rotate_1_cons. simpl tl.
  by destruct (Z.testbit k0 7).
Qed.

Lemma rotate_bits_loop_spec (passes : nat) (key : list Z) :
  key ≠ [] →
  Z.of_nat (length key) < 4294967296 →
  Rotate.rotate_bits_loop passes key (Z.of_nat (length key))
  = Ok (Nat.iter passes rotl1 key).
Proof.
  revert key. induction passes as [|passes IH]; intros key Hne Hlen; [done |].
  simpl Rotate.rotate_bits_loop.
  rewrite rotate_bits_pass_spec, bind_Ok_l by done. fold (rotl1 key).
  rewrite <- (length_rotl1 key). rewrite IH.
  - by rewrite Nat.iter_succ_r.
  - intros E. apply (f_equal length) in E. rewrite length_rotl1 in E.
    destruct key; [done | discriminate].
  - by rewrite length_rotl1.
Qed.

Lemma iter_rotl1_bytes (n : nat) (key : list Z) :
  Forall is_byte key → Forall is_byte (Nat.iter n rotl1 key).
Proof. intros H. induction n; simpl; [done | by apply rotl1_bytes]. Qed.

Lemma length_iter_rotl1 (n : nat) (key : list Z) :
  length (Nat.iter n rotl1 key) = length key.
Proof. induction n; simpl; [done | by rewrite length_rotl1]. Qed.

Lemma key_bits_iter_rotl1 (n : nat) (key : list Z) :
  Forall is_byte key →
  key_bits (Nat.iter n rotl1 key) = rotate n (key_bits key).
Proof.
  intros H. induction n as [|n IH]; simpl.
  - by rewrite rotate_0.
  - rewrite key_bits_rotl1 by (by apply iter_rotl1_bytes).
    by rewrite IH, rotate_rotate.
Qed.

Lemma shift_in_lookup (c : Z) (key : list Z) (i : nat) (k : Z) :
  key !! i = Some k →
  shift_in c key !! i
  = Some (Z.lor (uchar (Z.shiftl k 1))
                (match key !! S i with Some k1 => msb k1 | None => c end)).
Proof.
  revert i. induction key as [|k0 rest IH]; intros i Hi; [done |].
  destruct i as [|i].
  - simpl in Hi. injection Hi as ->. simpl. by destruct rest.
  - simpl in Hi. simpl. by apply IH.
Qed.

Lemma shift_in_lsb (k m : Z) :
  is_byte k → 0 ≤ m ≤ 1 →
  Z.testbit (Z.lor (uchar (Z.shiftl k 1)) m) 0 = Z.testbit m 0.
Proof.
  intros Hk Hm. assert (m = 0 ∨ m = 1) as [-> | ->] by lia; revert k Hk.
  - apply (byte_cases (λ k,
      Z.testbit (Z.lor (uchar (Z.shiftl k 1)) 0) 0 = Z.testbit 0 0)).
    by vm_compute.
  - apply (byte_cases (λ k,
      Z.testbit (Z.lor (uchar (Z.shiftl k 1)) 1) 0 = Z.testbit 1 0)).
    by vm_compute.
Qed.

Lemma msb_lsb (k : Z) : is_byte k → Z.testbit (msb k) 0 = Z.testbit k 7.
Proof.
  intros Hk. rewrite (msb_testbit k Hk). by destruct (Z.testbit k 7).
Qed.

Lemma rotl1_carries_backward (key : list Z) :
  Forall is_byte key → carries_backward key (rotl1 key).
Proof.
  intros Hkey i k k1 k' Hi Hi1 Hi'. unfold rotl1 in Hi'.
  rewrite (shift_in_lookup _ _ _ _ Hi), Hi1 in Hi'. injection Hi' as <-.
  split; [done |].
  rewrite Forall_lookup in Hkey.
  rewrite shift_in_lsb by eauto using msb_range.
  apply msb_lsb. eauto.
Qed.

Lemma rotl1_wraps_around (key : list Z) :
  Forall is_byte key → wraps_around key (rotl1 key).
Proof.
  intros Hkey k0 kl k' H0 Hl Hl'. unfold rotl1 in Hl'.
  rewrite (shift_in_lookup _ _ _ _ Hl) in Hl'.
  assert (Hlen : (0 < length key)%nat) by (destruct key; [done | simpl; lia]).
  rewrite (lookup_ge_None_2 key (S (length key - 1))) in Hl' by lia.
  injection Hl' as <-.
  replace (hd 0 key) with k0 by (destruct key; [done | by injection H0]).
  split; [done |].
  rewrite Forall_lookup in Hkey.
  rewrite shift_in_lsb by eauto using msb_range.
  apply msb_lsb. eauto.
Qed.

(** C9, as amended.  A single-bit pass scans the key once: byte [i] takes
    the most significant bit of byte [i + 1] into its least significant
    bit, the last byte takes the most significant bit of byte 0, and the
    key as a big-endian bit string is rotated left by one bit; [shift]
    passes rotate it left by [shift] bits. *)
Theorem rotate_bits_is_left_rotation (key : list Z) (shift : Z) :
  key ≠ [] →
  Z.of_nat (length key) < 4294967296 →
  Forall is_byte key →
  0 ≤ shift < 8 →
  (∃ key', Rotate.rotate_bits_pass key (Z.of_nat (length key)) = Ok key' ∧
           length key' = length key ∧
           carries_backward key key' ∧
           wraps_around key key' ∧
           key_bits key' = rotate 1 (key_bits key)) ∧
  (∃ key', Rotate.encrypt_rotate_key_bits key (Z.of_nat (length key)) shift
             = Ok key' ∧
           key_bits key' = rotate (Z.to_nat shift) (key_bits key)).
Proof.
  intros Hne Hlen Hkey Hshift. split.
  - exists (rotl1 key). split; [by apply rotate_bits_pass_spec |].
    split; [apply length_rotl1 |].
    split; [by apply rotl1_carries_backward |].
    split; [by apply rotl1_wraps_around |].
    by apply key_bits_rotl1.
  - exists (Nat.iter (Z.to_nat shift) rotl1 key).
    unfold Rotate.encrypt_rotate_key_bits, uchar.
    rewrite Z.mod_small by lia.
    split; [by apply rotate_bits_loop_spec |].
    by apply key_bits_iter_rotl1.
Qed.

Lemma rotate_bits_is_left_rotation_witness :
  (∃ key', Rotate.rotate_bits_pass [1; 128; 255] 3 = Ok key' ∧
           length key' = 3%nat ∧
           carries_backward [1; 128; 255] key' ∧
           wraps_around [1; 128; 255] key' ∧
           key_bits key' = rotate 1 (key_bits [1; 128; 255])) ∧
  (∃ key', Rotate.encrypt_rotate_key_bits [1; 128; 255] 3 5 = Ok key' ∧
           key_bits key' = rotate 5 (key_bits [1; 128; 255])).
Proof.
  apply (rotate_bits_is_left_rotation [1; 128; 255] 5).
  - done.
  - simpl. lia.
  - repeat constructor; unfold is_byte; lia.
  - lia.
Defined.

(** C9, as the spec words it, fails: on the key [0; 128; 0] the set top
    bit of byte 1 does not arrive in byte 2; the pass leaves [1; 0; 0]. *)
Lemma rotate_bits_carry_forward_counterexample :
  Rotate.rotate_bits_pass [0; 128; 0] 3 = Ok [1; 0; 0] ∧
  ¬ carries_forward [0; 128; 0] [1; 0; 0].
Proof.
  split; [done |].
  intros H. specialize (H 1%nat 128 0 eq_refl eq_refl). discriminate.
Qed.

(** ** The completion queue *)

(** C3 at the queue that holds block 1, when block 0 completes.  The
    search stops at the head with [previous] still the head, so the head's
    [next] is set to the new block and the new block's [next] to the
    head: the two descriptors point at each other, the head is still
    block 1, and no list is the contents of the queue. *)
Theorem insert_before_head_makes_cycle (fuel : nat) :
  ∃ m', Worker.insert (S fuel) block1_then_block0 0%nat = Ok m' ∧
        completion_queue m' = Some 1%nat ∧
        heap m' !! 1%nat = Some (Info.mk 1 [0] 1 (Some 0%nat)) ∧
        heap m' !! 0%nat = Some (Info.mk 0 [0] 1 (Some 1%nat)) ∧
        ∀ l, ¬ is_queue (heap m') (completion_queue m') l.
Proof.
  eexists. split; [vm_compute; reflexivity |].
  split; [done |]. split; [done |]. split; [done |].
  cut (∀ l p, p = Some 0%nat ∨ p = Some 1%nat →
         ¬ is_seg (<[0%nat := Info.mk 0 [0] 1 (Some 1%nat)]>
                     (<[1%nat := Info.mk 1 [0] 1 (Some 0%nat)]>
                        (<[0%nat := Info.mk 0 [0] 1 None]>
                           (<[1%nat := Info.mk 1 [0] 1 None]> ∅))))
                  p None l).
  { intros H l Hl. apply (H l (Some 1%nat)); [by right |].
    unfold is_queue in Hl. vm_compute in Hl. vm_compute. exact Hl. }
  induction l as [|x l IH]; intros p Hp Hseg.
  - simpl in Hseg. destruct Hp; congruence.
  - destruct Hseg as (-> & b & Hb & Hrest).
    destruct Hp as [[= ->] | [= ->]].
    + rewrite lookup_insert_eq in Hb. injection Hb as <-.
      apply (IH _ (or_intror eq_refl) Hrest).
    + rewrite lookup_insert_ne, lookup_insert_eq in Hb by done.
      injection Hb as <-.
      apply (IH _ (or_introl eq_refl) Hrest).
Qed.

(** ** Linked queues in the heap *)

Lemma is_seg_insert_ne (h : gmap nat Info.t) (p q : option nat)
    (l : list nat) (x : nat) (b : Info.t) :
  x ∉ l → is_seg h p q l → is_seg (<[x := b]> h) p q l.
Proof.
  revert p. induction l as [|y l IH]; intros p Hx Hseg; [done |].
  destruct Hseg as (-> & yb & Hy & Hrest).
  apply not_elem_of_cons in Hx as [Hxy Hx].
  split; [done |]. exists yb. split; [by rewrite lookup_insert_ne | by apply IH].
Qed.

Lemma is_seg_app (h : gmap nat Info.t) (p q r : option nat) (l1 l2 : list nat) :
  is_seg h p q l1 → is_seg h q r l2 → is_seg h p r (l1 ++ l2).
Proof.
  revert p. induction l1 as [|y l1 IH]; intros p H1 H2.
  - simpl in H1. by subst.
  - destruct H1 as (-> & yb & Hy & Hrest). split; [done |].
    exists yb. split; [done | by apply IH].
Qed.

Lemma is_seg_snoc (h : gmap nat Info.t) (p q : option nat) (l : list nat)
    (t : nat) :
  is_seg h p q (l ++ [t]) ↔
  is_seg h p (Some t) l ∧ ∃ tb, h !! t = Some tb ∧ Info.next tb = q.
Proof.
  revert p. induction l as [|y l IH]; intros p; simpl.
  - split.
    + intros (-> & tb & Ht & Hq). eauto.
    + intros (-> & tb & Ht & Hq). eauto.
  - split.
    + intros (-> & yb & Hy & Hrest). apply IH in Hrest as [Hseg Ht].
      split; [| done]. split; [done |]. eauto.
    + intros ((-> & yb & Hy & Hrest) & Ht). split; [done |].
      exists yb. split; [done |]. apply IH. eauto.
Qed.

Lemma is_seg_elem (h : gmap nat Info.t) (p q : option nat) (l : list nat)
    (x : nat) :
  is_seg h p q l → x ∈ l → is_Some (h !! x).
Proof.
  revert p. induction l as [|y l IH]; intros p Hseg Hx.
  - by apply elem_of_nil in Hx.
  - destruct Hseg as (-> & yb & Hy & Hrest).
    apply elem_of_cons in Hx as [-> | Hx]; [eauto | by eapply IH].
Qed.

(** The walk to the tail finds the last descriptor of a queue. *)
Lemma find_tail_spec (h : gmap nat Info.t) (l : list nat) (c t : nat)
    (fuel : nat) :
  is_queue h (Some c) (l ++ [t]) → (length l < fuel)%nat →
  Coordinator.find_tail fuel h c = Ok t.
Proof.
  unfold is_queue. revert c fuel.
  induction l as [|y l IH]; intros c fuel Hq Hfuel;
    (destruct fuel as [|fuel]; [simpl in Hfuel; lia |]).
  - destruct Hq as ([= ->] & tb & Ht & Hn). simpl in Hn.
    simpl. unfold load. rewrite Ht. simpl. by rewrite Hn.
  - destruct Hq as ([= ->] & yb & Hy & Hrest).
    simpl. unfold load. rewrite Hy. simpl.
    assert (Hn : ∃ c', Info.next yb = Some c').
    { destruct l; destruct Hrest as (Hn & _); eauto. }
    destruct Hn as [c' Hn]. rewrite Hn in *.
    apply IH; [done | simpl in *; lia].
Qed.

(** The coordinator's append: a fresh descriptor becomes the last one. *)
Lemma submit_spec (m : machine) (l : list nat) (info : nat) (ib : Info.t)
    (fuel : nat) :
  is_queue (heap m) (process_queue m) l → NoDup l → info ∉ l →
  heap m !! info = Some ib → Info.next ib = None →
  (length l < fuel)%nat →
  ∃ m', Coordinator.submit fuel m info = Ok m' ∧
        is_queue (heap m') (process_queue m') (l ++ [info]) ∧
        (∀ x, data_of (heap m') x = data_of (heap m) x) ∧
        brk m' = brk m ∧ stdin m' = stdin m ∧ stdout m' = stdout m ∧
        completion_queue m' = completion_queue m.
Proof.
  intros Hq Hnd Hinfo Hib Hnext Hfuel. unfold Coordinator.submit.
  destruct l as [|c l0] using rev_ind.
  - unfold is_queue in Hq. simpl in Hq. rewrite Hq.
    eexists. split; [done |]. simpl.
    split; [| done]. split; [done |]. exists ib. by rewrite Hnext.
  - clear IHl0. rename c into t.
    assert (Hhead : ∃ c, process_queue m = Some c).
    { destruct l0; destruct Hq as (-> & _); eauto. }
    destruct Hhead as [c Hc]. rewrite Hc in *.
    rewrite length_app in Hfuel. simpl in Hfuel.
    rewrite (find_tail_spec _ l0 c t fuel Hq) by lia. rewrite bind_Ok_l.
    apply is_seg_snoc in Hq as (Hseg & tb & Ht & Htn).
    unfold load. rewrite Ht. simpl.
    eexists. split; [done |]. simpl.
    apply NoDup_app in Hnd as (Hnd0 & Hdisj & _).
    apply not_elem_of_app in Hinfo as [Hinfo0 Hinfot].
    rewrite list_elem_of_singleton in Hinfot.
    split; [| split; [| done]].
    + rewrite Hc. unfold is_queue. rewrite <- (assoc_L (++)). simpl.
      apply is_seg_app with (q := Some t).
      * apply is_seg_insert_ne; [| done].
        intros Hin. apply (Hdisj t Hin). by apply list_elem_of_singleton.
      * split; [done |]. eexists. split; [by rewrite lookup_insert_eq |].
        simpl. split; [done |]. exists ib.
        split; [by rewrite lookup_insert_ne | by rewrite Hnext].
    + intros x. unfold data_of. destruct (decide (x = t)) as [-> | Hx].
      * by rewrite lookup_insert_eq, Ht.
      * by rewrite lookup_insert_ne.
Qed.

(** ** The submission loop *)

Lemma uint_succ (a : Z) (j : nat) :
  uint (uint (a + 1) + Z.of_nat j) = uint (a + Z.of_nat (S j)).
Proof.
  unfold uint. rewrite Zplus_mod_idemp_l. f_equal. lia.
Qed.

Lemma is_queue_below_brk (m : machine) (l : list nat) :
  heap_fresh m → is_queue (heap m) (process_queue m) l →
  ∀ x, x ∈ l → (x < brk m)%nat.
Proof.
  intros Hfresh Hq x Hx.
  destruct (is_seg_elem _ _ _ _ _ Hq Hx) as [b Hb].
  destruct (decide (x < brk m)%nat) as [|Hge]; [done |].
  rewrite Hfresh in Hb by lia. done.
Qed.

(** The submission loop against the reads it makes: the round ends at the
    first empty read, which alone sets [quit]; every other read, full or
    short, becomes a block at the end of the process queue. *)
Lemma submit_loop_spec (todo : nat) :
  ∀ (m : machine) (l : list nat) (index slot : Z) (lens : list Z)
    (fuel : nat) (L N : Z),
  0 < L →
  N < 4294967296 →
  0 ≤ index < 4294967296 →
  0 ≤ slot → slot + Z.of_nat todo = N →
  heap_fresh m →
  is_queue (heap m) (process_queue m) l → NoDup l →
  (length l + todo ≤ fuel)%nat →
  ∃ m' new,
    Coordinator.submit_loop todo fuel m L N index slot lens
    = Ok (m',
          uint (index + Z.of_nat (length (reads_until_empty todo (Z.to_nat L) (stdin m)).1.1)),
          slot + Z.of_nat (length (reads_until_empty todo (Z.to_nat L) (stdin m)).1.1),
          (reads_until_empty todo (Z.to_nat L) (stdin m)).1.2,
          lens ++ ((λ c, Z.of_nat (length c)) <$>
                     (reads_until_empty todo (Z.to_nat L) (stdin m)).1.1)) ∧
    stdin m' = (reads_until_empty todo (Z.to_nat L) (stdin m)).2 ∧
    stdout m' = stdout m ∧
    completion_queue m' = completion_queue m ∧
    is_queue (heap m') (process_queue m') (l ++ new) ∧
    NoDup (l ++ new) ∧
    heap_fresh m' ∧
    data_of (heap m') <$> new
    = Some <$> imap (submitted_block L index)
                 (reads_until_empty todo (Z.to_nat L) (stdin m)).1.1 ∧
    (∀ x, (x < brk m)%nat → data_of (heap m') x = data_of (heap m) x).
Proof.
  induction todo as [|todo IH];
    intros m l index slot lens fuel L N HL HN Hindex Hslot HslotN Hfresh Hq
           Hnd Hfuel.
  - exists m, []. simpl. change (Z.of_nat 0) with 0.
    rewrite !app_nil_r, !Z.add_0_r. rewrite uint_small by lia. done.
  - simpl Coordinator.submit_loop.
    destruct (Z.ltb_spec slot N) as [_ | ?]; [| lia].
    unfold load. simpl heap. rewrite lookup_insert_eq. rewrite bind_Ok_l.
    unfold fread. cbv beta iota zeta. simpl Info.block.
    simpl reads_until_empty.
    destruct (take (Z.to_nat L) (stdin m)) as [|d data] eqn:Hdata.
    + (* the read is empty *)
      simpl length. simpl Z.of_nat.
      destruct (Z.eqb_spec 0 0) as [_ | ?]; [| done].
      unfold encrypt_block_deinit, load. simpl heap.
      rewrite lookup_insert_eq, bind_Ok_l.
      eexists _, []. split; [| simpl; split_and!].
      * simpl. change (Z.of_nat 0) with 0.
        rewrite !Z.add_0_r, app_nil_r, uint_small by lia. reflexivity.
      * assert (stdin m = []) as ->.
        { destruct (stdin m); [done |].
          destruct (Z.to_nat L) eqn:E; [lia | discriminate]. }
        by rewrite drop_nil.
      * done.
      * done.
      * rewrite app_nil_r, insert_insert_eq, delete_insert_eq.
        rewrite delete_id by (apply Hfresh; lia). done.
      * by rewrite app_nil_r.
      * intros x Hx. simpl in *.
        rewrite insert_insert_eq, delete_insert_eq.
        rewrite delete_id by (apply Hfresh; lia). apply Hfresh. lia.
      * done.
      * intros x Hx. rewrite insert_insert_eq, delete_insert_eq.
        by rewrite delete_id by (apply Hfresh; lia).
    + (* a block was read *)
      set (chunk := d :: data) in *.
      assert (Hlen : (Z.of_nat (length chunk) =? 0) = false)
        by (apply Z.eqb_neq; simpl; lia).
      rewrite Hlen.
      set (ib := Info.set_length _ _).
      set (m2 := set_stdin _ _).
      assert (Hbelow := is_queue_below_brk m l Hfresh Hq).
      assert (Hnotin : brk m ∉ l).
      { intros Hin. specialize (Hbelow _ Hin). lia. }
      destruct (submit_spec m2 l (brk m) ib fuel) as
        (m3 & Hsub & Hq3 & Hdata3 & Hbrk3 & Hin3 & Hout3 & Hcq3).
      { simpl. rewrite insert_insert_eq. by apply is_seg_insert_ne. }
      { done. }
      { done. }
      { simpl. by rewrite insert_insert_eq, lookup_insert_eq. }
      { done. }
      { lia. }
      rewrite Hsub, bind_Ok_l.
      destruct (IH m3 (l ++ [brk m]) (uint (index + 1)) (uint (slot + 1))
                  (lens ++ [Z.of_nat (length chunk)]) fuel L N)
        as (m' & new & Hloop & Hin' & Hout' & Hcq' & Hq' & Hnd' & Hfresh'
            & Hnew' & Hold'); try done.
      { unfold uint. apply Z.mod_pos_bound. lia. }
      { rewrite uint_small by lia. lia. }
      { rewrite uint_small by lia. lia. }
      { intros x Hx. rewrite Hbrk3 in Hx. simpl in Hx.
        specialize (Hdata3 x). unfold data_of in Hdata3.
        simpl in Hdata3. rewrite insert_insert_eq in Hdata3.
        rewrite lookup_insert_ne in Hdata3 by lia.
        rewrite Hfresh in Hdata3 by lia.
        by destruct (heap m3 !! x). }
      { apply NoDup_app. split; [done |]. split; [| apply NoDup_singleton].
        intros x Hx Hx'. apply list_elem_of_singleton in Hx' as ->. done. }
      { rewrite length_app. simpl. lia. }
      rewrite Hin3 in *. simpl stdin in *.
      destruct (reads_until_empty todo (Z.to_nat L)
                  (drop (Z.to_nat L) (stdin m))) as [[ds q] rest] eqn:Hreads.
      simpl in Hloop, Hin', Hnew'. simpl.
      exists m', (brk m :: new).
      rewrite Hloop. split; [| split_and!].
      * rewrite uint_succ, (uint_small (slot + 1)) by lia.
        rewrite <- (assoc_L (++)). simpl.
        replace (slot + 1 + Z.of_nat (length ds))
          with (slot + Z.of_nat (S (length ds))) by lia.
        done.
      * done.
      * by rewrite Hout', Hout3.
      * by rewrite Hcq', Hcq3.
      * by rewrite <- (assoc_L (++)) in Hq'.
      * by rewrite <- (assoc_L (++)) in Hnd'.
      * done.
      * rewrite fmap_cons. f_equal.
        -- rewrite Hold' by (rewrite Hbrk3; simpl; lia).
           rewrite Hdata3. unfold data_of. simpl.
           rewrite insert_insert_eq, lookup_insert_eq. simpl.
           unfold submitted_block. rewrite Z.add_0_r, uint_small by lia.
           done.
        -- rewrite Hnew'. f_equal. apply imap_ext. intros j c _.
           unfold submitted_block. simpl. by rewrite uint_succ.
      * intros x Hx. rewrite Hold' by (rewrite Hbrk3; simpl; lia).
        rewrite Hdata3. unfold data_of. simpl.
        rewrite insert_insert_eq. by rewrite lookup_insert_ne by lia.
Qed.

Lemma reads_until_empty_facts (todo L : nat) (input : list Z) :
  (0 < L)%nat →
  Forall (λ c, c ≠ [] ∧ (length c ≤ L)%nat)
         (reads_until_empty todo L input).1.1 ∧
  concat (reads_until_empty todo L input).1.1
    ++ (reads_until_empty todo L input).2 = input ∧
  ((reads_until_empty todo L input).1.2 = true →
     (reads_until_empty todo L input).2 = [] ∧
     (length (reads_until_empty todo L input).1.1 < todo)%nat) ∧
  ((reads_until_empty todo L input).1.2 = false →
     length (reads_until_empty todo L input).1.1 = todo).
Proof.
  intros HL. revert input. induction todo as [|todo IH]; intros input.
  - simpl. split_and!; [constructor | done | done | done].
  - simpl. destruct (take L input) as [|d data] eqn:Htake.
    + assert (input = []) as ->.
      { destruct input; [done |]. destruct L; [lia | discriminate]. }
      simpl. split_and!; [constructor | done | | done].
      intros _. split; [done | lia].
    + destruct (IH (drop L input)) as (Hall & Hcat & Hq & Hnq).
      destruct (reads_until_empty todo L (drop L input)) as [[ds q] rest].
      simpl in *. split_and!.
      * constructor; [| done]. split; [done |].
        rewrite <- Htake, length_take. lia.
      * change (((d :: data) ++ concat ds) ++ rest = input).
        rewrite <- (assoc_L (++)), Hcat, <- Htake. apply take_drop.
      * intros Hq'. destruct (Hq Hq'). split; [done | lia].
      * intros Hq'. by rewrite Hnq.
Qed.

(** C5, as amended.  A submission round reads up to [N] chunks of [L]
    bytes.  The first empty read ends the round and is the only thing that
    sets [quit]; every other read, full or short, becomes a block of the
    length that was read, appended to the process queue, and the loop
    reads on. *)
Theorem submit_loop_stops_at_empty_read (m : machine) (l : list nat)
    (index : Z) (fuel : nat) (L N : Z) :
  0 < L →
  0 < N < 4294967296 →
  0 ≤ index < 4294967296 →
  heap_fresh m →
  is_queue (heap m) (process_queue m) l → NoDup l →
  (length l + Z.to_nat N ≤ fuel)%nat →
  ∃ m' new chunks quit,
    reads_until_empty (Z.to_nat N) (Z.to_nat L) (stdin m)
    = (chunks, quit, stdin m') ∧
    Coordinator.submit_loop (Z.to_nat N) fuel m L N index 0 []
    = Ok (m', uint (index + Z.of_nat (length chunks)),
          Z.of_nat (length chunks), quit,
          (λ c, Z.of_nat (length c)) <$> chunks) ∧
    is_queue (heap m') (process_queue m') (l ++ new) ∧
    data_of (heap m') <$> new = Some <$> imap (submitted_block L index) chunks ∧
    Forall (λ c, c ≠ [] ∧ Z.of_nat (length c) ≤ L) chunks ∧
    concat chunks ++ stdin m' = stdin m ∧
    (quit = true → stdin m' = [] ∧ Z.of_nat (length chunks) < N) ∧
    (quit = false → Z.of_nat (length chunks) = N).
Proof.
  intros HL HN Hindex Hfresh Hq Hnd Hfuel.
  destruct (submit_loop_spec (Z.to_nat N) m l index 0 [] fuel L N)
    as (m' & new & Hloop & Hin & _ & _ & Hq' & _ & _ & Hnew & _);
    try done; try lia.
  destruct (reads_until_empty_facts (Z.to_nat N) (Z.to_nat L) (stdin m))
    as (Hall & Hcat & Hquit & Hnquit); [lia |].
  destruct (reads_until_empty (Z.to_nat N) (Z.to_nat L) (stdin m))
    as [[chunks quit] rest] eqn:Hreads.
  simpl in *. subst rest.
  exists m', new, chunks, quit. split_and!; try done.
  - eapply Forall_impl; [exact Hall |]. intros c [Hc Hlen]. split; [done | lia].
  - intros Hq1. destruct (Hquit Hq1). split; [done | lia].
  - intros Hq0. rewrite (Hnquit Hq0). lia.
Qed.

Lemma submit_loop_stops_at_empty_read_witness :
  ∃ m' new chunks quit,
    reads_until_empty 2 2 [1; 2; 3] = (chunks, quit, stdin m') ∧
    Coordinator.submit_loop 2 2 (Coordinator.start [1; 2; 3]) 2 2 0 0 []
    = Ok (m', uint (0 + Z.of_nat (length chunks)),
          Z.of_nat (length chunks), quit,
          (λ c, Z.of_nat (length c)) <$> chunks) ∧
    is_queue (heap m') (process_queue m') ([] ++ new) ∧
    data_of (heap m') <$> new = Some <$> imap (submitted_block 2 0) chunks ∧
    Forall (λ c, c ≠ [] ∧ Z.of_nat (length c) ≤ 2) chunks ∧
    concat chunks ++ stdin m' = [1; 2; 3] ∧
    (quit = true → stdin m' = [] ∧ Z.of_nat (length chunks) < 2) ∧
    (quit = false → Z.of_nat (length chunks) = 2).
Proof.
  apply (submit_loop_stops_at_empty_read
           (Coordinator.start [1; 2; 3]) [] 0 2 2 2).
  - lia.
  - lia.
  - lia.
  - intros x _. apply lookup_empty.
  - reflexivity.
  - constructor.
  - simpl. lia.
Defined.

(** C5, as the spec words it, fails: with two slots and blocks of two
    bytes, the second read of the input [1; 2; 3] is short.  The spec ends
    the input there; the code submits the short block and leaves [quit]
    unset. *)
Lemma short_read_does_not_end_input_counterexample :
  (∃ m', Coordinator.submit_loop 2 2 (Coordinator.start [1; 2; 3]) 2 2 0 0 []
         = Ok (m', 2, 2, false, [2; 1])) ∧
  reads_until_short 2 2 [1; 2; 3] = ([[1; 2]; [3]], true, []).
Proof.
  split; [| reflexivity]. eexists. vm_compute. reflexivity.
Qed.

(** ** The exit status *)


(** C4 at three setup failures: no [-k] option, a key file that cannot
    be opened, and an empty key file.  Each prints its diagnostic and
    writes no output, and the process ends with status 0. *)
Theorem setup_failure_exits_zero (fuel : nat) (sched : list nat)
    (input : list Z) :
  Program.main fuel sched (healthy ∅) ["-n"; "4"]%string input
  = Ok (Program.Outcome 0 [Program.Diagnostic "encrypt" 426 None] []) ∧
  Program.main fuel sched (healthy ∅) ["-k"; "key"]%string input
  = Ok (Program.Outcome 0 [Program.Diagnostic "encrypt" 427 None] []) ∧
  Program.main fuel sched (healthy {[ "key"%string := [] ]})
               ["-k"; "key"]%string input
  = Ok (Program.Outcome 0 [Program.Diagnostic "encrypt" 430 None] []).
Proof. split_and!; reflexivity. Qed.

(** ** More fuel changes no result *)

Lemma le_result_refl {A : Type} (r : result A) : le_result r r.
Proof. by right. Qed.

Lemma le_result_bind {A B : Type} (r r' : result A) (f f' : A → result B) :
  le_result r r' → (∀ a, le_result (f a) (f' a)) →
  le_result (r ≫= f) (r' ≫= f').
Proof.
  intros [-> | ->] Hf; [by left |].
  destruct r' as [a| |]; simpl; [apply Hf | by right | by right].
Qed.

Lemma le_result_Ok {A : Type} (r r' : result A) (a : A) :
  le_result r r' → r = Ok a → r' = Ok a.
Proof. intros [-> | ->]; [discriminate | done]. Qed.

Lemma le_result_Fault {A : Type} (r r' : result A) :
  le_result r r' → r = Fault → r' = Fault.
Proof. intros [-> | ->]; [discriminate | done]. Qed.

Lemma le_result_Timeout {A : Type} (r r' : result A) :
  le_result r r' → r' = Timeout → r = Timeout.
Proof. intros [-> | ->]; done. Qed.

Ltac mono_step :=
  first
    [ apply le_result_refl
    | apply le_result_bind; [| intros ?]
    | match goal with
      | |- le_result (if ?c then _ else _) _ => destruct c
      | |- le_result (match ?x with _ => _ end) _ => destruct x
      end ].

Ltac mono := repeat mono_step.

Lemma rotate_bytes_cycle_mono (fuel fuel' : nat) (key : list Z)
    (keylength shift index pos : Z) :
  (fuel ≤ fuel')%nat →
  le_result (Rotate.rotate_bytes_cycle fuel key keylength shift index pos)
            (Rotate.rotate_bytes_cycle fuel' key keylength shift index pos).
Proof.
  revert fuel' key pos. induction fuel as [|fuel IH]; intros fuel' key pos Hle;
    [by left |].
  destruct fuel' as [|fuel']; [lia |]. simpl. mono. apply IH. lia.
Qed.

Lemma rotate_bytes_outer_mono (todo fuel fuel' : nat) (key : list Z)
    (keylength shift gcd index : Z) :
  (fuel ≤ fuel')%nat →
  le_result (Rotate.rotate_bytes_outer todo fuel key keylength shift gcd index)
            (Rotate.rotate_bytes_outer todo fuel' key keylength shift gcd index).
Proof.
  intros Hle. revert key index. induction todo as [|todo IH]; intros key index;
    simpl; mono.
  - by apply rotate_bytes_cycle_mono.
  - apply IH.
Qed.

Lemma encrypt_rotate_key_mono (fuel fuel' : nat) (key : list Z)
    (keylength shift : Z) :
  (fuel ≤ fuel')%nat →
  le_result (Rotate.encrypt_rotate_key fuel key keylength shift)
            (Rotate.encrypt_rotate_key fuel' key keylength shift).
Proof.
  intros Hle. unfold Rotate.encrypt_rotate_key, Rotate.encrypt_rotate_key_bytes.
  mono. by apply rotate_bytes_outer_mono.
Qed.

Lemma transform_mono (fuel fuel' : nat) (key : list Z) (keylength : Z)
    (h : gmap nat Info.t) (info : nat) :
  (fuel ≤ fuel')%nat →
  le_result (Worker.transform fuel key keylength h info)
            (Worker.transform fuel' key keylength h info).
Proof.
  intros Hle. unfold Worker.transform. mono. by apply encrypt_rotate_key_mono.
Qed.

Lemma find_slot_mono (fuel fuel' : nat) (h : gmap nat Info.t) (index : Z)
    (current previous : option nat) :
  (fuel ≤ fuel')%nat →
  le_result (Worker.find_slot fuel h index current previous)
            (Worker.find_slot fuel' h index current previous).
Proof.
  revert fuel' current previous.
  induction fuel as [|fuel IH]; intros fuel' current previous Hle; [by left |].
  destruct fuel' as [|fuel']; [lia |]. simpl. mono. apply IH. lia.
Qed.

Lemma insert_mono (fuel fuel' : nat) (m : machine) (info : nat) :
  (fuel ≤ fuel')%nat →
  le_result (Worker.insert fuel m info) (Worker.insert fuel' m info).
Proof.
  intros Hle. unfold Worker.insert. mono. by apply find_slot_mono.
Qed.

Lemma find_tail_mono (fuel fuel' : nat) (h : gmap nat Info.t) (current : nat) :
  (fuel ≤ fuel')%nat →
  le_result (Coordinator.find_tail fuel h current)
            (Coordinator.find_tail fuel' h current).
Proof.
  revert fuel' current.
  induction fuel as [|fuel IH]; intros fuel' current Hle; [by left |].
  destruct fuel' as [|fuel']; [lia |]. simpl. mono. apply IH. lia.
Qed.

Lemma submit_mono (fuel fuel' : nat) (m : machine) (info : nat) :
  (fuel ≤ fuel')%nat →
  le_result (Coordinator.submit fuel m info) (Coordinator.submit fuel' m info).
Proof.
  intros Hle. unfold Coordinator.submit. mono. by apply find_tail_mono.
Qed.

Lemma submit_loop_mono (todo fuel fuel' : nat) (m : machine)
    (keylength threadcount index slot : Z) (lens : list Z) :
  (fuel ≤ fuel')%nat →
  le_result
    (Coordinator.submit_loop todo fuel m keylength threadcount index slot lens)
    (Coordinator.submit_loop todo fuel' m keylength threadcount index slot lens).
Proof.
  intros Hle. revert m index slot lens.
  induction todo as [|todo IH]; intros m index slot lens; simpl; mono.
  - by apply submit_mono.
  - apply IH.
Qed.

Lemma complete_mono (todo fuel fuel' : nat) (sched : list nat) (key : list Z)
    (keylength : Z) (m : machine) (inflight : list nat) :
  (fuel ≤ fuel')%nat →
  le_result (Coordinator.complete todo fuel sched key keylength m inflight)
            (Coordinator.complete todo fuel' sched key keylength m inflight).
Proof.
  intros Hle. revert sched m inflight.
  induction todo as [|todo IH]; intros sched m inflight; simpl; mono.
  all: first [ by apply transform_mono | by apply insert_mono
             | by apply encrypt_rotate_key_mono | by apply find_slot_mono
             | apply IH ].
Qed.

Lemma drain_mono (fuel fuel' : nat) (m : machine) (current : option nat)
    (count : nat) :
  (fuel ≤ fuel')%nat →
  le_result (Coordinator.drain fuel m current count)
            (Coordinator.drain fuel' m current count).
Proof.
  revert fuel' m current count.
  induction fuel as [|fuel IH]; intros fuel' m current count Hle; [by left |].
  destruct fuel' as [|fuel']; [lia |]. simpl. mono. apply IH. lia.
Qed.

Lemma parallel_round_mono (fuel fuel' : nat) (sched : list nat) (key : list Z)
    (keylength threadcount : Z) (m : machine) (index : Z) :
  (fuel ≤ fuel')%nat →
  le_result
    (Coordinator.parallel_round fuel sched key keylength threadcount m index)
    (Coordinator.parallel_round fuel' sched key keylength threadcount m index).
Proof.
  intros Hle. unfold Coordinator.parallel_round.
  apply le_result_bind; [by apply submit_loop_mono |].
  intros [[[[m1 index1] slot1] quit1] lens1].
  apply le_result_bind; [apply le_result_refl |]. intros [m2 inflight].
  apply le_result_bind; [by apply complete_mono |]. intros [m3 sched3].
  apply le_result_bind; [by apply drain_mono |]. intros [m4 count].
  apply le_result_refl.
Qed.

Lemma parallel_loop_mono (rounds rounds' fuel fuel' : nat) (sched : list nat)
    (key : list Z) (keylength threadcount : Z) (m : machine) (index : Z)
    (log : list round) :
  (rounds ≤ rounds')%nat → (fuel ≤ fuel')%nat →
  le_result
    (Coordinator.parallel_loop rounds fuel sched key keylength threadcount
                               m index log)
    (Coordinator.parallel_loop rounds' fuel' sched key keylength threadcount
                               m index log).
Proof.
  intros Hr Hf. revert rounds' sched m index log Hr.
  induction rounds as [|rounds IH]; intros rounds' sched m index log Hr;
    [by left |].
  destruct rounds' as [|rounds']; [lia |]. simpl.
  apply le_result_bind; [by apply parallel_round_mono |].
  intros [[[[m1 index1] sched1] r1] quit1].
  destruct quit1; [apply le_result_refl |]. apply IH. lia.
Qed.

Lemma encrypt_execute_parallel_mono (fuel fuel' : nat) (sched : list nat)
    (key : list Z) (keylength threadcount : Z) (input : list Z) :
  (fuel ≤ fuel')%nat →
  le_result
    (Coordinator.encrypt_execute_parallel fuel sched key keylength threadcount
                                          input)
    (Coordinator.encrypt_execute_parallel fuel' sched key keylength threadcount
                                          input).
Proof.
  intros Hle. unfold Coordinator.encrypt_execute_parallel.
  destruct ((0 <? keylength) && (0 <? threadcount)); [| apply le_result_refl].
  apply le_result_bind; [by apply parallel_loop_mono |].
  intros [m log]. apply le_result_refl.
Qed.

Lemma sequential_loop_mono (rounds rounds' fuel fuel' : nat) (key : list Z)
    (keylength : Z) (block input output : list Z) (index : Z) :
  (rounds ≤ rounds')%nat → (fuel ≤ fuel')%nat →
  le_result
    (Coordinator.sequential_loop rounds fuel key keylength block input output
                                 index)
    (Coordinator.sequential_loop rounds' fuel' key keylength block input output
                                 index).
Proof.
  intros Hr Hf. revert rounds' key block input output index Hr.
  induction rounds as [|rounds IH];
    intros rounds' key block input output index Hr; [by left |].
  destruct rounds' as [|rounds']; [lia |]. simpl. unfold fread.
  cbv beta iota zeta. mono.
  - by apply encrypt_rotate_key_mono.
  - apply IH. lia.
Qed.

Lemma encrypt_execute_sequential_mono (fuel fuel' : nat) (key : list Z)
    (keylength : Z) (input : list Z) :
  (fuel ≤ fuel')%nat →
  le_result (Coordinator.encrypt_execute_sequential fuel key keylength input)
            (Coordinator.encrypt_execute_sequential fuel' key keylength input).
Proof.
  intros Hle. unfold Coordinator.encrypt_execute_sequential.
  destruct (0 <? keylength); [| apply le_result_refl].
  by apply sequential_loop_mono.
Qed.

(** ** Rotations that never end *)

Lemma rd_in_range (buf : list Z) (i : Z) :
  0 ≤ i < Z.of_nat (length buf) → ∃ v, rd buf i = Ok v.
Proof.
  intros Hi. unfold rd. destruct (Z.ltb_spec i 0); [lia |].
  destruct (lookup_lt_is_Some_2 buf (Z.to_nat i)) as [v ->]; [lia | eauto].
Qed.

Lemma wr_in_range (buf : list Z) (i v : Z) :
  0 ≤ i < Z.of_nat (length buf) → wr buf i v = Ok (<[Z.to_nat i := v]> buf).
Proof.
  intros Hi. unfold wr. destruct (Z.ltb_spec i 0); [lia |].
  destruct (lookup_lt_is_Some_2 buf (Z.to_nat i)) as [x ->]; [lia | done].
Qed.

Lemma rotate_bytes_cycle_S (fuel : nat) (key : list Z)
    (keylength shift index pos : Z) :
  Rotate.rotate_bytes_cycle (S fuel) key keylength shift index pos
  = let next := uchar (uint (pos + shift)) in
    let next :=
      if next >=? keylength then uchar (uint (next - keylength)) else next in
    if next =? index then Ok (key, pos)
    else
      v ← rd key next;
      key ← wr key pos v;
      Rotate.rotate_bytes_cycle fuel key keylength shift index next.
Proof. reflexivity. Qed.

Lemma rotate_bytes_outer_S (todo fuel : nat) (key : list Z)
    (keylength shift gcd index : Z) :
  Rotate.rotate_bytes_outer (S todo) fuel key keylength shift gcd index
  = if index <? gcd then
      value ← rd key index;
      '(key, pos) ← Rotate.rotate_bytes_cycle fuel key keylength shift index
                       index;
      key ← wr key pos value;
      Rotate.rotate_bytes_outer todo fuel key keylength shift gcd
                                (uint (index + 1))
    else Ok key.
Proof. reflexivity. Qed.

Section Key257.
(** A key of 257 bytes and a byte shift of 256, which the [unsigned
    char] parameter cuts to 0. *)

Lemma cycle_257_from_0 (fuel : nat) (key : list Z) :
  length key = 257%nat →
  Rotate.rotate_bytes_cycle fuel key 257 0 256 0 = Timeout.
Proof.
  revert key. induction fuel as [|fuel IH]; intros key Hlen; [done |].
  rewrite rotate_bytes_cycle_S.
  change (uchar (uint (0 + 0))) with 0. cbv beta iota zeta.
  change (0 >=? 257) with false. change (0 =? 256) with false. cbv iota.
  destruct (rd_in_range key 0) as [v ->]; [lia |]. rewrite bind_Ok_l.
  rewrite wr_in_range, bind_Ok_l by lia.
  apply IH. by rewrite length_insert.
Qed.

Lemma cycle_257_from_256 (fuel : nat) (key : list Z) :
  length key = 257%nat →
  Rotate.rotate_bytes_cycle fuel key 257 0 256 256 = Timeout.
Proof.
  intros Hlen. destruct fuel as [|fuel]; [done |].
  rewrite rotate_bytes_cycle_S.
  change (uchar (uint (256 + 0))) with 0. cbv beta iota zeta.
  change (0 >=? 257) with false. change (0 =? 256) with false. cbv iota.
  destruct (rd_in_range key 0) as [v ->]; [lia |]. rewrite bind_Ok_l.
  rewrite wr_in_range, bind_Ok_l by lia.
  apply cycle_257_from_0. by rewrite length_insert.
Qed.

Lemma outer_257 (n : nat) (fuel : nat) (key : list Z) (index : Z) :
  Z.of_nat n + index = 256 → 0 ≤ index →
  length key = 257%nat →
  Rotate.rotate_bytes_outer (S n) fuel key 257 0 257 index = Timeout.
Proof.
  revert key index. induction n as [|n IH]; intros key index Hn Hindex Hlen;
    rewrite rotate_bytes_outer_S.
  - assert (index = 256) as -> by lia.
    change (256 <? 257) with true. cbv iota.
    destruct (rd_in_range key 256) as [v ->]; [lia |]. rewrite bind_Ok_l.
    by rewrite cycle_257_from_256.
  - destruct (Z.ltb_spec index 257) as [_ | ?]; [| lia].
    destruct (rd_in_range key index) as [v ->]; [lia |]. rewrite bind_Ok_l.
    destruct fuel as [|fuel]; [done |].
    rewrite rotate_bytes_cycle_S. unfold uchar, uint.
    rewrite Z.add_0_r, !(Z.mod_small index) by lia.
    cbv beta iota zeta.
    destruct (Z.geb_spec index 257) as [? | _]; [lia |].
    rewrite Z.eqb_refl, bind_Ok_l. cbv beta iota.
    rewrite wr_in_range, bind_Ok_l by lia.
    rewrite Z.mod_small by lia.
    apply IH; [lia | lia | by rewrite length_insert].
Qed.

Lemma rotate_key_257_diverges (fuel : nat) (key : list Z) :
  length key = 257%nat →
  Rotate.encrypt_rotate_key fuel key 257 2048 = Timeout.
Proof.
  intros Hlen. unfold Rotate.encrypt_rotate_key.
  change (uint (257 * 8)) with 2056. cbv beta iota zeta.
  change (2056 =? 0) with false. change (2048 mod 2056) with 2048.
  change (2048 / 8 =? 0) with false. cbv iota.
  unfold Rotate.encrypt_rotate_key_bytes.
  change (uchar (2048 / 8)) with 0. cbv beta iota zeta.
  change (0 <? 257) with true. change (Rotate.compute_gcd 0 257) with (Ok 257).
  cbv iota. rewrite bind_Ok_l. change (Z.to_nat 257) with (S 256).
  by rewrite (outer_257 256 fuel key 0).
Qed.
End Key257.

(** A cycle that ends leaves a key of the same length and a position
    inside it. *)
Lemma rotate_bytes_cycle_range (fuel : nat) (key key' : list Z)
    (keylength shift index pos pos' : Z) :
  0 ≤ pos < Z.of_nat (length key) →
  Rotate.rotate_bytes_cycle fuel key keylength shift index pos
  = Ok (key', pos') →
  length key' = length key ∧ 0 ≤ pos' < Z.of_nat (length key).
Proof.
  revert key pos. induction fuel as [|fuel IH]; intros key pos Hpos H;
    [done |].
  rewrite rotate_bytes_cycle_S in H. cbv beta zeta in H.
  set (next := if _ >=? _ then _ else _) in H.
  destruct (next =? index).
  - by injection H as <- <-.
  - apply bind_Ok in H as (v & Hrd & H).
    apply bind_Ok in H as (key1 & Hwr & H).
    rewrite wr_in_range in Hwr by done. injection Hwr as <-.
    assert (0 ≤ next < Z.of_nat (length key)).
    { unfold rd in Hrd. destruct (Z.ltb_spec next 0); [done |].
      destruct (key !! Z.to_nat next) eqn:E; [| done].
      apply lookup_lt_Some in E. lia. }
    apply IH in H; rewrite length_insert in *; done.
Qed.

Section Key255.
(** A key of 255 bytes and a byte shift of 3: from position 253 the
    8-bit [next] wraps to 0, a position of another cycle. *)

Lemma cycle_255_class_0 (fuel : nat) (key : list Z) (pos : Z) :
  length key = 255%nat → 0 ≤ pos ≤ 252 → pos mod 3 = 0 →
  Rotate.rotate_bytes_cycle fuel key 255 3 1 pos = Timeout.
Proof.
  revert key pos. induction fuel as [|fuel IH]; intros key pos Hlen Hpos Hmod;
    [done |].
  rewrite rotate_bytes_cycle_S. unfold uchar, uint.
  rewrite !(Z.mod_small (pos + 3)) by lia. cbv beta zeta.
  destruct (Z.geb_spec (pos + 3) 255) as [Hge | Hlt].
  - assert (pos = 252) as -> by lia.
    change (((252 + 3 - 255) mod 4294967296) mod 256) with 0.
    change (0 =? 1) with false. cbv iota.
    destruct (rd_in_range key 0) as [v ->]; [lia |]. rewrite bind_Ok_l.
    rewrite wr_in_range, bind_Ok_l by lia.
    apply IH; [by rewrite length_insert | lia | done].
  - destruct (Z.eqb_spec (pos + 3) 1) as [? | _]; [lia |].
    destruct (rd_in_range key (pos + 3)) as [v ->]; [lia |].
    rewrite bind_Ok_l, wr_in_range, bind_Ok_l by lia.
    apply IH; [by rewrite length_insert | | ].
    + assert (pos + 3 ≠ 253 ∧ pos + 3 ≠ 254);
        [split; intros E; rewrite <- Z.mod_add with (b := 1) in Hmod by lia;
         replace (pos + 1 * 3) with (pos + 3) in Hmod by lia;
         rewrite E in Hmod; done | lia].
    + rewrite <- Z.mod_add with (b := 1) in Hmod by lia.
      by replace (pos + 1 * 3) with (pos + 3) in Hmod by lia.
Qed.

Lemma cycle_255_class_1 (fuel : nat) (key : list Z) (pos : Z) :
  length key = 255%nat → 1 ≤ pos ≤ 253 → pos mod 3 = 1 →
  Rotate.rotate_bytes_cycle fuel key 255 3 1 pos = Timeout.
Proof.
  revert key pos. induction fuel as [|fuel IH]; intros key pos Hlen Hpos Hmod;
    [done |].
  rewrite rotate_bytes_cycle_S. unfold uchar, uint.
  rewrite (Z.mod_small (pos + 3)) by lia. cbv beta zeta.
  destruct (decide (pos = 253)) as [-> | Hne].
  - change ((253 + 3) mod 256) with 0.
    change (0 >=? 255) with false. change (0 =? 1) with false. cbv iota.
    destruct (rd_in_range key 0) as [v ->]; [lia |]. rewrite bind_Ok_l.
    rewrite wr_in_range, bind_Ok_l by lia.
    apply cycle_255_class_0; [by rewrite length_insert | lia | done].
  - assert (Hmod' : (pos + 3) mod 3 = 1).
    { rewrite <- Z.mod_add with (b := 1) in Hmod by lia.
      by replace (pos + 1 * 3) with (pos + 3) in Hmod by lia. }
    assert (pos + 3 ≤ 253).
    { assert (pos + 3 ≠ 254 ∧ pos + 3 ≠ 255);
        [split; intros E; rewrite E in Hmod'; done | lia]. }
    rewrite (Z.mod_small (pos + 3)) by lia.
    destruct (Z.geb_spec (pos + 3) 255) as [? | _]; [lia |].
    destruct (Z.eqb_spec (pos + 3) 1) as [? | _]; [lia |].
    destruct (rd_in_range key (pos + 3)) as [v ->]; [lia |].
    rewrite bind_Ok_l, wr_in_range, bind_Ok_l by lia.
    apply IH; [by rewrite length_insert | lia | done].
Qed.

Lemma cycle_255_no_fault (fuel : nat) (key : list Z) (index pos : Z) :
  length key = 255%nat → 0 ≤ pos < 255 →
  Rotate.rotate_bytes_cycle fuel key 255 3 index pos ≠ Fault.
Proof.
  revert key pos. induction fuel as [|fuel IH]; intros key pos Hlen Hpos;
    [done |].
  rewrite rotate_bytes_cycle_S. cbv beta zeta.
  set (next := if _ >=? _ then _ else _).
  assert (Hnext : 0 ≤ next < 255).
  { unfold next, uchar, uint.
    destruct (Z.geb_spec (((pos + 3) mod 4294967296) mod 256) 255);
      Z.div_mod_to_equations; lia. }
  destruct (next =? index); [done |].
  destruct (rd_in_range key next) as [v ->]; [lia |].
  rewrite bind_Ok_l, wr_in_range, bind_Ok_l by lia.
  apply IH; [by rewrite length_insert | done].
Qed.

Lemma rotate_key_255_diverges (fuel : nat) (key : list Z) :
  length key = 255%nat →
  Rotate.encrypt_rotate_key fuel key 255 24 = Timeout.
Proof.
  intros Hlen. unfold Rotate.encrypt_rotate_key.
  change (uint (255 * 8)) with 2040. cbv beta iota zeta.
  change (2040 =? 0) with false. change (24 mod 2040) with 24.
  change (24 / 8 =? 0) with false. cbv iota.
  unfold Rotate.encrypt_rotate_key_bytes.
  change (uchar (24 / 8)) with 3. cbv beta iota zeta.
  change (3 <? 255) with true. change (Rotate.compute_gcd 3 255) with (Ok 3).
  cbv iota. rewrite bind_Ok_l. change (Z.to_nat 3) with 3%nat.
  rewrite rotate_bytes_outer_S. change (0 <? 3) with true. cbv iota.
  destruct (rd_in_range key 0) as [v0 ->]; [lia |]. rewrite bind_Ok_l.
  destruct (Rotate.rotate_bytes_cycle fuel key 255 3 0 0)
    as [[key1 pos1] | |] eqn:Hcycle.
  - apply rotate_bytes_cycle_range in Hcycle as [Hlen1 Hpos1]; [| lia].
    rewrite bind_Ok_l. cbv beta iota.
    rewrite wr_in_range, bind_Ok_l by lia.
    change (uint (0 + 1)) with 1.
    rewrite rotate_bytes_outer_S. change (1 <? 3) with true. cbv iota.
    destruct (rd_in_range (<[Z.to_nat pos1 := v0]> key1) 1) as [v1 ->];
      [rewrite length_insert; lia |].
    rewrite bind_Ok_l.
    rewrite cycle_255_class_1; [done | | lia | done].
    rewrite length_insert. lia.
  - by apply cycle_255_no_fault in Hcycle.
  - done.
Qed.
End Key255.

(** ** The rotation engine on a key of 257 bytes *)

(** C10 at a key of 257 bytes and the shift 2048.  The shift is already
    reduced modulo [8 * 257]; its byte part is 256, which does not fit
    the [unsigned char] parameter of [encrypt_rotate_key_bytes] and
    arrives there as 0; the call never returns, whatever the fuel. *)
Theorem rotate_key_not_total (fuel : nat) :
  2048 mod uint (257 * 8) = 2048 ∧
  2048 / 8 = 256 ∧
  uchar 256 = 0 ∧
  Rotate.encrypt_rotate_key fuel key257 257 2048 = Timeout.
Proof.
  split_and!; [done | done | done |]. by apply rotate_key_257_diverges.
Qed.

(** C2 at a key of 257 bytes, [a = 4] and [b = 4].  Two rotations by 4
    bits move the last byte of the key one place to the left; the single
    rotation by [(4 + 4) mod (8 * 257)] bits goes through the byte
    rotation, whose 8-bit [next] wraps at 256, and leaves the key as it
    was. *)
Theorem rotate_composition_fails (fuel : nat) :
  (∃ k, Rotate.encrypt_rotate_key (300 + fuel) key257 257 4 = Ok k ∧
        Rotate.encrypt_rotate_key (300 + fuel) k 257 4
        = Ok (replicate 255 0 ++ [1; 0])) ∧
  Rotate.encrypt_rotate_key (300 + fuel) key257 257 ((4 + 4) mod (8 * 257))
  = Ok key257 ∧
  replicate 255 0 ++ [1; 0] ≠ key257.
Proof.
  split_and!.
  - eexists. split.
    + eapply le_result_Ok;
        [apply (encrypt_rotate_key_mono 300); lia | vm_compute; reflexivity].
    + eapply le_result_Ok;
        [apply (encrypt_rotate_key_mono 300); lia | vm_compute; reflexivity].
  - eapply le_result_Ok;
      [apply (encrypt_rotate_key_mono 300); lia | vm_compute; reflexivity].
  - intros E. apply (f_equal (λ l, l !! 255%nat)) in E. vm_compute in E.
    discriminate.
Qed.

(** ** Parallel mode against sequential mode *)

(** C1 at the key of 257 bytes, an input of 2312 zero bytes (eight full
    blocks and 256 bytes of the ninth) and a pool of one worker.  Both
    modes end; the last byte of the output is the byte 255 of the key
    for block 8, which is 1 in sequential mode, where the live key has
    been rotated eight times by one bit, and 0 in parallel mode, where
    the worker rotates a copy of the key by 8 bits in one call. *)
Theorem parallel_differs_from_sequential (fuel : nat) (sched : list nat) :
  ∃ out_s out_p log,
    Coordinator.encrypt_execute_sequential (300 + fuel) key257 257 (zeros 2312)
    = Ok out_s ∧
    Coordinator.encrypt_execute_parallel (300 + fuel) sched key257 257 1
                                         (zeros 2312)
    = Ok (out_p, log) ∧
    length out_s = 2312%nat ∧ length out_p = 2312%nat ∧
    out_s !! 2311%nat = Some 1 ∧ out_p !! 2311%nat = Some 0.
Proof.
  eexists _, _, _. split_and!.
  - eapply le_result_Ok;
      [apply (encrypt_execute_sequential_mono 300); lia
      | vm_compute; reflexivity].
  - eapply le_result_Ok;
      [apply (encrypt_execute_parallel_mono 300); lia
      | vm_compute; reflexivity].
  - vm_compute. reflexivity.
  - vm_compute. reflexivity.
  - vm_compute. reflexivity.
  - vm_compute. reflexivity.
Qed.

(** C6 at the same key and input, encrypting in sequential mode and
    running the program again, on the output, with a pool of one worker:
    the last byte comes back as 1, and was 0. *)
Theorem reencryption_differs_from_input (fuel : nat) (sched : list nat) :
  ∃ cipher back log,
    Coordinator.encrypt_execute_sequential (300 + fuel) key257 257 (zeros 2312)
    = Ok cipher ∧
    Coordinator.encrypt_execute_parallel (300 + fuel) sched key257 257 1 cipher
    = Ok (back, log) ∧
    back !! 2311%nat = Some 1 ∧ zeros 2312 !! 2311%nat = Some 0.
Proof.
  eexists _, _, _. split_and!.
  - eapply le_result_Ok;
      [apply (encrypt_execute_sequential_mono 300); lia
      | vm_compute; reflexivity].
  - eapply le_result_Ok;
      [apply (encrypt_execute_parallel_mono 300); lia
      | vm_compute; reflexivity].
  - vm_compute. reflexivity.
  - vm_compute. reflexivity.
Qed.

(** ** A run that never ends *)

(** A round that ends without [quit], at some fuel, is one turn of the
    loop at any larger fuel. *)
Lemma parallel_loop_step (rounds fuel0 fuel : nat) (sched sched1 : list nat)
    (key : list Z) (keylength threadcount : Z) (m m1 : machine)
    (index index1 : Z) (r1 : round) (log : list round) :
  Coordinator.parallel_round fuel0 sched key keylength threadcount m index
  = Ok (m1, index1, sched1, r1, false) →
  (fuel0 ≤ fuel)%nat →
  Coordinator.parallel_loop (S rounds) fuel sched key keylength threadcount
                            m index log
  = Coordinator.parallel_loop rounds fuel sched1 key keylength threadcount
                              m1 index1 (log ++ [r1]).
Proof.
  intros Hround Hle. simpl.
  by rewrite (le_result_Ok _ _ _
                (parallel_round_mono fuel0 fuel _ _ _ _ _ _ Hle) Hround).
Qed.

(** A round whose only block has the index 24, under a key of 255
    bytes, never ends: the worker's rotation does not return. *)
Lemma parallel_round_stuck (fuel : nat) (sched : list nat) (key : list Z)
    (m : machine) (m1 : machine) (info : nat) (b : Info.t) :
  length key = 255%nat →
  (∀ fuel, Coordinator.submit_loop 1 fuel m 255 1 24 0 []
           = Ok (m1, 25, 1, false, [1])) →
  process_queue m1 = Some info →
  heap m1 !! info = Some b →
  Info.index b = 24 →
  Coordinator.parallel_round fuel sched key 255 1 m 24 = Timeout.
Proof.
  intros Hkey Hsub Hpq Hinfo Hindex. unfold Coordinator.parallel_round.
  change (Z.to_nat 1) with 1%nat. rewrite Hsub, bind_Ok_l.
  cbv beta iota. change (Z.to_nat 1) with 1%nat.
  unfold Coordinator.take_blocks, Worker.pop. rewrite Hpq.
  unfold load. rewrite Hinfo. rewrite !bind_Ok_l. cbv beta iota.
  simpl length.
  unfold Coordinator.complete, Coordinator.pick. simpl length.
  replace (hd 0 sched mod 1)%nat with 0%nat by (symmetry; apply Nat.mod_1_r).
  simpl lookup. cbv beta iota.
  unfold Worker.transform, load. simpl heap. rewrite Hinfo, bind_Ok_l, Hindex.
  by rewrite rotate_key_255_diverges.
Qed.

Lemma parallel_loop_255_stuck (rounds fuel : nat) (sched : list nat) :
  (300 ≤ fuel)%nat →
  Coordinator.parallel_loop (25 + rounds) fuel sched key255 255 1
                            (Coordinator.start (zeros 6121)) 0 []
  = Timeout.
Proof.
  intros Hfuel. cbn [Nat.add].
  do 24 (erewrite (parallel_loop_step _ 300);
         [| vm_compute; reflexivity | exact Hfuel]).
  cbn [Coordinator.parallel_loop].
  erewrite parallel_round_stuck; [done | done | | | | ].
  - intros fuel'. vm_compute. reflexivity.
  - vm_compute. reflexivity.
  - vm_compute. reflexivity.
  - reflexivity.
Qed.

(** C7 at a key of 255 bytes, an input of 6121 bytes (24 full blocks and
    one byte) and a pool of one worker.  The blocks 0 to 23 are written;
    the rotation for block 24 has the byte shift 3 and never returns, so
    whatever the fuel and the schedule the run does not end, and the
    last byte that was read is never written. *)
Theorem parallel_run_never_ends (fuel : nat) (sched : list nat) :
  Coordinator.encrypt_execute_parallel fuel sched key255 255 1 (zeros 6121)
  = Timeout ∧
  ∃ out, Coordinator.encrypt_execute_sequential (300 + fuel) key255 255
                                                (zeros 6121) = Ok out ∧
         length out = length (zeros 6121).
Proof.
  split.
  2:{ eexists. split.
      - eapply le_result_Ok;
          [apply (encrypt_execute_sequential_mono 300); lia
          | vm_compute; reflexivity].
      - vm_compute. reflexivity. }
  eapply le_result_Timeout;
    [apply (encrypt_execute_parallel_mono fuel (300 + fuel)); lia |].
  unfold Coordinator.encrypt_execute_parallel.
  change ((0 <? 255) && (0 <? 1)) with true. cbv iota.
  change (300 + fuel)%nat with (25 + (275 + fuel))%nat at 1.
  rewrite parallel_loop_255_stuck by lia. done.
Qed.

(** ** Batches *)

(** C8 at blocks of one byte: a pool of four workers and an input of ten
    bytes.  When the workers finish in submission order the rounds are
    the batches of 4, 4 and 2 blocks, all of full length.  When, in the
    last batch, block 9 is inserted before block 8, the two descriptors
    point at each other and the drain goes on into a descriptor it has
    already released. *)
Theorem batches_depend_on_completion_order (fuel : nat) :
  Coordinator.encrypt_execute_parallel (20 + fuel) [] [1] 1 4 (zeros 10)
  = Ok ([1; 2; 4; 8; 16; 32; 64; 128; 1; 2],
        [Round 4 [1; 1; 1; 1] 4 false;
         Round 4 [1; 1; 1; 1] 4 false;
         Round 2 [1; 1] 2 true]) ∧
  Coordinator.encrypt_execute_parallel (20 + fuel)
    [0; 0; 0; 0; 0; 0; 0; 0; 1]%nat [1] 1 4 (zeros 10)
  = Fault.
Proof.
  split.
  - eapply le_result_Ok;
      [apply (encrypt_execute_parallel_mono 20); lia | vm_compute; reflexivity].
  - eapply le_result_Fault;
      [apply (encrypt_execute_parallel_mono 20); lia | vm_compute; reflexivity].
Qed.

(** ** The sorted insertion, away from the head *)

Lemma index_at_data (h h' : gmap nat Info.t) (x : nat) :
  data_of h' x = data_of h x → index_at h' x = index_at h x.
Proof.
  unfold data_of, index_at. intros H.
  destruct (h' !! x), (h !! x); simpl in *; congruence.
Qed.

Lemma indices_data (h h' : gmap nat Info.t) (l : list nat) :
  (∀ x, data_of h' x = data_of h x) → indices h' l = indices h l.
Proof.
  intros H. unfold indices. apply list_fmap_ext. intros _ x _.
  by apply index_at_data.
Qed.


(** The search loop goes past the descriptors whose index is not above
    the new one and stops at the first that is. *)
Lemma find_slot_spec (h : gmap nat Info.t) (index : Z) (l : list nat) :
  ∀ (current previous : option nat) (fuel : nat),
  is_seg h current None l → (length l < fuel)%nat →
  ∃ l1 l2 current',
    l = l1 ++ l2 ∧
    is_seg h current current' l1 ∧ is_seg h current' None l2 ∧
    Worker.find_slot fuel h index current previous
    = Ok (current', last_or previous l1) ∧
    Forall (λ x, ¬ index < index_at h x) l1 ∧
    (∀ x, head l2 = Some x → index < index_at h x).
Proof.
  induction l as [|x l IH]; intros current previous fuel Hseg Hfuel;
    (destruct fuel as [|fuel]; [simpl in Hfuel; lia |]).
  - simpl in Hseg. subst current. exists [], [], None.
    split_and!; [done | done | done | done | constructor | done].
  - destruct Hseg as (-> & b & Hb & Hrest). simpl. unfold load. rewrite Hb.
    simpl. destruct (Z.ltb_spec index (Info.index b)) as [Hlt | Hge].
    + exists [], (x :: l), (Some x).
      split_and!; [done | done | | done | constructor |].
      * split; [done |]. eauto.
      * intros y [= <-]. unfold index_at. by rewrite Hb.
    + destruct (IH (Info.next b) (Some x) fuel Hrest) as
        (l1 & l2 & current' & -> & Hl1 & Hl2 & Hfind & Hall & Hhead);
        [simpl in Hfuel; lia |].
      exists (x :: l1), l2, current'.
      split_and!; [done | | done | | |done].
      * split; [done |]. eauto.
      * rewrite Hfind. f_equal. f_equal. unfold last_or.
        destruct l1 as [|y l1]; [done |]. rewrite last_cons_cons.
        destruct (last (y :: l1)) eqn:E; [done |].
        by apply last_None in E.
      * constructor; [| done]. unfold index_at. rewrite Hb. simpl. lia.
Qed.

(** The insertion of a block that does not go before the head: the queue
    stays a list, the new descriptor sits between the descriptors below
    it and those above it, and the block indices stay strictly
    ascending. *)
Lemma insert_sorted_spec (m : machine) (l : list nat) (info : nat)
    (ib : Info.t) (fuel : nat) :
  is_queue (heap m) (completion_queue m) l →
  NoDup (info :: l) →
  heap m !! info = Some ib →
  StronglySorted Z.lt (indices (heap m) l) →
  Info.index ib ∉ indices (heap m) l →
  (∀ x, head l = Some x → index_at (heap m) x < Info.index ib) →
  (length l < fuel)%nat →
  ∃ m' l1 l2,
    Worker.insert fuel m info = Ok m' ∧
    l = l1 ++ l2 ∧
    is_queue (heap m') (completion_queue m') (l1 ++ info :: l2) ∧
    StronglySorted Z.lt (indices (heap m') (l1 ++ info :: l2)) ∧
    (∀ x, data_of (heap m') x = data_of (heap m) x) ∧
    brk m' = brk m ∧ process_queue m' = process_queue m ∧
    stdin m' = stdin m ∧ stdout m' = stdout m.
Proof.
  intros Hq Hnd Hib Hsorted Hfresh Hhead Hfuel.
  apply NoDup_cons in Hnd as [Hinfo Hnd].
  destruct (find_slot_spec (heap m) (Info.index ib) l (completion_queue m)
              (completion_queue m) fuel Hq Hfuel)
    as (l1 & l2 & current' & -> & Hl1 & Hl2 & Hfind & Hall & Hnext).
  unfold Worker.insert, load. rewrite Hib, bind_Ok_l, Hfind, bind_Ok_l.
  cbv beta iota.
  apply not_elem_of_app in Hinfo as [Hinfo1 Hinfo2].
  assert (Hsorted' : ∀ h', (∀ x, data_of h' x = data_of (heap m) x) →
            index_at h' info = Info.index ib →
            StronglySorted Z.lt (indices h' (l1 ++ info :: l2))).
  { intros h' Hdata Hidx. unfold indices in *.
    rewrite fmap_app, fmap_cons, Hidx.
    rewrite (list_fmap_ext (index_at h') (index_at (heap m)) l1)
      by (intros; by apply index_at_data).
    rewrite (list_fmap_ext (index_at h') (index_at (heap m)) l2)
      by (intros; by apply index_at_data).
    rewrite fmap_app in Hsorted, Hfresh.
    apply StronglySorted_app in Hsorted as (Hcross & Hs1 & Hs2).
    apply not_elem_of_app in Hfresh as [Hf1 Hf2].
    apply StronglySorted_app. split_and!; [| done |].
    - intros a c Ha Hc. apply elem_of_cons in Hc as [-> | Hc]; [| by apply Hcross].
      apply list_elem_of_fmap in Ha as (x & -> & Hx).
      rewrite Forall_forall in Hall. specialize (Hall x Hx).
      assert (index_at (heap m) x ≠ Info.index ib); [| lia].
      intros E. apply Hf1. rewrite <- E. by apply list_elem_of_fmap_2.
    - apply StronglySorted_cons. split; [| done].
      destruct l2 as [|y l2]; [constructor |].
      specialize (Hnext y eq_refl). rewrite fmap_cons in *.
      apply StronglySorted_cons in Hs2 as [Hy _].
      constructor; [done |].
      eapply Forall_impl; [exact Hy |]. simpl. intros; lia. }
  destruct (completion_queue m) as [c|] eqn:Hc.
  - (* a queue that is not empty *)
    destruct l1 as [|x l1' _] using rev_ind.
    { exfalso. simpl in Hl1. subst current'. destruct l2 as [|y l2].
      - simpl in Hl2. done.
      - destruct Hl2 as ([= <-] & _).
        specialize (Hhead _ eq_refl). specialize (Hnext _ eq_refl). lia. }
    unfold last_or. rewrite last_snoc.
    apply is_seg_snoc in Hl1 as (Hl1 & pb & Hp & Hpn).
    unfold load. rewrite Hp, bind_Ok_l, bind_Ok_l. simpl heap.
    apply NoDup_app in Hnd as (Hnd1 & Hdisj & Hnd2).
    apply NoDup_app in Hnd1 as (Hnd1 & Hdisj1 & _).
    apply not_elem_of_app in Hinfo1 as [Hinfo1 Hinfox].
    rewrite list_elem_of_singleton in Hinfox.
    rewrite lookup_insert_ne, Hib, bind_Ok_l by done.
    eexists _, (l1' ++ [x]), l2. split; [done |]. split; [done |].
    simpl.
    assert (Hdata : ∀ y,
      data_of (<[info := Info.set_next ib current']>
                 (<[x := Info.set_next pb (Some info)]> (heap m))) y
      = data_of (heap m) y).
    { intros y. unfold data_of.
      destruct (decide (y = info)) as [-> | Hy];
        [by rewrite lookup_insert_eq, Hib |].
      rewrite lookup_insert_ne by done.
      destruct (decide (y = x)) as [-> | Hy'];
        [by rewrite lookup_insert_eq, Hp |].
      by rewrite lookup_insert_ne. }
    split_and!; try done.
    + unfold is_queue. rewrite <- (assoc_L (++)), Hc.
      apply is_seg_app with (q := Some x).
      * apply is_seg_insert_ne; [done |]. apply is_seg_insert_ne; [| done].
        intros Hin. apply (Hdisj1 x Hin). by apply list_elem_of_singleton.
      * split; [done |]. eexists.
        split; [by rewrite lookup_insert_ne, lookup_insert_eq by done |].
        simpl. split; [done |]. eexists.
        split; [by rewrite lookup_insert_eq |]. simpl.
        apply is_seg_insert_ne; [done |]. apply is_seg_insert_ne; [| by subst].
        intros Hin. apply (Hdisj x); [| done].
        apply elem_of_app. right. by apply list_elem_of_singleton.
    + apply Hsorted'; [done |]. unfold index_at.
      by rewrite lookup_insert_eq.
  - (* the empty queue *)
    unfold is_queue in Hq. destruct l1 as [|x l1]; [| by destruct Hq].
    destruct l2 as [|y l2]; [| by destruct Hq].
    simpl in Hl1. subst current'.
    rewrite bind_Ok_l. simpl heap. rewrite Hib, bind_Ok_l.
    eexists _, [], []. split; [done |]. split; [done |]. simpl.
    assert (Hdata : ∀ y,
      data_of (<[info := Info.set_next ib None]> (heap m)) y
      = data_of (heap m) y).
    { intros y. unfold data_of.
      destruct (decide (y = info)) as [-> | Hy];
        [by rewrite lookup_insert_eq, Hib |].
      by rewrite lookup_insert_ne. }
    split_and!; try done.
    + split; [done |]. eexists. split; [by rewrite lookup_insert_eq | done].
    + apply (Hsorted' _ Hdata). unfold index_at. by rewrite lookup_insert_eq.
Qed.

(** ** The byte rotation on short keys *)

Lemma compute_gcd_rec_spec (fuel : nat) (a b : Z) :
  0 ≤ a → 0 ≤ b → (Z.to_nat b < fuel)%nat →
  Rotate.compute_gcd_rec fuel a b = Ok (Z.gcd a b).
Proof.
  revert a b. induction fuel as [|fuel IH]; intros a b Ha Hb Hfuel; [lia |].
  simpl. destruct (Z.eqb_spec b 0) as [-> | Hnz].
  - by rewrite Z.gcd_0_r, Z.abs_eq.
  - assert (0 ≤ a mod b < b) by (apply Z.mod_pos_bound; lia).
    rewrite IH by lia. f_equal.
    rewrite Z.gcd_comm, Z.gcd_mod by lia. apply Z.gcd_comm.
Qed.

Lemma compute_gcd_spec (a b : Z) :
  0 ≤ a → 0 ≤ b → Rotate.compute_gcd a b = Ok (Z.gcd a b).
Proof.
  intros Ha Hb. unfold Rotate.compute_gcd.
  apply compute_gcd_rec_spec; lia.
Qed.

Section Juggling.
Variables (L s : Z).
Hypothesis Hs : 0 < s < L.

Let g : Z := Z.gcd s L.
Let t : Z := L / g.
Local Abbreviation orb := (orbit L s).

Lemma juggling_g_pos : 0 < g.
Proof.
  unfold g. pose proof (Z.gcd_nonneg s L).
  assert (Z.gcd s L ≠ 0); [| lia].
  intros E. apply Z.gcd_eq_0_l in E. lia.
Qed.

Lemma juggling_L : L = t * g.
Proof.
  unfold t. destruct (Z.gcd_divide_r s L) as [c Hc]. fold g in Hc.
  pose proof juggling_g_pos. rewrite Hc at 1 2.
  by rewrite Z.div_mul by lia.
Qed.

Lemma juggling_t_pos : 0 < t.
Proof.
  pose proof juggling_g_pos. pose proof juggling_L. nia.
Qed.

Lemma juggling_g_le : g ≤ s.
Proof.
  unfold g. apply Z.divide_pos_le; [lia | apply Z.gcd_divide_l].
Qed.

(** A multiple of the shift is a multiple of the length exactly when the
    factor is a multiple of the cycle length. *)
Lemma juggling_multiple (d : Z) : (L | d * s) ↔ (t | d).
Proof.
  pose proof juggling_g_pos as Hg. pose proof juggling_L as HLt.
  destruct (Z.gcd_divide_l s L) as [s' Hs']. fold g in Hs'.
  assert (Hcop : Z.gcd t s' = 1).
  { unfold t. replace s' with (s / g) by (rewrite Hs', Z.div_mul; lia).
    rewrite Z.gcd_comm. apply Z.gcd_div_gcd; [lia | done]. }
  split.
  - intros [c Hc]. apply Z.gauss with (m := s'); [| done].
    exists c. nia.
  - intros [c Hc]. exists (c * s'). nia.
Qed.

Lemma orbit_range (index j : Z) : 0 ≤ orb index j < L.
Proof. unfold orbit. apply Z.mod_pos_bound. lia. Qed.

Lemma orbit_0 (index : Z) : 0 ≤ index < L → orb index 0 = index.
Proof. intros H. unfold orbit. rewrite Z.add_0_r. by apply Z.mod_small. Qed.

Lemma orbit_succ (index j : Z) :
  orb index (j + 1) = (orb index j + s) mod L.
Proof.
  unfold orbit. rewrite Zplus_mod_idemp_l. f_equal. lia.
Qed.

Lemma orbit_eq (index i j : Z) :
  orb index i = orb index j ↔ (t | j - i).
Proof.
  rewrite <- juggling_multiple. unfold orbit. split.
  - intros E. apply Z.mod_divide; [lia |].
    replace ((j - i) * s) with ((index + j * s) - (index + i * s)) by lia.
    rewrite Zminus_mod, E, Z.sub_diag. apply Z.mod_0_l. lia.
  - intros [c Hc].
    replace (index + j * s) with (index + i * s + c * L) by lia.
    symmetry. apply Z.mod_add. lia.
Qed.

Lemma orbit_distinct (index i j : Z) :
  0 ≤ i < j → j < t → orb index i ≠ orb index j.
Proof.
  intros Hi Hj E. apply orbit_eq in E as [c Hc].
  pose proof juggling_t_pos as Ht. clearbody t.
  assert (c ≤ 0 ∨ 1 ≤ c) as [Hc0 | Hc1] by lia; nia.
Qed.

Lemma orbit_period (index : Z) :
  0 ≤ index < L → orb index t = index.
Proof.
  intros H. rewrite <- (orbit_0 index H) at 2. apply orbit_eq.
  exists (-1). lia.
Qed.

Lemma orbit_class (index j : Z) : orb index j mod g = index mod g.
Proof.
  pose proof juggling_g_pos as Hg. unfold orbit.
  destruct (Z.gcd_divide_l s L) as [s' Hs']. fold g in Hs'.
  destruct (Z.gcd_divide_r s L) as [L' HL']. fold g in HL'.
  rewrite (Z.mod_eq (index + j * s) L) by lia.
  replace (index + j * s - L * ((index + j * s) / L))
    with (index + (j * s' - L' * ((index + j * s) / L)) * g) by nia.
  apply Z.mod_add. lia.
Qed.

(** Every position of the class of [index] is on its cycle. *)
Lemma orbit_cover (index p : Z) :
  0 ≤ p < L → p mod g = index mod g →
  ∃ j, 0 ≤ j < t ∧ orb index j = p.
Proof.
  intros Hp Hclass. pose proof juggling_g_pos as Hg.
  pose proof juggling_t_pos as Ht. pose proof juggling_L as HLt.
  destruct (Z.gcd_bezout s L g eq_refl) as (u & v & Huv).
  set (m := (p - index) / g).
  assert (Hm : p - index = m * g).
  { unfold m. rewrite Z.mul_comm. apply Z_div_exact_full_2; [lia |].
    rewrite Zminus_mod, Hclass, Z.sub_diag. apply Z.mod_0_l. lia. }
  exists ((m * u) mod t). split; [apply Z.mod_pos_bound; lia |].
  rewrite <- (Z.mod_small p L) by lia. unfold orbit.
  apply Z.cong_iff_ex. rewrite (Z.mod_eq (m * u) t) by lia.
  destruct (Z.gcd_divide_l s L) as [s' Hs']. fold g in Hs'.
  set (q := (m * u) / t).
  exists (- (m * v) - q * s').
  clearbody q m t g.
  assert (E1 : t * s = s' * L) by (rewrite HLt, Hs'; ring).
  assert (E2 : m * g = m * u * s + m * v * L) by (rewrite <- Huv; ring).
  replace ((m * u - t * q) * s) with (m * u * s - q * (t * s)) by ring.
  rewrite E1. lia.
Qed.


Hypothesis HL : L ≤ 128.

(** With at most 128 bytes the 8-bit [next] does not wrap. *)
Lemma juggling_next (pos : Z) :
  0 ≤ pos < L →
  (if uchar (uint (pos + s)) >=? L
   then uchar (uint (uchar (uint (pos + s)) - L))
   else uchar (uint (pos + s)))
  = (pos + s) mod L.
Proof.
  intros Hpos. unfold uchar, uint.
  rewrite (Z.mod_small (pos + s) 4294967296) by lia.
  rewrite (Z.mod_small (pos + s) 256) by lia.
  destruct (Z.geb_spec (pos + s) L).
  - rewrite (Z.mod_small (pos + s - L) 4294967296) by lia.
    rewrite (Z.mod_small (pos + s - L) 256) by lia.
    apply Z.mod_unique with (q := 1); lia.
  - symmetry. apply Z.mod_small. lia.
Qed.

Variable index : Z.
Hypothesis Hindex : 0 ≤ index < g.
Variable key0 : list Z.
Hypothesis Hkey0 : length key0 = Z.to_nat L.

(** The walk along the cycle, from position [j] of the cycle on. *)
Lemma rotate_bytes_cycle_spec (n : nat) :
  ∀ (j : Z) (key : list Z) (fuel : nat),
  0 ≤ j → j + Z.of_nat n = t - 1 → (n < fuel)%nat →
  length key = Z.to_nat L →
  (∀ i, j < i < t →
     key !! Z.to_nat (orb index i) = key0 !! Z.to_nat (orb index i)) →
  ∃ key',
    Rotate.rotate_bytes_cycle fuel key L s index (orb index j)
    = Ok (key', orb index (t - 1)) ∧
    length key' = Z.to_nat L ∧
    (∀ i, j ≤ i < t - 1 →
       key' !! Z.to_nat (orb index i)
       = key0 !! Z.to_nat (orb index (i + 1))) ∧
    (∀ p, 0 ≤ p < L → (∀ i, j ≤ i < t - 1 → p ≠ orb index i) →
       key' !! Z.to_nat p = key !! Z.to_nat p).
Proof.
  pose proof juggling_g_pos as Hg. pose proof juggling_L as HLt.
  pose proof juggling_g_le as Hgs.
  assert (HindexL : 0 ≤ index < L) by lia.
  induction n as [|n IH]; intros j key fuel Hj Hn Hfuel Hlen Hkey;
    (destruct fuel as [|fuel]; [lia |]);
    rewrite rotate_bytes_cycle_S; cbv zeta;
    rewrite juggling_next by apply orbit_range.
  - assert (j = t - 1) as -> by lia.
    rewrite <- orbit_succ. replace (t - 1 + 1) with t by lia.
    rewrite orbit_period by done. rewrite Z.eqb_refl.
    exists key. split_and!; [done | done | intros; lia | done].
  - rewrite <- orbit_succ.
    assert (Hne : orb index (j + 1) ≠ index).
    { rewrite <- (orbit_0 index HindexL) at 2.
      intros E. symmetry in E. revert E. apply orbit_distinct; lia. }
    destruct (Z.eqb_spec (orb index (j + 1)) index) as [? | _]; [done |].
    pose proof (orbit_range index (j + 1)) as Hr1.
    pose proof (orbit_range index j) as Hr0.
    destruct (rd_in_range key (orb index (j + 1))) as [v Hv]; [lia |].
    rewrite Hv, bind_Ok_l, wr_in_range, bind_Ok_l by lia.
    assert (Hv' : key !! Z.to_nat (orb index (j + 1)) = Some v).
    { unfold rd in Hv. destruct (orb index (j + 1) <? 0); [done |].
      by destruct (key !! Z.to_nat (orb index (j + 1))) as [x|];
        [injection Hv as -> |]. }
    destruct (IH (j + 1) (<[Z.to_nat (orb index j) := v]> key) fuel)
      as (key' & Hcycle & Hlen' & Hmoved & Hother);
      [lia | lia | lia | by rewrite length_insert | |].
    { intros i Hi. rewrite list_lookup_insert_ne; [apply Hkey; lia |].
      intros E. apply Z2Nat.inj in E;
        [| apply orbit_range; done | apply orbit_range; done].
      revert E. apply orbit_distinct; lia. }
    exists key'. split_and!; [done | done | |].
    + intros i Hi. destruct (decide (i = j)) as [-> | Hij].
      * rewrite Hother; [| done |].
        -- rewrite list_lookup_insert_eq by lia.
           rewrite <- Hv'. apply Hkey. lia.
        -- intros i Hi'. apply orbit_distinct; lia.
      * apply Hmoved. lia.
    + intros p Hp Hnot. rewrite Hother; [| done |].
      * apply list_lookup_insert_ne. intros E.
        apply Z2Nat.inj in E; [| lia | lia]. apply (Hnot j); [lia | done].
      * intros i Hi. apply Hnot. lia.
Qed.


(** One turn of the outer loop: the positions of the class of [index]
    take the bytes [s] places further on, the others keep theirs. *)
Lemma rotate_bytes_outer_step (fuel : nat) :
  (Z.to_nat t ≤ fuel)%nat →
  ∃ key',
    length key' = Z.to_nat L ∧
    (∀ p, 0 ≤ p < L →
       key' !! Z.to_nat p
       = if decide (p mod g = index)
         then key0 !! Z.to_nat ((p + s) mod L)
         else key0 !! Z.to_nat p) ∧
    ∀ todo,
      Rotate.rotate_bytes_outer (S todo) fuel key0 L s g index
      = Rotate.rotate_bytes_outer todo fuel key' L s g (index + 1).
Proof.
  intros Hfuel.
  pose proof juggling_g_pos as Hg. pose proof juggling_L as HLt.
  pose proof juggling_g_le as Hgs. pose proof juggling_t_pos as Ht.
  assert (HindexL : 0 ≤ index < L) by lia.
  destruct (rd_in_range key0 index) as [value Hvalue]; [lia |].
  assert (Hvalue' : key0 !! Z.to_nat index = Some value).
  { unfold rd in Hvalue. destruct (index <? 0); [done |].
    by destruct (key0 !! Z.to_nat index) as [x|]; [injection Hvalue as -> |]. }
  destruct (rotate_bytes_cycle_spec (Z.to_nat (t - 1)) 0 key0 fuel)
    as (key1 & Hcycle & Hlen1 & Hmoved & Hother); [lia | lia | lia | done | done |].
  rewrite (orbit_0 index HindexL) in Hcycle.
  pose proof (orbit_range index (t - 1)) as Hlast.
  exists (<[Z.to_nat (orb index (t - 1)) := value]> key1).
  split; [by rewrite length_insert |]. split.
  - intros p Hp. destruct (decide (p mod g = index)) as [Hclass | Hclass].
    + destruct (orbit_cover index p Hp) as (j & Hj & <-).
      { rewrite Hclass. symmetry. apply Z.mod_small. lia. }
      rewrite <- orbit_succ.
      destruct (decide (j = t - 1)) as [-> | Hjt].
      * rewrite list_lookup_insert_eq by lia.
        replace (t - 1 + 1) with t by lia.
        by rewrite orbit_period.
      * rewrite list_lookup_insert_ne.
        -- apply Hmoved. lia.
        -- intros E. apply Z2Nat.inj in E; [| lia | apply orbit_range].
           symmetry in E. revert E. apply orbit_distinct; lia.
    + assert (Hnot : ∀ i, p ≠ orb index i).
      { intros i E. apply Hclass. rewrite E, orbit_class.
        apply Z.mod_small. lia. }
      rewrite list_lookup_insert_ne.
      * apply Hother; [done |]. intros i _. apply Hnot.
      * intros E. apply Z2Nat.inj in E; [| lia | lia]. by apply (Hnot (t - 1)).
  - intros todo. rewrite rotate_bytes_outer_S.
    destruct (Z.ltb_spec index g) as [_ | ?]; [| lia].
    rewrite Hvalue, bind_Ok_l, Hcycle, bind_Ok_l. cbv beta iota.
    rewrite wr_in_range, bind_Ok_l by lia.
    by rewrite uint_small by lia.
Qed.

End Juggling.

Lemma rotate_bytes_outer_spec (L s : Z) (orig : list Z) (fuel : nat)
    (n : nat) :
  0 < s < L → L ≤ 128 → length orig = Z.to_nat L →
  (Z.to_nat (L / Z.gcd s L) ≤ fuel)%nat →
  ∀ (k : Z) (key : list Z),
  0 ≤ k → k + Z.of_nat n = Z.gcd s L →
  length key = Z.to_nat L →
  (∀ p, 0 ≤ p < L →
     key !! Z.to_nat p
     = if decide (p mod Z.gcd s L < k)
       then orig !! Z.to_nat ((p + s) mod L)
       else orig !! Z.to_nat p) →
  ∃ key',
    Rotate.rotate_bytes_outer n fuel key L s (Z.gcd s L) k = Ok key' ∧
    length key' = Z.to_nat L ∧
    ∀ p, 0 ≤ p < L → key' !! Z.to_nat p = orig !! Z.to_nat ((p + s) mod L).
Proof.
  intros Hs HL Horig Hfuel.
  pose proof (juggling_g_pos L s Hs) as Hg.
  induction n as [|n IH]; intros k key Hk Hn Hlen Hinv.
  - exists key. split_and!; [done | done |].
    intros p Hp. rewrite Hinv by done.
    destruct (decide (p mod Z.gcd s L < k)) as [_ | Hge]; [done |].
    exfalso. apply Hge. replace k with (Z.gcd s L) by lia.
    apply Z.mod_pos_bound. lia.
  - destruct (rotate_bytes_outer_step L s Hs HL k ltac:(lia) key Hlen fuel Hfuel)
      as (key1 & Hlen1 & Hkey1 & Hstep).
    rewrite Hstep.
    apply IH; [lia | lia | done |].
    intros p Hp. rewrite Hkey1 by done.
    destruct (decide (p mod Z.gcd s L = k)) as [Hclass | Hclass].
    + rewrite decide_True by lia.
      assert (Hq : 0 ≤ (p + s) mod L < L) by (apply Z.mod_pos_bound; lia).
      rewrite Hinv by done. rewrite decide_False; [done |].
      pose proof (orbit_class L s Hs p 1) as Hc. unfold orbit in Hc.
      rewrite Z.mul_1_l in Hc. lia.
    + rewrite Hinv by done.
      destruct (decide (p mod Z.gcd s L < k)).
      * by rewrite decide_True by lia.
      * by rewrite decide_False by lia.
Qed.

(** On a key of at most 128 bytes the byte rotation is the rotation of
    the byte list to the left. *)
Lemma encrypt_rotate_key_bytes_spec (fuel : nat) (key : list Z) (shift : Z) :
  Z.of_nat (length key) ≤ 128 →
  0 < shift < Z.of_nat (length key) →
  (129 ≤ fuel)%nat →
  Rotate.encrypt_rotate_key_bytes fuel key (Z.of_nat (length key)) shift
  = Ok (rotate (Z.to_nat shift) key).
Proof.
  intros Hlen Hshift Hfuel. set (L := Z.of_nat (length key)) in *.
  unfold Rotate.encrypt_rotate_key_bytes, uchar.
  rewrite Z.mod_small by lia.
  destruct (Z.ltb_spec shift L) as [_ | ?]; [| lia].
  rewrite compute_gcd_spec, bind_Ok_l by lia.
  pose proof (juggling_g_pos L shift Hshift) as Hg.
  assert (Ht : L / Z.gcd shift L ≤ L).
  { apply Z.div_le_upper_bound; nia. }
  destruct (rotate_bytes_outer_spec L shift key fuel (Z.to_nat (Z.gcd shift L)))
    with (k := 0) (key := key) as (key' & Hrun & Hlen' & Hkey');
    [done | done | lia | lia | done | lia | lia | |].
  { intros p Hp. rewrite decide_False; [done |].
    pose proof (Z.mod_pos_bound p (Z.gcd shift L) Hg). lia. }
  rewrite Hrun. f_equal. apply list_eq. intros i.
  destruct (decide (i < length key)%nat) as [Hi | Hi].
  - rewrite lookup_rotate_r by done.
    specialize (Hkey' (Z.of_nat i)). rewrite Nat2Z.id in Hkey'.
    rewrite Hkey' by lia. f_equal. unfold rotate_nat_add.
    f_equal. rewrite Z2Nat.id by lia. fold L. f_equal. lia.
  - rewrite !lookup_ge_None_2; [done | rewrite length_rotate; lia | lia].
Qed.

(** ** The key rotation on short keys *)

Lemma key_bits_app (k1 k2 : list Z) :
  key_bits (k1 ++ k2) = key_bits k1 ++ key_bits k2.
Proof. unfold key_bits. apply bind_app. Qed.

Lemma key_bits_take (n : nat) (key : list Z) :
  key_bits (take n key) = take (8 * n) (key_bits key).
Proof.
  revert key. induction n as [|n IH]; intros key; [done |].
  destruct key as [|k key]; [done |].
  replace (8 * S n)%nat with (8 + 8 * n)%nat by lia.
  unfold key_bits in *. simpl take at 1. rewrite !bind_cons.
  rewrite take_app_add'; [by rewrite IH | done].
Qed.

Lemma key_bits_drop (n : nat) (key : list Z) :
  key_bits (drop n key) = drop (8 * n) (key_bits key).
Proof.
  revert key. induction n as [|n IH]; intros key; [done |].
  destruct key as [|k key]; [done |].
  replace (8 * S n)%nat with (8 + 8 * n)%nat by lia.
  unfold key_bits in *. simpl drop at 1. rewrite !bind_cons.
  rewrite drop_app_add'; [by rewrite IH | done].
Qed.

Lemma key_bits_rotate (s : nat) (key : list Z) :
  key_bits (rotate s key) = rotate (8 * s) (key_bits key).
Proof.
  unfold rotate. rewrite key_bits_app, key_bits_drop, key_bits_take.
  rewrite length_key_bits.
  destruct (decide (length key = 0%nat)) as [Hz | Hnz].
  - apply nil_length_inv in Hz as ->. done.
  - by rewrite Nat.Div0.mul_mod_distr_l.
Qed.

Lemma rotate_bytes (s : nat) (key : list Z) :
  Forall is_byte key → Forall is_byte (rotate s key).
Proof.
  rewrite !Forall_forall. intros H x Hx. apply H. by apply elem_of_rotate in Hx.
Qed.

Lemma byte_of_bits_byte_bits (b : Z) :
  is_byte b → byte_of_bits (byte_bits b) = b.
Proof.
  revert b. apply (byte_cases (λ b, byte_of_bits (byte_bits b) = b)).
  by vm_compute.
Qed.

Lemma key_of_bits_key_bits (key : list Z) :
  Forall is_byte key → key_of_bits (length key) (key_bits key) = key.
Proof.
  induction 1 as [|k key Hk Hkey IH]; [done |].
  unfold key_bits in *. rewrite bind_cons. cbn [length key_of_bits].
  rewrite take_app_length' by done. rewrite drop_app_length' by done.
  by rewrite byte_of_bits_byte_bits, IH.
Qed.

Lemma key_bits_inj (k1 k2 : list Z) :
  Forall is_byte k1 → Forall is_byte k2 →
  key_bits k1 = key_bits k2 → k1 = k2.
Proof.
  intros H1 H2 E.
  assert (Hlen : length k1 = length k2).
  { apply (f_equal length) in E. rewrite !length_key_bits in E. lia. }
  rewrite <- (key_of_bits_key_bits k1 H1), <- (key_of_bits_key_bits k2 H2).
  by rewrite E, Hlen.
Qed.

Lemma length_rotated (key : list Z) (shift : Z) :
  length (rotated key shift) = length key.
Proof. unfold rotated. by rewrite length_iter_rotl1, length_rotate. Qed.

Lemma rotated_bytes (key : list Z) (shift : Z) :
  Forall is_byte key → Forall is_byte (rotated key shift).
Proof. intros H. unfold rotated. by apply iter_rotl1_bytes, rotate_bytes. Qed.

(** The key as a bit string is rotated left by the shift. *)
Lemma key_bits_rotated (key : list Z) (shift : Z) :
  key ≠ [] → Forall is_byte key → 0 ≤ shift →
  key_bits (rotated key shift) = rotate (Z.to_nat shift) (key_bits key).
Proof.
  intros Hne Hkey Hshift. unfold rotated.
  assert (HL : 0 < Z.of_nat (length key)) by (destruct key; [done | simpl; lia]).
  set (L := Z.of_nat (length key)) in *.
  set (r := shift mod (L * 8)).
  assert (Hr : 0 ≤ r < L * 8) by (apply Z.mod_pos_bound; lia).
  rewrite key_bits_iter_rotl1 by (by apply rotate_bytes).
  rewrite key_bits_rotate, rotate_rotate.
  rewrite <- (rotate_mod (Z.to_nat shift)), length_key_bits.
  f_equal.
  replace (8 * length key)%nat with (Z.to_nat (L * 8)) by lia.
  rewrite <- Z2Nat.inj_mod by lia. fold r.
  rewrite (Z.div_mod r 8) at 3 by lia.
  assert (0 ≤ r / 8) by (apply Z.div_pos; lia).
  assert (0 ≤ r mod 8 < 8) by (apply Z.mod_pos_bound; lia).
  lia.
Qed.

Lemma encrypt_rotate_key_spec (fuel : nat) (key : list Z) (shift : Z) :
  key ≠ [] → Z.of_nat (length key) ≤ 128 → 0 ≤ shift → (129 ≤ fuel)%nat →
  Rotate.encrypt_rotate_key fuel key (Z.of_nat (length key)) shift
  = Ok (rotated key shift).
Proof.
  intros Hne Hlen Hshift Hfuel. unfold Rotate.encrypt_rotate_key, rotated.
  assert (HL : 0 < Z.of_nat (length key)) by (destruct key; [done | simpl; lia]).
  set (L := Z.of_nat (length key)) in *.
  rewrite uint_small by lia.
  destruct (Z.eqb_spec (L * 8) 0) as [? | _]; [lia |]. cbv zeta.
  set (r := shift mod (L * 8)).
  assert (Hr : 0 ≤ r < L * 8) by (apply Z.mod_pos_bound; lia).
  assert (Hs : 0 ≤ r / 8 < L).
  { split; [apply Z.div_pos; lia | apply Z.div_lt_upper_bound; lia]. }
  assert (Hb : 0 ≤ r mod 8 < 8) by (apply Z.mod_pos_bound; lia).
  assert (Hbytes : (if r / 8 =? 0 then Ok key
                    else Rotate.encrypt_rotate_key_bytes fuel key L (r / 8))
                   = Ok (rotate (Z.to_nat (r / 8)) key)).
  { destruct (Z.eqb_spec (r / 8) 0) as [-> | Hnz].
    - by rewrite rotate_0.
    - unfold L. apply encrypt_rotate_key_bytes_spec; [done | lia | done]. }
  rewrite Hbytes, bind_Ok_l. clear Hbytes.
  destruct (Z.eqb_spec (r mod 8) 0) as [-> | Hnz]; [done |].
  unfold Rotate.encrypt_rotate_key_bits, uchar.
  rewrite (Z.mod_small (r mod 8)) by lia.
  unfold L. rewrite <- (length_rotate key (Z.to_nat (r / 8))).
  apply rotate_bits_loop_spec.
  - intros E. apply (f_equal length) in E. rewrite length_rotate in E.
    simpl in E. lia.
  - rewrite length_rotate. lia.
Qed.

(** On keys of at most 128 bytes the rotations compose: rotating by 0
    changes nothing, and rotating by [a] and then by [b] is rotating by
    [(a + b) mod 8L]. *)
Lemma rotate_group_law_short_keys (fuel : nat) (key : list Z) (a b : Z) :
  key ≠ [] → Z.of_nat (length key) ≤ 128 → Forall is_byte key →
  0 ≤ a → 0 ≤ b → (129 ≤ fuel)%nat →
  Rotate.encrypt_rotate_key fuel key (Z.of_nat (length key)) 0 = Ok key ∧
  ∃ k1 k2,
    Rotate.encrypt_rotate_key fuel key (Z.of_nat (length key)) a = Ok k1 ∧
    Rotate.encrypt_rotate_key fuel k1 (Z.of_nat (length key)) b = Ok k2 ∧
    Rotate.encrypt_rotate_key fuel key (Z.of_nat (length key))
      ((a + b) mod (8 * Z.of_nat (length key))) = Ok k2.
Proof.
  intros Hne Hlen Hkey Ha Hb Hfuel.
  assert (HL : 0 < Z.of_nat (length key)) by (destruct key; [done | simpl; lia]).
  split.
  - rewrite encrypt_rotate_key_spec by done. f_equal.
    unfold rotated. rewrite Z.mod_0_l by lia. simpl. apply rotate_0.
  - exists (rotated key a), (rotated (rotated key a) b).
    assert (Hne1 : rotated key a ≠ []).
    { intros E. apply (f_equal length) in E. rewrite length_rotated in E.
      simpl in E. lia. }
    split; [by apply encrypt_rotate_key_spec |].
    split.
    { rewrite <- (length_rotated key a).
      apply encrypt_rotate_key_spec; [done | | done | done].
      rewrite length_rotated. lia. }
    rewrite encrypt_rotate_key_spec;
      [| done | done | apply Z.mod_pos_bound; lia | done].
    f_equal. apply key_bits_inj.
    + by apply rotated_bytes.
    + by apply rotated_bytes, rotated_bytes.
    + rewrite !key_bits_rotated; try done.
      * rewrite rotate_rotate.
        rewrite <- (rotate_mod (Z.to_nat b + Z.to_nat a)), length_key_bits.
        f_equal.
        replace (8 * length key)%nat
          with (Z.to_nat (8 * Z.of_nat (length key))) by lia.
        rewrite Z2Nat.inj_mod by lia. f_equal. lia.
      * by apply rotated_bytes.
      * apply Z.mod_pos_bound. lia.
Qed.

(** ** Sequential mode *)

Lemma encrypt_block_loop_spec (more done rest key : list Z) (d : Z)
    (todo : nat) :
  Z.of_nat (length (done ++ d :: more)) < 4294967296 →
  (length (done ++ d :: more) ≤ length key)%nat →
  (length (d :: more) ≤ todo)%nat →
  encrypt_block_loop todo (done ++ d :: more ++ rest)
    (Z.of_nat (length (done ++ d :: more))) key (Z.of_nat (length done))
  = Ok (done ++ xor_block (d :: more) (drop (length done) key) ++ rest).
Proof.
  revert done d todo. induction more as [|d' more IH];
    intros done d todo Hlen Hkey Htodo;
    (destruct todo as [|todo]; [simpl in Htodo; lia |]);
    rewrite length_app in Hlen, Hkey; simpl length in Hlen, Hkey;
    (destruct (lookup_lt_is_Some_2 key (length done)) as [k Hk]; [lia |]);
    rewrite (drop_S _ _ _ Hk); cbn [encrypt_block_loop];
    rewrite length_app; simpl length.
  - destruct (Z.ltb_spec (Z.of_nat (length done))
                (Z.of_nat (length done + 1))) as [_ | ?]; [| lia].
    rewrite (rd_Ok (done ++ _) (length done) d)
      by (by rewrite lookup_app_r, Nat.sub_diag by lia).
    rewrite bind_Ok_l, (rd_Ok _ _ k Hk), bind_Ok_l.
    rewrite wr_Ok by (rewrite length_app; simpl; lia).
    rewrite bind_Ok_l, insert_app_r_alt, Nat.sub_diag by lia.
    simpl. rewrite uint_small by lia.
    destruct todo as [|todo]; [done |]. cbn [encrypt_block_loop].
    destruct (Z.ltb_spec (Z.of_nat (length done) + 1)
                (Z.of_nat (length done + 1))) as [? | _]; [lia | done].
  - destruct (Z.ltb_spec (Z.of_nat (length done))
                (Z.of_nat (length done + S (S (length more))))) as [_ | ?];
      [| lia].
    rewrite (rd_Ok (done ++ _) (length done) d)
      by (by rewrite lookup_app_r, Nat.sub_diag by lia).
    rewrite bind_Ok_l, (rd_Ok _ _ k Hk), bind_Ok_l.
    rewrite wr_Ok by (rewrite length_app; simpl; lia).
    rewrite bind_Ok_l, insert_app_r_alt, Nat.sub_diag by lia.
    simpl insert. rewrite uint_small by lia.
    specialize (IH (done ++ [Z.lxor d k]) d' todo).
    rewrite <- !(assoc_L (++)) in IH. simpl app in IH.
    rewrite !length_app in IH. simpl length in IH.
    replace (Z.of_nat (length done) + 1)
      with (Z.of_nat (length done + 1)) by lia.
    rewrite IH by (simpl in *; lia).
    replace (length done + 1)%nat with (S (length done)) by lia.
    done.
Qed.

Lemma encrypt_block_spec (data rest key : list Z) :
  (length data ≤ length key)%nat →
  Z.of_nat (length key) < 4294967296 →
  encrypt_block (data ++ rest) (Z.of_nat (length data)) key
                (Z.of_nat (length key))
  = Ok (xor_block data key ++ rest).
Proof.
  intros Hlen Hkey. unfold encrypt_block.
  destruct (Z.leb_spec (Z.of_nat (length data)) (Z.of_nat (length key)));
    [| lia].
  rewrite Nat2Z.id. destruct data as [|d more]; [done |].
  apply (encrypt_block_loop_spec more [] rest key d); simpl in *; lia.
Qed.

Lemma length_xor_block (c key : list Z) :
  (length c ≤ length key)%nat → length (xor_block c key) = length c.
Proof. intros H. unfold xor_block. rewrite length_zip_with. lia. Qed.

Lemma xor_block_involutive (c key : list Z) :
  (length c ≤ length key)%nat → xor_block (xor_block c key) key = c.
Proof.
  unfold xor_block. revert key. induction c as [|a c IH]; intros key Hlen;
    [done |].
  destruct key as [|k key]; [simpl in Hlen; lia |]. simpl.
  rewrite Z.lxor_assoc, Z.lxor_nilpotent, Z.lxor_0_r.
  f_equal. apply IH. simpl in Hlen. lia.
Qed.

(** A rotation by one bit is one single-bit pass, whatever the length of
    the key, as long as [keylength * 8] does not wrap to 0. *)
Lemma encrypt_rotate_key_one (fuel : nat) (key : list Z) :
  key ≠ [] →
  Z.of_nat (length key) < 4294967296 →
  uint (Z.of_nat (length key) * 8) ≠ 0 →
  Rotate.encrypt_rotate_key fuel key (Z.of_nat (length key)) 1
  = Ok (rotl1 key).
Proof.
  intros Hne Hlen Hmod. unfold Rotate.encrypt_rotate_key.
  set (m := uint (Z.of_nat (length key) * 8)) in *.
  assert (Hm : 8 ≤ m < 4294967296).
  { unfold m, uint in *. Z.div_mod_to_equations. lia. }
  destruct (Z.eqb_spec m 0) as [? | _]; [lia |]. cbv zeta.
  rewrite (Z.mod_small 1 m) by lia.
  change (1 / 8 =? 0) with true. change (1 mod 8 =? 0) with false.
  cbv iota. rewrite bind_Ok_l.
  unfold Rotate.encrypt_rotate_key_bits.
  change (Z.to_nat (uchar (1 mod 8))) with 1%nat.
  by rewrite rotate_bits_loop_spec.
Qed.

Lemma chunks_enough (n m L : nat) (input : list Z) :
  (0 < L)%nat → (length input ≤ n)%nat → (length input ≤ m)%nat →
  chunks n L input = chunks m L input.
Proof.
  intros HL. revert m input. induction n as [|n IH]; intros m input Hn Hm.
  - destruct input; [by destruct m | simpl in Hn; lia].
  - destruct input as [|x input]; [by destruct m |].
    destruct m as [|m]; [simpl in Hm; lia |].
    cbn [chunks]. f_equal.
    apply IH; rewrite length_drop; simpl in *; lia.
Qed.

Lemma chunks_S (n L : nat) (input : list Z) :
  input ≠ [] →
  chunks (S n) L input = take L input :: chunks n L (drop L input).
Proof. by destruct input. Qed.

Lemma concat_chunks (n L : nat) (input : list Z) :
  (0 < L)%nat → (length input ≤ n)%nat → concat (chunks n L input) = input.
Proof.
  intros HL. revert input. induction n as [|n IH]; intros input Hn.
  - destruct input; [done | simpl in Hn; lia].
  - destruct input as [|x input]; [done |]. cbn [chunks concat].
    rewrite IH by (rewrite length_drop; simpl in *; lia).
    apply take_drop.
Qed.

(** The loop of sequential mode writes the transform of what is left of
    the input, under the live key. *)
Lemma sequential_loop_spec (rounds : nat) :
  ∀ (fuel : nat) (key block input output : list Z) (index : Z),
  key ≠ [] →
  Z.of_nat (length key) < 4294967296 →
  uint (Z.of_nat (length key) * 8) ≠ 0 →
  length block = length key →
  (length input < rounds)%nat →
  Coordinator.sequential_loop rounds fuel key (Z.of_nat (length key)) block
                              input output index
  = Ok (output ++ transform_chunks key
                    (chunks (length input) (length key) input)).
Proof.
  induction rounds as [|rounds IH];
    intros fuel key block input output index Hne Hlen Hmod Hblock Hrounds;
    [lia |].
  assert (HL : (0 < length key)%nat) by (destruct key; [done | simpl; lia]).
  cbn [Coordinator.sequential_loop]. unfold fread. rewrite Nat2Z.id.
  cbv beta iota zeta.
  destruct input as [|x input].
  - rewrite take_nil. simpl. by rewrite app_nil_r.
  - set (inp := x :: input) in *. set (data := take (length key) inp).
    assert (Hdata : (0 < length data ≤ length key)%nat).
    { unfold data. rewrite length_take. simpl length. lia. }
    destruct (Z.eqb_spec (Z.of_nat (length data)) 0) as [? | _]; [lia |].
    rewrite encrypt_block_spec by lia. rewrite bind_Ok_l.
    rewrite encrypt_rotate_key_one by done. rewrite bind_Ok_l.
    unfold fwrite. rewrite Nat2Z.id.
    rewrite (take_app_length' (xor_block data key))
      by (symmetry; apply length_xor_block; lia).
    rewrite <- (length_rotl1 key) at 1.
    rewrite IH.
    + rewrite <- (assoc_L (++)). f_equal. rewrite length_rotl1.
      replace (length inp) with (S (length input)) by done.
      rewrite chunks_S by done. cbn [transform_chunks]. fold data.
      do 3 f_equal.
      apply chunks_enough; [done | lia |].
      rewrite length_drop. unfold inp. simpl. lia.
    + intros E. apply (f_equal length) in E. rewrite length_rotl1 in E.
      simpl in E. lia.
    + by rewrite length_rotl1.
    + by rewrite length_rotl1.
    + rewrite length_app, length_xor_block, length_drop, length_rotl1 by lia.
      lia.
    + rewrite length_drop. unfold inp in *. simpl in *. lia.
Qed.

Lemma length_transform_chunks (n : nat) (key input : list Z) :
  key ≠ [] → (length input ≤ n)%nat →
  length (transform_chunks key (chunks n (length key) input)) = length input.
Proof.
  revert key input. induction n as [|n IH]; intros key input Hne Hn.
  - destruct input; [done | simpl in Hn; lia].
  - destruct input as [|x input]; [done |].
    assert (HL : (0 < length key)%nat) by (destruct key; [done | simpl; lia]).
    rewrite chunks_S by done. cbn [transform_chunks].
    rewrite length_app, length_xor_block by (rewrite length_take; lia).
    rewrite <- (length_rotl1 key) at 2. rewrite IH.
    + rewrite length_take, length_drop. lia.
    + intros E. apply (f_equal length) in E. rewrite length_rotl1 in E.
      simpl in E. lia.
    + rewrite length_drop. simpl in *. lia.
Qed.

Lemma transform_chunks_involutive (n : nat) (key input : list Z) :
  key ≠ [] → (length input ≤ n)%nat →
  transform_chunks key
    (chunks n (length key)
       (transform_chunks key (chunks n (length key) input)))
  = input.
Proof.
  revert key input. induction n as [|n IH]; intros key input Hne Hn.
  - destruct input; [done | simpl in Hn; lia].
  - destruct input as [|x input]; [done |].
    assert (HL : (0 < length key)%nat) by (destruct key; [done | simpl; lia]).
    assert (Hne' : rotl1 key ≠ []).
    { intros E. apply (f_equal length) in E. rewrite length_rotl1 in E.
      simpl in E. lia. }
    set (inp := x :: input) in *.
    rewrite (chunks_S n _ inp) by done. cbn [transform_chunks].
    set (c := take (length key) inp).
    set (rest := transform_chunks (rotl1 key)
                   (chunks n (length key) (drop (length key) inp))).
    assert (Hc : (0 < length c ≤ length key)%nat).
    { unfold c. rewrite length_take. unfold inp. simpl length. lia. }
    assert (Hrest : length rest = length (drop (length key) inp)).
    { unfold rest. rewrite <- (length_rotl1 key) at 1.
      apply length_transform_chunks; [done |].
      rewrite length_drop. unfold inp in *. simpl in *. lia. }
    assert (Hsplit : take (length key) (xor_block c key ++ rest)
                     = xor_block c key ∧
                     drop (length key) (xor_block c key ++ rest) = rest).
    { destruct (decide (length c = length key)) as [Hfull | Hshort].
      - rewrite take_app_length', drop_app_length';
          [done | | ]; rewrite length_xor_block; lia.
      - assert (rest = []) as ->.
        { apply nil_length_inv. rewrite Hrest, length_drop.
          unfold c in *. rewrite length_take in *. lia. }
        rewrite app_nil_r.
        rewrite take_ge, drop_ge; [done | | ]; rewrite length_xor_block; lia. }
    destruct Hsplit as [Htake Hdrop].
    rewrite chunks_S.
    2:{ intros E. apply (f_equal length) in E.
        rewrite length_app, length_xor_block in E by lia. simpl in E. lia. }
    cbn [transform_chunks]. rewrite Htake, Hdrop.
    rewrite xor_block_involutive by lia.
    unfold rest. rewrite <- (length_rotl1 key) at 1 2.
    rewrite IH; [| done |].
    + apply take_drop.
    + rewrite length_drop. unfold inp in *. simpl in *. lia.
Qed.

Lemma length_transform (key input : list Z) :
  key ≠ [] → length (transform key input) = length input.
Proof. intros H. by apply length_transform_chunks. Qed.

Lemma transform_involutive (key input : list Z) :
  key ≠ [] → transform key (transform key input) = input.
Proof.
  intros H. unfold transform at 1. rewrite length_transform by done.
  by apply transform_chunks_involutive.
Qed.

(** Sequential mode writes the transform of the input. *)
Lemma encrypt_execute_sequential_spec (fuel : nat) (key input : list Z) :
  key ≠ [] →
  Z.of_nat (length key) < 4294967296 →
  uint (Z.of_nat (length key) * 8) ≠ 0 →
  (length input < fuel)%nat →
  Coordinator.encrypt_execute_sequential fuel key (Z.of_nat (length key)) input
  = Ok (transform key input).
Proof.
  intros Hne Hlen Hmod Hfuel. unfold Coordinator.encrypt_execute_sequential.
  assert (HL : (0 < length key)%nat) by (destruct key; [done | simpl; lia]).
  destruct (Z.ltb_spec 0 (Z.of_nat (length key))); [| lia].
  rewrite sequential_loop_spec; [done | done | done | done | | done].
  rewrite length_replicate. lia.
Qed.

(** In sequential mode as many bytes are written as are read, and the
    transform of the output is the input. *)
Lemma sequential_mode_is_an_involution (fuel : nat) (key input : list Z) :
  key ≠ [] →
  Z.of_nat (length key) < 4294967296 →
  uint (Z.of_nat (length key) * 8) ≠ 0 →
  (length input < fuel)%nat →
  ∃ out,
    Coordinator.encrypt_execute_sequential fuel key (Z.of_nat (length key))
                                           input = Ok out ∧
    length out = length input ∧
    Coordinator.encrypt_execute_sequential fuel key (Z.of_nat (length key))
                                           out = Ok input.
Proof.
  intros Hne Hlen Hmod Hfuel. exists (transform key input).
  split; [by apply encrypt_execute_sequential_spec |].
  split; [by apply length_transform |].
  rewrite encrypt_execute_sequential_spec; try done.
  - by rewrite transform_involutive.
  - by rewrite length_transform.
Qed.

(** ** The workers and the drain *)

Lemma is_seg_delete_ne (h : gmap nat Info.t) (p q : option nat)
    (l : list nat) (x : nat) :
  x ∉ l → is_seg h p q l → is_seg (delete x h) p q l.
Proof.
  revert p. induction l as [|y l IH]; intros p Hx Hseg; [done |].
  destruct Hseg as (-> & yb & Hy & Hrest).
  apply not_elem_of_cons in Hx as [Hxy Hx].
  split; [done |]. exists yb. split; [by rewrite lookup_delete_ne | by apply IH].
Qed.

(** The workers take the whole process queue, in its order. *)
Lemma take_blocks_spec (l : list nat) (m : machine) :
  is_queue (heap m) (process_queue m) l →
  Coordinator.take_blocks (length l) m = Ok (set_process_queue m None, l).
Proof.
  revert m. induction l as [|x l IH]; intros m Hq.
  - unfold is_queue in Hq. simpl in Hq. destruct m; simpl in *. by subst.
  - destruct Hq as (Hp & b & Hb & Hrest). simpl.
    unfold Worker.pop, load. rewrite Hp, Hb. simpl.
    rewrite (IH (set_process_queue m (Info.next b))) by done.
    done.
Qed.

(** The drain writes the valid bytes of every block of the completion
    queue, in the order of the queue, and releases the descriptors. *)
Lemma drain_spec (l : list nat) :
  ∀ (m : machine) (current : option nat) (count fuel : nat),
  is_queue (heap m) current l → NoDup l → (length l < fuel)%nat →
  ∃ m',
    Coordinator.drain fuel m current count = Ok (m', (count + length l)%nat) ∧
    stdout m'
    = stdout m ++
      concat ((λ x, from_option
                      (λ b, take (Z.to_nat (Info.length b)) (Info.block b))
                      [] (heap m !! x)) <$> l) ∧
    heap m' = foldr delete (heap m) l ∧
    brk m' = brk m ∧ stdin m' = stdin m ∧
    process_queue m' = process_queue m ∧
    completion_queue m' = completion_queue m.
Proof.
  induction l as [|x l IH]; intros m current count fuel Hq Hnd Hfuel;
    (destruct fuel as [|fuel]; [simpl in Hfuel; lia |]).
  - unfold is_queue in Hq. simpl in Hq. subst current.
    exists m. simpl. rewrite app_nil_r, Nat.add_0_r. done.
  - destruct Hq as (-> & b & Hb & Hrest).
    apply NoDup_cons in Hnd as [Hx Hnd].
    simpl Coordinator.drain. unfold load, encrypt_block_deinit, load.
    rewrite Hb. simpl. rewrite Hb. simpl.
    destruct (IH (set_heap
                    (set_stdout m (fwrite (Info.block b) (Info.length b)
                                          (stdout m)))
                    (delete x (heap m)))
                 (Info.next b) (S count) fuel)
      as (m' & Hdrain & Hout & Hheap & Hbrk & Hin & Hpq & Hcq).
    { simpl. by apply is_seg_delete_ne. }
    { done. }
    { simpl in Hfuel. lia. }
    exists m'. rewrite Hdrain. simpl in *.
    split_and!; try done.
    + by rewrite Nat.add_succ_r.
    + rewrite Hout. unfold fwrite.
      rewrite <- (assoc_L (++)). do 3 f_equal.
      apply list_fmap_ext. intros i y Hy.
      rewrite lookup_delete_ne; [done |].
      intros E. subst y. apply Hx. by eapply list_elem_of_lookup_2.
    + rewrite Hheap. clear -Hx. induction l as [|y l IH]; [done |].
      apply not_elem_of_cons in Hx as [Hxy Hx]. simpl.
      rewrite IH by done. apply delete_delete.
Qed.

Lemma data_of_Some (h : gmap nat Info.t) (x : nat) (d : Z * list Z * Z) :
  data_of h x = Some d →
  ∃ b, h !! x = Some b ∧ d = (Info.index b, Info.block b, Info.length b).
Proof.
  unfold data_of. destruct (h !! x) as [b|]; [| done].
  intros [= <-]. eauto.
Qed.

(** The worker's transform of a block, on a key of at most 128 bytes. *)
Lemma transform_spec (fuel : nat) (key : list Z) (h : gmap nat Info.t)
    (info : nat) (d : Z * list Z * Z) :
  key ≠ [] → Z.of_nat (length key) ≤ 128 → (129 ≤ fuel)%nat →
  data_of h info = Some d → workable key d →
  ∃ h',
    Worker.transform fuel key (Z.of_nat (length key)) h info = Ok h' ∧
    data_of h' info = Some (transformed key d) ∧
    (∀ x, x ≠ info → h' !! x = h !! x) ∧
    (∀ x, Info.next <$> h' !! x = Info.next <$> h !! x).
Proof.
  intros Hne Hlen Hfuel Hd Hw.
  apply data_of_Some in Hd as (b & Hb & ->).
  destruct Hw as (Hidx & Hl & Hblk).
  unfold Worker.transform, load. rewrite Hb, bind_Ok_l.
  rewrite encrypt_rotate_key_spec, bind_Ok_l by done.
  assert (Henc :
    encrypt_block (Info.block b) (Info.length b) (rotated key (Info.index b))
                  (Z.of_nat (length key))
    = Ok (xor_block (take (Z.to_nat (Info.length b)) (Info.block b))
                    (rotated key (Info.index b))
            ++ drop (Z.to_nat (Info.length b)) (Info.block b))).
  { set (n := Z.to_nat (Info.length b)).
    rewrite <- (take_drop n (Info.block b)) at 1.
    replace (Info.length b) with (Z.of_nat (length (take n (Info.block b))))
      by (rewrite length_take; lia).
    rewrite <- (length_rotated key (Info.index b)).
    apply encrypt_block_spec.
    - rewrite length_take, length_rotated. lia.
    - rewrite length_rotated. lia. }
  rewrite Henc, bind_Ok_l.
  eexists. split; [done |]. split_and!.
  - unfold data_of. by rewrite lookup_insert_eq.
  - intros x Hx. by rewrite lookup_insert_ne.
  - intros x. destruct (decide (x = info)) as [-> | Hx].
    + by rewrite lookup_insert_eq, Hb.
    + by rewrite lookup_insert_ne.
Qed.

Lemma is_seg_ext (h h' : gmap nat Info.t) (p q : option nat) (l : list nat) :
  (∀ x, x ∈ l → h' !! x = h !! x) → is_seg h p q l → is_seg h' p q l.
Proof.
  revert p. induction l as [|y l IH]; intros p Hext Hseg; [done |].
  destruct Hseg as (-> & yb & Hy & Hrest). split; [done |].
  exists yb. split.
  - rewrite Hext; [done | by left].
  - apply IH; [| done]. intros x Hx. apply Hext. by right.
Qed.

Lemma index_at_transformed (key : list Z) (h h' : gmap nat Info.t) (x : nat) :
  data_of h' x = transformed key <$> data_of h x →
  index_at h' x = index_at h x.
Proof.
  unfold data_of, index_at. intros H.
  destruct (h' !! x) as [b'|], (h !! x) as [b|]; simpl in *; try done.
  by injection H as -> _ _.
Qed.

Lemma drop_tl {A : Type} (n : nat) (l : list A) :
  drop n (tl l) = drop (S n) l.
Proof. destruct l; simpl; [by rewrite drop_nil | done]. Qed.

(** ** A batch whose oldest block completes first *)

Lemma sorted_lt_NoDup (l : list Z) : StronglySorted Z.lt l → NoDup l.
Proof.
  induction 1 as [|x l _ IH Hx]; constructor; [| done].
  intros Hin. rewrite Forall_forall in Hx. specialize (Hx x Hin). lia.
Qed.

Lemma NoDup_fmap_eq {A B : Type} (f : A → B) (l : list A) (x y : A) :
  NoDup (f <$> l) → x ∈ l → y ∈ l → f x = f y → x = y.
Proof.
  induction l as [|a l IH]; intros Hnd Hx Hy Hf;
    [by apply elem_of_nil in Hx |].
  rewrite fmap_cons in Hnd. apply NoDup_cons in Hnd as [Ha Hnd].
  apply elem_of_cons in Hx as [-> | Hx]; apply elem_of_cons in Hy as [-> | Hy].
  - done.
  - exfalso. apply Ha. rewrite Hf. by apply list_elem_of_fmap_2.
  - exfalso. apply Ha. rewrite <- Hf. by apply list_elem_of_fmap_2.
  - by apply IH.
Qed.

(** Two orders of the same blocks that are both sorted by index are the
    same order. *)
Lemma sorted_perm_eq (h : gmap nat Info.t) (l1 : list nat) :
  ∀ l2 : list nat,
  l1 ≡ₚ l2 →
  StronglySorted Z.lt (indices h l1) → StronglySorted Z.lt (indices h l2) →
  l1 = l2.
Proof.
  induction l1 as [|x l1 IH]; intros l2 Hperm H1 H2.
  { by apply Permutation_nil_l in Hperm. }
  destruct l2 as [|y l2]; [by apply Permutation_nil_r in Hperm |].
  unfold indices in *. rewrite fmap_cons in H1, H2.
  apply StronglySorted_cons in H1 as [Hx H1].
  apply StronglySorted_cons in H2 as [Hy H2].
  rewrite Forall_forall in Hx, Hy.
  assert (x = y) as ->.
  { destruct (decide (x = y)) as [| Hne]; [done |]. exfalso.
    assert (x ∈ l2) as Hxin.
    { assert (x ∈ y :: l2) as Hin by (rewrite <- Hperm; by left).
      apply elem_of_cons in Hin as [| Hin]; done. }
    assert (y ∈ l1) as Hyin.
    { assert (y ∈ x :: l1) as Hin by (rewrite Hperm; by left).
      apply elem_of_cons in Hin as [| Hin]; done. }
    specialize (Hx (index_at h y) (list_elem_of_fmap_2 _ _ _ Hyin)).
    specialize (Hy (index_at h x) (list_elem_of_fmap_2 _ _ _ Hxin)). lia. }
  f_equal. apply IH; [| done | done]. by apply Permutation_cons_inv in Hperm.
Qed.

(** Behind a head that is smaller than every block in flight, the
    workers may finish in any order: the completion queue stays sorted
    and receives every block. *)
Lemma complete_behind_head_spec (key : list Z) (fuel : nat) :
  key ≠ [] → Z.of_nat (length key) ≤ 128 → (129 ≤ fuel)%nat →
  ∀ (n : nat) (inflight lq : list nat) (h0 : nat) (m : machine)
    (sched : list nat),
  length inflight = n →
  head lq = Some h0 →
  is_queue (heap m) (completion_queue m) lq →
  NoDup (lq ++ inflight) →
  StronglySorted Z.lt (indices (heap m) lq) →
  NoDup (indices (heap m) (lq ++ inflight)) →
  (∀ x, x ∈ inflight → index_at (heap m) h0 < index_at (heap m) x) →
  Forall (λ x, ∃ d, data_of (heap m) x = Some d ∧ workable key d) inflight →
  (length lq + length inflight < fuel)%nat →
  ∃ m' lq',
    Coordinator.complete n fuel sched key (Z.of_nat (length key)) m inflight
    = Ok (m', drop n sched) ∧
    is_queue (heap m') (completion_queue m') lq' ∧
    lq' ≡ₚ lq ++ inflight ∧
    StronglySorted Z.lt (indices (heap m') lq') ∧
    (∀ x, x ∉ inflight → data_of (heap m') x = data_of (heap m) x) ∧
    (∀ x, x ∈ inflight →
       data_of (heap m') x = transformed key <$> data_of (heap m) x) ∧
    brk m' = brk m ∧ process_queue m' = process_queue m ∧
    stdin m' = stdin m ∧ stdout m' = stdout m.
Proof.
  intros Hne Hlen Hfuel.
  induction n as [|n IH];
    intros inflight lq h0 m sched Hn Hhead Hq Hnd Hsorted Hndi Hsmall Hwork Hf.
  { destruct inflight; [| done]. exists m, lq. simpl.
    rewrite app_nil_r. split_and!; try done.
    intros x Hx. by apply elem_of_nil in Hx. }
  set (i := (hd 0 sched mod length inflight)%nat).
  assert (i < length inflight)%nat as Hi
    by (apply Nat.mod_upper_bound; lia).
  destruct (lookup_lt_is_Some_2 inflight i Hi) as [x Hx].
  assert (Hperm : inflight ≡ₚ x :: delete i inflight)
    by (by apply delete_Permutation).
  assert (Hxin : x ∈ inflight) by (by eapply list_elem_of_lookup_2).
  assert (Hrest : ∀ y, y ∈ delete i inflight → y ∈ inflight ∧ y ≠ x).
  { intros y Hy. split; [by eapply list_elem_of_delete_inv |].
    intros ->. apply NoDup_app in Hnd as (_ & _ & Hnd).
    rewrite Hperm in Hnd. by apply NoDup_cons in Hnd as [? _]. }
  cbn [Coordinator.complete]. unfold Coordinator.pick. fold i. rewrite Hx.
  rewrite Forall_forall in Hwork.
  destruct (Hwork x Hxin) as (d & Hd & Hw).
  destruct (transform_spec fuel key (heap m) x d)
    as (h1 & Htrans & Hdata1 & Hother1 & Hnext1); try done.
  rewrite Htrans, bind_Ok_l.
  pose proof Hnd as Hnd0.
  apply NoDup_app in Hnd as (Hndq & Hdisj & Hndl).
  assert (Hxq : x ∉ lq) by (intros Hin; by apply (Hdisj x Hin)).
  assert (Hidx1 : ∀ y, index_at h1 y = index_at (heap m) y).
  { intros y. destruct (decide (y = x)) as [-> | Hy].
    - apply (index_at_transformed key). by rewrite Hdata1, Hd.
    - unfold index_at. by rewrite Hother1. }
  apply data_of_Some in Hdata1 as (ib & Hib & Hibd).
  assert (Hibx : Info.index ib = index_at (heap m) x).
  { rewrite <- Hidx1. unfold index_at. by rewrite Hib. }
  destruct (insert_sorted_spec (set_heap m h1) lq x ib fuel)
    as (m2 & l1 & l2 & Hins & Hsplit & Hq2 & Hsorted2 & Hdata2 & Hbrk2
        & Hpq2 & Hin2 & Hout2).
  { simpl. eapply is_seg_ext; [| exact Hq].
    intros y Hy. apply Hother1. by intros ->. }
  { by apply NoDup_cons. }
  { done. }
  { simpl. unfold indices.
    rewrite (list_fmap_ext (index_at h1) (index_at (heap m)) lq); [done |].
    intros; apply Hidx1. }
  { simpl. intros Hin. apply list_elem_of_fmap in Hin as (y & Hy & Hyq).
    rewrite Hidx1 in Hy. apply Hxq.
    replace x with y; [done |].
    apply (NoDup_fmap_eq (index_at (heap m)) (lq ++ inflight));
      [done | apply elem_of_app; by left | apply elem_of_app; by right
       | congruence]. }
  { simpl. intros y Hy. rewrite Hhead in Hy. injection Hy as <-.
    rewrite Hidx1, Hibx. by apply Hsmall. }
  { lia. }
  rewrite Hins, bind_Ok_l. simpl in *.
  assert (Hidx2 : ∀ y, index_at (heap m2) y = index_at (heap m) y).
  { intros y. rewrite <- Hidx1. by apply index_at_data. }
  assert (Hhead2 : head (l1 ++ x :: l2) = Some h0).
  { destruct l1 as [|a l1]; [| by rewrite Hsplit in Hhead].
    exfalso. simpl in *. subst l2.
    unfold indices in Hsorted2.
    change (StronglySorted Z.lt (index_at (heap m2) x
                                 :: (index_at (heap m2) <$> lq)))
      in Hsorted2.
    apply StronglySorted_cons in Hsorted2 as [Hlt _].
    rewrite Forall_forall in Hlt.
    destruct lq as [|a lq]; [done |]. injection Hhead as ->.
    specialize (Hlt (index_at (heap m2) h0)).
    rewrite !Hidx2 in Hlt. specialize (Hsmall x Hxin).
    assert (index_at (heap m) x < index_at (heap m) h0); [| lia].
    apply Hlt. rewrite <- Hidx2. apply list_elem_of_fmap_2. by left. }
  assert (Hperm2 : (l1 ++ x :: l2) ++ delete i inflight ≡ₚ lq ++ inflight).
  { transitivity ((l1 ++ l2) ++ x :: delete i inflight).
    - rewrite <- !(assoc_L (++)). apply Permutation_app_head.
      rewrite <- app_comm_cons. apply Permutation_middle.
    - rewrite <- Hsplit. apply Permutation_app_head. by symmetry. }
  destruct (IH (delete i inflight) (l1 ++ x :: l2) h0 m2 (tl sched))
    as (m' & lq' & Hrun & Hq' & Hperm' & Hsorted' & Hold' & Hnew' & Hbrk'
        & Hpq' & Hin' & Hout').
  { rewrite length_delete by eauto. lia. }
  { done. }
  { done. }
  { by rewrite Hperm2. }
  { done. }
  { unfold indices.
    rewrite (list_fmap_ext (index_at (heap m2)) (index_at (heap m))
               ((l1 ++ x :: l2) ++ delete i inflight))
      by (intros; apply Hidx2).
    by rewrite Hperm2. }
  { intros y Hy. rewrite !Hidx2. apply Hsmall, Hrest, Hy. }
  { apply Forall_forall. intros y Hy. destruct (Hrest y Hy) as [Hyin Hyx].
    destruct (Hwork y Hyin) as (dy & Hdy & Hwy). exists dy. split; [| done].
    rewrite Hdata2. unfold data_of. by rewrite Hother1. }
  { apply Permutation_length in Hperm2. rewrite !length_app in *. lia. }
  exists m', lq'. rewrite Hrun, drop_tl.
  split_and!; try done; try congruence.
  - by rewrite Hperm', Hperm2.
  - intros y Hy.
    assert (y ≠ x) by (by intros ->).
    assert (y ∉ delete i inflight)
      by (intros Hin; by apply Hy, Hrest).
    rewrite Hold' by done. rewrite Hdata2. unfold data_of.
    by rewrite Hother1.
  - intros y Hy. rewrite Hperm in Hy.
    apply elem_of_cons in Hy as [-> | Hy].
    + assert (x ∉ delete i inflight) by (intros Hin; by apply Hrest in Hin as [_ ?]).
      rewrite Hold' by done. rewrite Hdata2, Hd.
      unfold data_of. rewrite Hib. simpl. by rewrite Hibd.
    + rewrite Hnew' by done. rewrite Hdata2. unfold data_of.
      destruct (Hrest y Hy) as [_ Hyx]. by rewrite Hother1.
Qed.

(** The workers finish a batch whose oldest block completes first, the
    others in any order: every block is transformed and the completion
    queue holds the batch in submission order. *)
Lemma complete_oldest_first_spec (key : list Z) (fuel : nat) :
  key ≠ [] → Z.of_nat (length key) ≤ 128 → (129 ≤ fuel)%nat →
  ∀ (l : list nat) (m : machine) (sched : list nat),
  (length l ≤ 1)%nat ∨ (hd 0 sched mod length l)%nat = 0%nat →
  completion_queue m = None →
  NoDup l →
  StronglySorted Z.lt (indices (heap m) l) →
  Forall (λ x, ∃ d, data_of (heap m) x = Some d ∧ workable key d) l →
  (length l < fuel)%nat →
  ∃ m',
    Coordinator.complete (length l) fuel sched key (Z.of_nat (length key)) m l
    = Ok (m', drop (length l) sched) ∧
    is_queue (heap m') (completion_queue m') l ∧
    (∀ x, x ∉ l → data_of (heap m') x = data_of (heap m) x) ∧
    (∀ x, x ∈ l →
       data_of (heap m') x = transformed key <$> data_of (heap m) x) ∧
    brk m' = brk m ∧ process_queue m' = process_queue m ∧
    stdin m' = stdin m ∧ stdout m' = stdout m.
Proof.
  intros Hne Hlen Hfuel l m sched Hsched Hcq Hnd Hsorted Hwork Hf.
  destruct l as [|x0 rest].
  { exists m. simpl. split_and!; try done.
    intros x Hx. by apply elem_of_nil in Hx. }
  assert (Hpick : Coordinator.pick (hd 0%nat sched) (x0 :: rest)
                  = Some (x0, rest)).
  { unfold Coordinator.pick.
    assert ((hd 0 sched mod length (x0 :: rest))%nat = 0%nat) as ->; [| done].
    destruct Hsched as [Hone | Hzero]; [| done].
    simpl in Hone. assert (length rest = 0%nat) as Hl by lia.
    simpl. rewrite Hl. simpl. destruct (hd 0%nat sched); done. }
  apply Forall_cons in Hwork as [(d & Hd & Hw) Hwork].
  cbn [length Coordinator.complete]. rewrite Hpick.
  destruct (transform_spec fuel key (heap m) x0 d)
    as (h1 & Htrans & Hdata1 & Hother1 & Hnext1); try done.
  rewrite Htrans, bind_Ok_l.
  apply NoDup_cons in Hnd as [Hx0 Hndr].
  assert (Hidx1 : ∀ y, index_at h1 y = index_at (heap m) y).
  { intros y. destruct (decide (y = x0)) as [-> | Hy].
    - apply (index_at_transformed key). by rewrite Hdata1, Hd.
    - unfold index_at. by rewrite Hother1. }
  pose proof Hdata1 as Hdata1'.
  apply data_of_Some in Hdata1 as (ib & Hib & Hibd).
  destruct (insert_sorted_spec (set_heap m h1) [] x0 ib fuel)
    as (m2 & l1 & l2 & Hins & Hsplit & Hq2 & Hsorted2 & Hdata2 & Hbrk2
        & Hpq2 & Hin2 & Hout2).
  { simpl. by rewrite Hcq. }
  { apply NoDup_singleton. }
  { done. }
  { constructor. }
  { intros Hin. by apply elem_of_nil in Hin. }
  { done. }
  { simpl. lia. }
  symmetry in Hsplit. apply app_eq_nil in Hsplit as [-> ->].
  rewrite Hins, bind_Ok_l. simpl in *.
  assert (Hidx2 : ∀ y, index_at (heap m2) y = index_at (heap m) y).
  { intros y. rewrite <- Hidx1. by apply index_at_data. }
  assert (Hind2 : indices (heap m2) (x0 :: rest)
                  = indices (heap m) (x0 :: rest)).
  { unfold indices. apply list_fmap_ext. intros; apply Hidx2. }
  pose proof Hsorted as Hsorted0.
  change (StronglySorted Z.lt (index_at (heap m) x0
                               :: (index_at (heap m) <$> rest))) in Hsorted.
  apply StronglySorted_cons in Hsorted as [Hsmall Hsr].
  rewrite Forall_forall in Hsmall.
  destruct (complete_behind_head_spec key fuel Hne Hlen Hfuel (length rest)
              rest [x0] x0 m2 (tl sched))
    as (m' & lq' & Hrun & Hq' & Hperm' & Hsorted' & Hold' & Hnew' & Hbrk'
        & Hpq' & Hin' & Hout'); try done.
  { by apply NoDup_cons. }
  { simpl. change (NoDup (indices (heap m2) (x0 :: rest))).
    rewrite Hind2. by apply sorted_lt_NoDup. }
  { intros x Hx. rewrite !Hidx2. apply Hsmall.
    by apply list_elem_of_fmap_2. }
  { rewrite Forall_forall in Hwork. apply Forall_forall. intros y Hy.
    destruct (Hwork y Hy) as (dy & Hdy & Hwy). exists dy. split; [| done].
    rewrite Hdata2. unfold data_of. rewrite Hother1; [done |].
    by intros ->. }
  assert (Hidx' : ∀ y, index_at (heap m') y = index_at (heap m) y).
  { intros y. rewrite <- Hidx2. destruct (decide (y ∈ rest)) as [Hy | Hy].
    - apply (index_at_transformed key). by apply Hnew'.
    - apply index_at_data. by apply Hold'. }
  assert (lq' = x0 :: rest) as ->.
  { apply (sorted_perm_eq (heap m')); [done | done |].
    unfold indices.
    rewrite (list_fmap_ext (index_at (heap m')) (index_at (heap m))
               (x0 :: rest)) by (intros; apply Hidx').
    done. }
  exists m'. rewrite Hrun, drop_tl.
  split_and!; try done; try congruence.
  - intros y Hy. apply not_elem_of_cons in Hy as [Hyx Hy].
    rewrite Hold' by done. rewrite Hdata2. unfold data_of.
    by rewrite Hother1.
  - intros y Hy. apply elem_of_cons in Hy as [-> | Hy].
    + rewrite Hold' by done. by rewrite Hdata2, Hdata1', Hd.
    + rewrite Hnew' by done. rewrite Hdata2. unfold data_of.
      rewrite Hother1; [done |]. by intros ->.
Qed.

(** ** The key of a block, in parallel mode and in sequential mode *)

(** The key rotated by a block index is the key after as many single-bit
    passes. *)
Lemma rotated_iter (key : list Z) (i : nat) :
  key ≠ [] → Forall is_byte key →
  rotated key (Z.of_nat i) = Nat.iter i rotl1 key.
Proof.
  intros Hne Hbytes. apply key_bits_inj.
  - by apply rotated_bytes.
  - by apply iter_rotl1_bytes.
  - rewrite key_bits_rotated by (done || lia).
    by rewrite key_bits_iter_rotl1, Nat2Z.id.
Qed.

Lemma rotated_succ (key : list Z) (i : nat) :
  key ≠ [] → Forall is_byte key →
  rotated key (Z.of_nat (S i)) = rotl1 (rotated key (Z.of_nat i)).
Proof. intros Hne Hbytes. by rewrite !rotated_iter. Qed.

(** ** A round of parallel mode *)

Lemma index_at_data_of (h : gmap nat Info.t) (x : nat) (d : Z * list Z * Z) :
  data_of h x = Some d → index_at h x = d.1.1.
Proof.
  unfold data_of, index_at. destruct (h !! x); simpl; [| done].
  by intros [= <-].
Qed.

Lemma indices_of_data (h : gmap nat Info.t) (l : list nat) :
  ∀ ds : list (Z * list Z * Z),
  data_of h <$> l = Some <$> ds → indices h l = (λ d, d.1.1) <$> ds.
Proof.
  induction l as [|x l IH]; intros [|d ds] H; simpl in *; try done.
  injection H as Hx Hl. unfold indices in *. simpl.
  by rewrite (index_at_data_of h x d), (IH ds).
Qed.

(** The blocks of a round carry increasing indices. *)
Lemma submitted_indices_sorted (L : Z) (cs : list (list Z)) :
  ∀ index : Z,
  0 ≤ index → index + Z.of_nat (length cs) ≤ 4294967296 →
  StronglySorted Z.lt ((λ d, d.1.1) <$> imap (submitted_block L index) cs).
Proof.
  induction cs as [|c cs IH]; intros index H0 Hmax; [constructor |].
  rewrite imap_cons. simpl in *.
  rewrite (imap_ext _ (submitted_block L (index + 1))).
  - constructor; [apply IH; lia |].
    apply Forall_forall. intros i Hi.
    apply list_elem_of_fmap in Hi as (d & -> & Hd).
    apply elem_of_lookup_imap in Hd as (j & c' & -> & Hj).
    apply lookup_lt_Some in Hj. simpl.
    rewrite !uint_small by lia. lia.
  - intros j c' _. unfold submitted_block. simpl.
    do 3 f_equal. lia.
Qed.

(** The blocks of a round are ones a worker can take. *)
Lemma submitted_blocks_workable (key : list Z) (cs : list (list Z)) (index : Z) :
  Forall (λ c, c ≠ [] ∧ (length c ≤ length key)%nat) cs →
  Forall (workable key)
         (imap (submitted_block (Z.of_nat (length key)) index) cs).
Proof.
  intros Hcs. apply Forall_forall. intros d Hd.
  apply elem_of_lookup_imap in Hd as (j & c & -> & Hj).
  rewrite Forall_forall in Hcs.
  destruct (Hcs c) as [_ Hc]; [by eapply list_elem_of_lookup_2 |].
  unfold workable, submitted_block. split_and!.
  - unfold uint. apply Z.mod_pos_bound. lia.
  - lia.
  - lia.
  - rewrite Nat2Z.id, length_app, length_drop, length_replicate. lia.
Qed.

(** What the drain writes for a block a worker is done with. *)
Lemma written_transformed (key : list Z) (L index : Z) (j : nat) (c : list Z) :
  (length c ≤ length key)%nat →
  written (transformed key (submitted_block L index j c))
  = xor_block c (rotated key (uint (index + Z.of_nat j))).
Proof.
  intros Hc. unfold written, transformed, submitted_block.
  rewrite Nat2Z.id, take_app_length. 
  assert (length (xor_block c (rotated key (uint (index + Z.of_nat j))))
          = length c) as Hlen.
  { unfold xor_block. rewrite length_zip_with, length_rotated. lia. }
  rewrite <- Hlen at 1. by rewrite take_app_length.
Qed.

(** ** The descriptors that are allocated *)

Lemma is_queue_unique (h : gmap nat Info.t) (l1 : list nat) :
  ∀ (p : option nat) (l2 : list nat),
  is_queue h p l1 → is_queue h p l2 → l1 = l2.
Proof.
  unfold is_queue. induction l1 as [|x l1 IH]; intros p [|y l2] H1 H2.
  - done.
  - simpl in H1. destruct H2 as (-> & _). done.
  - simpl in H2. destruct H1 as (-> & _). done.
  - destruct H1 as (-> & b1 & Hb1 & H1). destruct H2 as ([= <-] & b2 & Hb2 & H2).
    rewrite Hb1 in Hb2. injection Hb2 as <-. f_equal. by eapply IH.
Qed.

(** When every descriptor that is allocated is in the process queue, the
    submission loop keeps it so: the block of the empty read is released
    at once, every other block is queued. *)
Lemma submit_loop_allocated (todo : nat) :
  ∀ (m : machine) (l : list nat) (index slot : Z) (lens : list Z)
    (fuel : nat) (L N : Z) (r : machine * Z * Z * bool * list Z),
  heap_fresh m →
  is_queue (heap m) (process_queue m) l → NoDup l →
  (length l + todo ≤ fuel)%nat →
  (∀ x, is_Some (heap m !! x) → x ∈ l) →
  Coordinator.submit_loop todo fuel m L N index slot lens = Ok r →
  ∃ l', is_queue (heap r.1.1.1.1) (process_queue r.1.1.1.1) l' ∧
        ∀ x, is_Some (heap r.1.1.1.1 !! x) → x ∈ l'.
Proof.
  induction todo as [|todo IH];
    intros m l index slot lens fuel L N r Hfresh Hq Hnd Hfuel Hall Hrun.
  { injection Hrun as <-. by exists l. }
  simpl Coordinator.submit_loop in Hrun.
  destruct (slot <? N); [| injection Hrun as <-; by exists l].
  unfold load in Hrun. simpl heap in Hrun.
  rewrite lookup_insert_eq, bind_Ok_l in Hrun.
  unfold fread in Hrun. cbv beta iota zeta in Hrun. simpl Info.block in Hrun.
  destruct (Z.of_nat (length (take (Z.to_nat L) (stdin m))) =? 0) eqn:Hlen.
  - unfold encrypt_block_deinit, load in Hrun. simpl heap in Hrun.
    rewrite lookup_insert_eq, bind_Ok_l in Hrun.
    injection Hrun as <-. simpl.
    rewrite insert_insert_eq, delete_insert_eq.
    rewrite delete_id by (apply Hfresh; lia). by exists l.
  - set (ib := Info.set_length _ _) in Hrun.
    set (m2 := set_stdin _ _) in Hrun.
    assert (Hbelow := is_queue_below_brk m l Hfresh Hq).
    assert (Hnotin : brk m ∉ l).
    { intros Hin. specialize (Hbelow _ Hin). lia. }
    destruct (submit_spec m2 l (brk m) ib fuel) as
      (m3 & Hsub & Hq3 & Hdata3 & Hbrk3 & Hin3 & Hout3 & Hcq3).
    { simpl. rewrite insert_insert_eq. by apply is_seg_insert_ne. }
    { done. }
    { done. }
    { simpl. by rewrite insert_insert_eq, lookup_insert_eq. }
    { done. }
    { lia. }
    rewrite Hsub, bind_Ok_l in Hrun.
    assert (Hdom3 : ∀ x, is_Some (heap m3 !! x) → x ∈ l ++ [brk m]).
    { intros x Hx. specialize (Hdata3 x). unfold data_of in Hdata3.
      simpl in Hdata3. rewrite insert_insert_eq in Hdata3.
      destruct (decide (x = brk m)) as [-> | Hne]; [set_solver |].
      rewrite lookup_insert_ne in Hdata3 by done.
      apply elem_of_app. left. apply Hall.
      destruct Hx as [b Hb]. rewrite Hb in Hdata3.
      destruct (heap m !! x); [done | discriminate]. }
    eapply (IH m3 (l ++ [brk m])); [| exact Hq3 | | | exact Hdom3 | exact Hrun].
    + intros x Hx. rewrite Hbrk3 in Hx. simpl in Hx.
      specialize (Hdata3 x). unfold data_of in Hdata3.
      simpl in Hdata3. rewrite insert_insert_eq in Hdata3.
      rewrite lookup_insert_ne in Hdata3 by lia.
      rewrite Hfresh in Hdata3 by lia.
      by destruct (heap m3 !! x).
    + apply NoDup_app. split; [done |]. split; [| apply NoDup_singleton].
      intros x Hx Hx'. apply list_elem_of_singleton in Hx' as ->. done.
    + rewrite length_app. simpl. lia.
Qed.

Lemma lookup_foldr_delete_elem (h : gmap nat Info.t) (l : list nat) (x : nat) :
  x ∈ l → foldr delete h l !! x = None.
Proof.
  induction l as [|y l IH]; intros Hx; [by apply elem_of_nil in Hx |]. simpl.
  destruct (decide (y = x)) as [-> | Hne]; [apply lookup_delete_eq |].
  rewrite lookup_delete_ne by done. apply IH.
  apply elem_of_cons in Hx as [-> | Hx]; done.
Qed.

Lemma lookup_foldr_delete_other (h : gmap nat Info.t) (l : list nat) (x : nat) :
  x ∉ l → foldr delete h l !! x = h !! x.
Proof.
  induction l as [|y l IH]; intros Hx; [done |]. simpl.
  apply not_elem_of_cons in Hx as [Hxy Hx].
  rewrite lookup_delete_ne by done. by apply IH.
Qed.

Lemma lookup_foldr_delete (h : gmap nat Info.t) (l : list nat) (x : nat) :
  foldr delete h l !! x = None ∨ foldr delete h l !! x = h !! x.
Proof.
  induction l as [|y l IH]; simpl; [by right |].
  destruct (decide (y = x)) as [-> | Hne].
  - left. apply lookup_delete_eq.
  - by rewrite lookup_delete_ne.
Qed.

Lemma data_of_None (h : gmap nat Info.t) (x : nat) :
  data_of h x = None ↔ h !! x = None.
Proof. unfold data_of. by destruct (h !! x). Qed.

(** One round in which the oldest block is the first to complete: the
    blocks that were read are written in stream order, each XORed with
    the key rotated by its index. *)
Lemma parallel_round_spec (key : list Z) (fuel : nat)
    (sched : list nat) (N index : Z) (m : machine) :
  key ≠ [] → Z.of_nat (length key) ≤ 128 →
  0 < N → 0 ≤ index → index + N < 4294967296 →
  (length (reads_until_empty (Z.to_nat N) (length key) (stdin m)).1.1 ≤ 1)%nat
  ∨ (hd 0%nat sched
     mod length (reads_until_empty (Z.to_nat N) (length key) (stdin m)).1.1)%nat
    = 0%nat →
  heap_fresh m → process_queue m = None → completion_queue m = None →
  (129 ≤ fuel)%nat → (Z.to_nat N < fuel)%nat →
  ∃ m',
    Coordinator.parallel_round fuel sched key (Z.of_nat (length key)) N m index
    = Ok (m',
          index + Z.of_nat (length (reads_until_empty (Z.to_nat N) (length key) (stdin m)).1.1),
          drop (length (reads_until_empty (Z.to_nat N) (length key) (stdin m)).1.1) sched,
          Round (Z.of_nat (length (reads_until_empty (Z.to_nat N) (length key) (stdin m)).1.1))
                ((λ c, Z.of_nat (length c)) <$>
                   (reads_until_empty (Z.to_nat N) (length key) (stdin m)).1.1)
                (length (reads_until_empty (Z.to_nat N) (length key) (stdin m)).1.1)
                (reads_until_empty (Z.to_nat N) (length key) (stdin m)).1.2,
          (reads_until_empty (Z.to_nat N) (length key) (stdin m)).1.2) ∧
    stdout m'
    = stdout m ++
      concat (imap (λ j c, xor_block c (rotated key (index + Z.of_nat j)))
                   (reads_until_empty (Z.to_nat N) (length key) (stdin m)).1.1) ∧
    stdin m' = (reads_until_empty (Z.to_nat N) (length key) (stdin m)).2 ∧
    heap_fresh m' ∧ process_queue m' = None ∧ completion_queue m' = None ∧
    (heap m = ∅ → heap m' = ∅).
Proof.
  intros Hne Hlen HN Hindex Hmax Horder Hfresh Hpq Hcq Hfuel HfuelN.
  assert (0 < length key)%nat as Hpos by (destruct key; simpl; [done | lia]).
  destruct (submit_loop_spec (Z.to_nat N) m [] index 0 [] fuel
              (Z.of_nat (length key)) N)
    as (m1 & new & Hsub & Hin1 & Hout1 & Hcq1 & Hpq1 & Hnd1 & Hfresh1
        & Hdata1 & Hold1); try lia; try done.
  { constructor. }
  { simpl. lia. }
  assert (Hdom1 : heap m = ∅ → ∀ x, is_Some (heap m1 !! x) → x ∈ new).
  { intros Hempty.
    edestruct (submit_loop_allocated (Z.to_nat N) m [] index 0 [] fuel
                 (Z.of_nat (length key)) N) as (l' & Hq' & Hdom);
      [exact Hfresh | by rewrite Hpq | constructor | simpl; lia | |
       exact Hsub |].
    - intros x [b Hb]. by rewrite Hempty, lookup_empty in Hb.
    - simpl in Hq', Hdom, Hpq1.
      by rewrite (is_queue_unique _ _ _ _ Hpq1 Hq'). }
  rewrite Nat2Z.id in *. simpl in Hpq1, Hnd1.
  destruct (reads_until_empty_facts (Z.to_nat N) (length key) (stdin m) Hpos)
    as (Hchunks & _ & Hquit & Hfull).
  set (r := reads_until_empty (Z.to_nat N) (length key) (stdin m)) in *.
  assert (length r.1.1 ≤ Z.to_nat N)%nat as Hcount.
  { destruct (r.1.2) eqn:Hq; [specialize (Hquit eq_refl) | specialize (Hfull eq_refl)]; lia. }
  assert (length new = length r.1.1) as Hnew.
  { apply (f_equal length) in Hdata1.
    by rewrite !length_fmap, length_imap in Hdata1. }
  unfold Coordinator.parallel_round. rewrite Hsub, bind_Ok_l.
  cbv beta iota. rewrite Z.add_0_l, Nat2Z.id, <- Hnew.
  rewrite take_blocks_spec by done. rewrite bind_Ok_l. cbv beta iota.
  rewrite uint_small by lia.
  destruct (complete_oldest_first_spec key fuel Hne Hlen Hfuel new
              (set_process_queue m1 None) sched)
    as (m2 & Hrun & Hq2 & Hold2 & Hnew2 & Hbrk2 & Hpq2 & Hin2 & Hout2).
  { by rewrite Hnew. }
  { simpl. by rewrite Hcq1, Hcq. }
  { done. }
  { simpl. rewrite (indices_of_data _ _ _ Hdata1).
    apply submitted_indices_sorted; lia. }
  { simpl. apply Forall_forall. intros x Hx.
    apply list_elem_of_lookup in Hx as (j & Hj).
    apply (f_equal (λ l, l !! j)) in Hdata1.
    rewrite !list_lookup_fmap, Hj in Hdata1. simpl in Hdata1.
    destruct (imap _ _ !! j) as [d|] eqn:Hd; [| done].
    exists d. split; [by injection Hdata1 |].
    eapply (proj1 (Forall_forall _ _)); [| by eapply list_elem_of_lookup_2].
    apply submitted_blocks_workable.
    eapply Forall_impl; [exact Hchunks |]. simpl. intros c [? ?]. done. }
  { simpl. lia. }
  rewrite Hrun, bind_Ok_l. cbv beta iota. simpl in Hq2.
  destruct (drain_spec new m2 (completion_queue m2) 0 fuel)
    as (m3 & Hdrain & Hout3 & Hheap3 & Hbrk3 & Hin3 & Hpq3 & Hcq3);
    [done | done | lia |].
  rewrite Hdrain, bind_Ok_l. cbv beta iota. simpl in *.
  eexists. split; [by rewrite Hnew |]. simpl.
  split_and!; try congruence.
  - rewrite Hout3, Hout2, Hout1. f_equal. f_equal.
    apply list_eq. intros j.
    rewrite list_lookup_fmap, list_lookup_imap.
    apply (f_equal (λ l, l !! j)) in Hdata1.
    rewrite !list_lookup_fmap, list_lookup_imap in Hdata1.
    destruct (new !! j) as [x|] eqn:Hx, (r.1.1 !! j) as [c|] eqn:Hc;
      simpl in *; try done.
    injection Hdata1 as Hdata1. f_equal.
    assert (x ∈ new) as Hxin by (by eapply list_elem_of_lookup_2).
    specialize (Hnew2 x Hxin). rewrite Hdata1 in Hnew2.
    cbn [fmap option_fmap option_map] in Hnew2.
    assert (length c ≤ length key)%nat as Hc'.
    { rewrite Forall_forall in Hchunks.
      apply (Hchunks c). by eapply list_elem_of_lookup_2. }
    pose proof (written_transformed key (Z.of_nat (length key)) index j c Hc')
      as Hw.
    apply lookup_lt_Some in Hc.
    rewrite uint_small in Hw by lia. rewrite <- Hw.
    unfold data_of in Hnew2. destruct (heap m2 !! x) as [b|]; [| done].
    apply (inj Some) in Hnew2. by rewrite <- Hnew2.
  - unfold heap_fresh. simpl. intros x Hx. rewrite Hheap3.
    destruct (lookup_foldr_delete (heap m2) new x) as [-> | ->]; [done |].
    apply data_of_None.
    assert (x ∉ new) as Hxn.
    { intros Hin.
      pose proof (is_queue_below_brk m1 new Hfresh1 Hpq1 x Hin). lia. }
    rewrite Hold2 by done. apply data_of_None. apply Hfresh1. lia.
  - intros Hempty. rewrite Hheap3. apply map_empty. intros x.
    destruct (decide (x ∈ new)) as [Hx | Hx];
      [by apply lookup_foldr_delete_elem |].
    rewrite lookup_foldr_delete_other by done.
    apply data_of_None. rewrite Hold2 by done. apply data_of_None.
    apply eq_None_not_Some. intros Hsome. by apply Hx, Hdom1.
Qed.

(** ** Parallel mode as a function of the input *)

Lemma chunks_nil (n L : nat) : chunks n L [] = [].
Proof. by destruct n. Qed.

Lemma length_reads_rest (todo L : nat) (input : list Z) :
  (0 < L)%nat →
  (length (reads_until_empty todo L input).1.1
   + length (reads_until_empty todo L input).2 ≤ length input)%nat.
Proof.
  intros HL.
  destruct (reads_until_empty_facts todo L input HL) as (Hcs & Hcat & _ & _).
  apply (f_equal length) in Hcat. rewrite length_app in Hcat.
  assert (length (reads_until_empty todo L input).1.1
          ≤ length (concat (reads_until_empty todo L input).1.1))%nat; [| lia].
  clear Hcat.
  induction Hcs as [|c cs [Hc _] _ IH]; simpl; [done |].
  rewrite length_app. destruct c; [done |]. simpl. lia.
Qed.

(** The chunks of the input are the chunks a round reads, then the
    chunks of what the round leaves. *)
Lemma chunks_reads (todo L : nat) :
  (0 < L)%nat →
  ∀ (n : nat) (input : list Z),
  (length input ≤ n)%nat →
  chunks n L input
  = (reads_until_empty todo L input).1.1
      ++ chunks n L (reads_until_empty todo L input).2.
Proof.
  intros HL. induction todo as [|todo IH]; intros n input Hn; [done |].
  destruct input as [|a input].
  { rewrite chunks_nil. simpl. rewrite take_nil. simpl. by rewrite chunks_nil. }
  destruct n as [|n]; [simpl in Hn; lia |].
  rewrite chunks_S by done.
  pose proof (length_reads_rest todo L (drop L (a :: input)) HL) as Hrest.
  assert (length (drop L (a :: input)) ≤ n)%nat as Hdrop.
  { rewrite length_drop. simpl in *. lia. }
  specialize (IH n (drop L (a :: input)) Hdrop).
  cbn [reads_until_empty].
  destruct (take L (a :: input)) as [|b data] eqn:Htake.
  { destruct L; [lia | done]. }
  destruct (reads_until_empty todo L (drop L (a :: input)))
    as [[ds q] rest] eqn:Hreads.
  cbn [fst snd] in *. rewrite IH, <- app_comm_cons. f_equal. f_equal.
  apply chunks_enough; lia.
Qed.

(** Chunk by chunk, the key of the transform is the key rotated by the
    block index. *)
Lemma transform_chunks_app (key : list Z) (cs more : list (list Z)) :
  key ≠ [] → Forall is_byte key →
  ∀ i : nat,
  transform_chunks (rotated key (Z.of_nat i)) (cs ++ more)
  = concat (imap (λ j c, xor_block c (rotated key (Z.of_nat i + Z.of_nat j)))
                 cs)
      ++ transform_chunks (rotated key (Z.of_nat (i + length cs))) more.
Proof.
  intros Hne Hbytes. induction cs as [|c cs IH]; intros i.
  - simpl. by rewrite Nat.add_0_r.
  - rewrite imap_cons. simpl. rewrite Z.add_0_r, <- (assoc_L (++)).
    f_equal. rewrite <- rotated_succ by done. rewrite IH.
    f_equal.
    + f_equal. apply imap_ext. intros j c' _. simpl.
      do 2 f_equal. lia.
    + do 2 f_equal. lia.
Qed.

Lemma block_count_reads (todo L : nat) (input : list Z) :
  (0 < L)%nat →
  block_count L input
  = (length (reads_until_empty todo L input).1.1
     + block_count L (reads_until_empty todo L input).2)%nat.
Proof.
  intros HL. unfold block_count.
  rewrite (chunks_reads todo L HL (length input) input) by done.
  rewrite length_app. f_equal. f_equal.
  apply chunks_enough; [done | | done].
  pose proof (length_reads_rest todo L input HL). lia.
Qed.

Lemma batch_sizes_enough (N : nat) :
  (0 < N)%nat →
  ∀ (f1 f2 M : nat), (M < f1)%nat → (M < f2)%nat →
  batch_sizes f1 N M = batch_sizes f2 N M.
Proof.
  intros HN. induction f1 as [|f1 IH]; intros f2 M H1 H2; [lia |].
  destruct f2 as [|f2]; [lia |]. simpl.
  destruct (M <? N)%nat eqn:HM; [done |].
  apply Nat.ltb_ge in HM. f_equal. apply IH; lia.
Qed.

Lemma in_order_drop (N : Z) (sched : list nat) (k : nat) :
  in_order N sched → in_order N (drop k sched).
Proof. intros [-> | H]; [by left | right]. by apply Forall_drop. Qed.

(** The loop of parallel mode, when in every batch the oldest block
    completes first: the output is the transform of the input, and the
    batches are full until the end of the input is met. *)
Lemma parallel_loop_spec (key : list Z) (N : Z) (fuel : nat) :
  key ≠ [] → Forall is_byte key → Z.of_nat (length key) ≤ 128 → 0 < N →
  (129 ≤ fuel)%nat → (Z.to_nat N < fuel)%nat →
  ∀ (rounds : nat) (sched : list nat) (m : machine) (i : nat)
    (log : list round),
  oldest_first
    (batch_sizes rounds (Z.to_nat N) (block_count (length key) (stdin m)))
    sched →
  heap_fresh m → process_queue m = None → completion_queue m = None →
  Z.of_nat i + Z.of_nat (length (stdin m)) + N < 4294967296 →
  (length (stdin m) < rounds)%nat →
  ∃ m' log',
    Coordinator.parallel_loop rounds fuel sched key (Z.of_nat (length key)) N
                              m (Z.of_nat i) log
    = Ok (m', log') ∧
    stdout m'
    = stdout m ++
      transform_chunks (rotated key (Z.of_nat i))
        (chunks (length (stdin m)) (length key) (stdin m)) ∧
    batch <$> log'
    = (batch <$> log) ++
      ((λ k, (Z.of_nat k, k)) <$>
         batch_sizes rounds (Z.to_nat N) (block_count (length key) (stdin m))) ∧
    stdin m' = [] ∧ process_queue m' = None ∧ completion_queue m' = None ∧
    (heap m = ∅ → heap m' = ∅).
Proof.
  intros Hne Hbytes Hlen HN Hfuel HfuelN.
  assert (0 < length key)%nat as Hpos by (destruct key; simpl; [done | lia]).
  induction rounds as [|rounds IH];
    intros sched m i log Horder Hfresh Hpq Hcq Hmax Hrounds; [lia |].
  destruct (reads_until_empty_facts (Z.to_nat N) (length key) (stdin m) Hpos)
    as (_ & _ & Hquit & Hfull).
  pose proof (length_reads_rest (Z.to_nat N) (length key) (stdin m) Hpos)
    as Hrest.
  pose proof (chunks_reads (Z.to_nat N) (length key) Hpos
                (length (stdin m)) (stdin m) (le_n _)) as Hchunks.
  pose proof (block_count_reads (Z.to_nat N) (length key) (stdin m) Hpos)
    as Hcount.
  cbn [batch_sizes] in Horder.
  assert (Hbatch :
    (if (block_count (length key) (stdin m) <? Z.to_nat N)%nat
     then (reads_until_empty (Z.to_nat N) (length key) (stdin m)).1.2 = true
     else (reads_until_empty (Z.to_nat N) (length key) (stdin m)).1.2
          = false)).
  { destruct ((reads_until_empty (Z.to_nat N) (length key) (stdin m)).1.2)
      eqn:Hq.
    - destruct (Hquit eq_refl) as [Hnil Hshort]. rewrite Hnil in Hcount.
      change (block_count (length key) []) with 0%nat in Hcount.
      apply Nat.ltb_lt in Hshort.
      by rewrite Hcount, Nat.add_0_r, Hshort.
    - specialize (Hfull eq_refl).
      assert ((block_count (length key) (stdin m) <? Z.to_nat N)%nat = false)
        as ->; [apply Nat.ltb_ge; lia | done]. }
  assert (Hfirst :
    (length (reads_until_empty (Z.to_nat N) (length key) (stdin m)).1.1
     ≤ 1)%nat
    ∨ (hd 0%nat sched
       mod length (reads_until_empty (Z.to_nat N) (length key)
                     (stdin m)).1.1)%nat = 0%nat).
  { destruct (block_count (length key) (stdin m) <? Z.to_nat N)%nat.
    - destruct (Hquit Hbatch) as [Hnil _]. rewrite Hnil in Hcount.
      change (block_count (length key) []) with 0%nat in Hcount.
      rewrite Nat.add_0_r in Hcount. rewrite <- Hcount.
      by destruct Horder as [? _].
    - rewrite (Hfull Hbatch). by destruct Horder as [? _]. }
  destruct (parallel_round_spec key fuel sched N (Z.of_nat i) m)
    as (m1 & Hround & Hout1 & Hin1 & Hfresh1 & Hpq1 & Hcq1 & Hempty1);
    try done; try lia.
  cbn [Coordinator.parallel_loop]. rewrite Hround, bind_Ok_l. cbv beta iota.
  destruct ((reads_until_empty (Z.to_nat N) (length key) (stdin m)).1.2)
    eqn:Hq.
  - destruct (Hquit eq_refl) as [Hnil Hshort]. rewrite Hnil in *.
    exists m1. eexists. split; [done |]. split_and!; try done.
    + rewrite Hout1, Hchunks, transform_chunks_app by done.
      by rewrite chunks_nil, app_nil_r.
    + rewrite fmap_app. f_equal. cbn [batch_sizes].
      change (block_count (length key) []) with 0%nat in Hcount.
      rewrite Nat.add_0_r in Hcount. rewrite Hcount.
      apply Nat.ltb_lt in Hshort. by rewrite Hshort.
  - specialize (Hfull eq_refl).
    replace (Z.of_nat i + Z.of_nat (length (reads_until_empty (Z.to_nat N)
                                             (length key) (stdin m)).1.1))
      with (Z.of_nat (i + Z.to_nat N)) by lia.
    edestruct (IH (drop (length (reads_until_empty (Z.to_nat N)
                                   (length key) (stdin m)).1.1) sched)
                 m1 (i + Z.to_nat N)%nat)
      as (m' & log' & Hloop & Hout' & Hlog' & Hin' & Hpq' & Hcq' & Hempty');
      [| done | done | done | rewrite Hin1; lia | rewrite Hin1; lia |].
    { assert ((block_count (length key) (stdin m) <? Z.to_nat N)%nat = false)
        as E by (apply Nat.ltb_ge; lia).
      rewrite E in Horder. destruct Horder as [_ Horder].
      rewrite Hin1, Hfull.
      replace (block_count (length key)
                 (reads_until_empty (Z.to_nat N) (length key) (stdin m)).2)
        with (block_count (length key) (stdin m) - Z.to_nat N)%nat by lia.
      done. }
    exists m', log'. split; [exact Hloop |].
    split_and!; [| | done | done | done | by intros H; apply Hempty', Hempty1].
    + rewrite Hout', Hout1, Hin1, Hchunks, transform_chunks_app by done.
      rewrite <- (assoc_L (++)), Hfull. do 3 f_equal.
      apply chunks_enough; [done | done | lia].
    + rewrite Hlog', fmap_app, <- (assoc_L (++)). f_equal.
      cbn [batch_sizes]. rewrite Hin1.
      assert ((block_count (length key) (stdin m) <? Z.to_nat N)%nat = false)
        as ->.
      { apply Nat.ltb_ge. lia. }
      rewrite Hcount, Hfull. simpl. do 3 f_equal; lia.
Qed.

Lemma batch_sizes_le (N : nat) (fuel : nat) :
  ∀ M : nat, Forall (λ k, (k ≤ N)%nat) (batch_sizes fuel N M).
Proof.
  induction fuel as [|fuel IH]; intros M; simpl; [constructor |].
  destruct (Nat.ltb_spec M N).
  - constructor; [lia | constructor].
  - constructor; [lia | apply IH].
Qed.

(** Batches that complete in submission order have their oldest block
    first. *)
Lemma in_order_oldest_first (N : Z) (sizes : list nat) :
  Forall (λ k, (k ≤ Z.to_nat N)%nat) sizes →
  ∀ sched : list nat, in_order N sched → oldest_first sizes sched.
Proof.
  induction 1 as [|k sizes Hk _ IH]; intros sched Horder; [done |].
  split; [| by apply IH, in_order_drop].
  destruct Horder as [-> | Hzero]; [left; simpl in Hk; lia | right].
  destruct Hzero as [|n sched' -> _]; simpl; apply Nat.Div0.mod_0_l.
Qed.

(** The loop of parallel mode, when the blocks of every batch complete in
    submission order. *)
Lemma parallel_loop_in_order_spec (key : list Z) (N : Z) (fuel : nat) :
  key ≠ [] → Forall is_byte key → Z.of_nat (length key) ≤ 128 → 0 < N →
  (129 ≤ fuel)%nat → (Z.to_nat N < fuel)%nat →
  ∀ (rounds : nat) (sched : list nat) (m : machine) (i : nat)
    (log : list round),
  in_order N sched →
  heap_fresh m → process_queue m = None → completion_queue m = None →
  Z.of_nat i + Z.of_nat (length (stdin m)) + N < 4294967296 →
  (length (stdin m) < rounds)%nat →
  ∃ m' log',
    Coordinator.parallel_loop rounds fuel sched key (Z.of_nat (length key)) N
                              m (Z.of_nat i) log
    = Ok (m', log') ∧
    stdout m'
    = stdout m ++
      transform_chunks (rotated key (Z.of_nat i))
        (chunks (length (stdin m)) (length key) (stdin m)) ∧
    batch <$> log'
    = (batch <$> log) ++
      ((λ k, (Z.of_nat k, k)) <$>
         batch_sizes rounds (Z.to_nat N) (block_count (length key) (stdin m))) ∧
    stdin m' = [] ∧ process_queue m' = None ∧ completion_queue m' = None ∧
    (heap m = ∅ → heap m' = ∅).
Proof.
  intros Hne Hbytes Hlen HN Hfuel HfuelN rounds sched m i log Horder.
  apply parallel_loop_spec; try done.
  apply (in_order_oldest_first N); [apply batch_sizes_le | done].
Qed.

(** Parallel mode on a key of at most 128 bytes, when the blocks of every
    batch complete in submission order (one worker, or a pool whose
    workers finish oldest block first): the output is the transform of the
    input, and the batches are as many as the blocks ask for. *)
Lemma encrypt_execute_parallel_in_order_spec (fuel : nat) (sched : list nat)
    (key input : list Z) (N : Z) :
  key ≠ [] → Forall is_byte key → Z.of_nat (length key) ≤ 128 → 0 < N →
  in_order N sched →
  Z.of_nat (length input) + N < 4294967296 →
  (129 ≤ fuel)%nat → (Z.to_nat N < fuel)%nat → (length input < fuel)%nat →
  ∃ log,
    Coordinator.encrypt_execute_parallel fuel sched key
                                         (Z.of_nat (length key)) N input
    = Ok (transform key input, log) ∧
    batch <$> log
    = (λ k, (Z.of_nat k, k)) <$>
        batch_sizes fuel (Z.to_nat N) (block_count (length key) input).
Proof.
  intros Hne Hbytes Hlen HN Horder Hmax Hfuel HfuelN Hinput.
  assert (0 < length key)%nat as Hpos by (destruct key; simpl; [done | lia]).
  unfold Coordinator.encrypt_execute_parallel.
  assert ((0 <? Z.of_nat (length key)) && (0 <? N) = true) as ->.
  { apply andb_true_iff. split; apply Z.ltb_lt; lia. }
  destruct (parallel_loop_in_order_spec key N fuel Hne Hbytes Hlen HN Hfuel
              HfuelN fuel sched (Coordinator.start input) 0 [])
    as (m' & log' & Hloop & Hout & Hlog & _); try done.
  change (Z.of_nat 0) with 0 in Hloop. rewrite Hloop, bind_Ok_l.
  exists log'. split; [| exact Hlog].
  cbv beta iota. rewrite Hout. simpl.
  by rewrite (rotated_iter key 0 Hne Hbytes).
Qed.


Lemma block_count_exact (L : nat) :
  (0 < L)%nat →
  ∀ (k n : nat) (input : list Z),
  length input = (k * L)%nat → (length input ≤ n)%nat →
  length (chunks n L input) = k.
Proof.
  intros HL. induction k as [|k IH]; intros n input Hk Hn.
  - destruct input; [by rewrite chunks_nil | done].
  - destruct input as [|a input]; [simpl in Hk; lia |].
    destruct n as [|n]; [simpl in Hn; lia |].
    rewrite chunks_S by done. simpl. f_equal.
    apply IH; rewrite length_drop; simpl in *; lia.
Qed.

(** Ten whole blocks through a pool of four workers that complete in
    submission order: three batches, of four, four and two blocks. *)
Lemma ten_blocks_in_order (fuel : nat) (sched : list nat)
    (key input : list Z) :
  key ≠ [] → Forall is_byte key → Z.of_nat (length key) ≤ 128 →
  length input = (10 * length key)%nat →
  Forall (λ n, n = 0%nat) sched →
  (1281 ≤ fuel)%nat →
  ∃ log,
    Coordinator.encrypt_execute_parallel fuel sched key
                                         (Z.of_nat (length key)) 4 input
    = Ok (transform key input, log) ∧
    batch <$> log = [(4, 4%nat); (4, 4%nat); (2, 2%nat)].
Proof.
  intros Hne Hbytes Hlen Hinput Hsched Hfuel.
  assert (0 < length key)%nat as Hpos by (destruct key; simpl; [done | lia]).
  destruct (encrypt_execute_parallel_in_order_spec fuel sched key input 4)
    as (log & Hpar & Hlog); try done; try lia.
  { by right. }
  exists log. split; [done |]. rewrite Hlog.
  unfold block_count.
  rewrite (block_count_exact (length key) Hpos 10 (length input) input)
    by done.
  change (Z.to_nat 4) with 4%nat.
  rewrite (batch_sizes_enough 4 (Nat.lt_0_succ _) fuel 11 10) by lia.
  done.
Qed.


(** ** The reduction of the shift *)


(** A key of [2^29] bytes: [keylength * 8] wraps to 0 and the reduction
    takes a remainder by zero. *)
Lemma rotate_key_remainder_by_zero (fuel : nat) (key : list Z) (shift : Z) :
  uint (536870912 * 8) = 0 ∧
  Rotate.encrypt_rotate_key fuel key 536870912 shift = Fault.
Proof. done. Qed.

(** * The components, one by one *)

(** ** The rotation engine never leaves the key *)





(** ** The rotation engine *)

(** X1 ([compute_gcd]).  On two numbers that are not negative the
    recursion ends, and its result is their greatest common divisor: it
    divides both, and every common divisor divides it. *)
Theorem compute_gcd_is_the_gcd (a b : Z) :
  0 ≤ a → 0 ≤ b →
  ∃ g, Rotate.compute_gcd a b = Ok g ∧
       0 ≤ g ∧ (g | a) ∧ (g | b) ∧
       ∀ d, (d | a) → (d | b) → (d | g).
Proof.
  intros Ha Hb. exists (Z.gcd a b). split_and!.
  - by apply compute_gcd_spec.
  - apply Z.gcd_nonneg.
  - apply Z.gcd_divide_l.
  - apply Z.gcd_divide_r.
  - intros d Hda Hdb. by apply Z.gcd_greatest.
Qed.

Lemma compute_gcd_is_the_gcd_witness :
  ∃ g, Rotate.compute_gcd 12 18 = Ok g ∧
       0 ≤ g ∧ (g | 12) ∧ (g | 18) ∧
       ∀ d, (d | 12) → (d | 18) → (d | g).
Proof. apply (compute_gcd_is_the_gcd 12 18); lia. Defined.

(** X2 ([encrypt_rotate_key_bytes]).  On a key of at most 128 bytes and
    a byte shift [0 < shift < keylength] the cycle walk ends and rotates
    the bytes to the left: byte [i] of the result is byte
    [(i + shift) mod keylength] of the key. *)
Theorem rotate_key_bytes_moves_every_byte (fuel : nat) (key : list Z)
    (shift : Z) :
  Z.of_nat (length key) ≤ 128 →
  0 < shift < Z.of_nat (length key) →
  (129 ≤ fuel)%nat →
  ∃ key',
    Rotate.encrypt_rotate_key_bytes fuel key (Z.of_nat (length key)) shift
    = Ok key' ∧
    length key' = length key ∧
    ∀ i, (i < length key)%nat →
         key' !! i = key !! ((i + Z.to_nat shift) mod length key)%nat.
Proof.
  intros Hlen Hshift Hfuel. exists (rotate (Z.to_nat shift) key).
  split_and!.
  - by apply encrypt_rotate_key_bytes_spec.
  - apply length_rotate.
  - intros i Hi. rewrite lookup_rotate_r by done. f_equal.
    unfold rotate_nat_add.
    rewrite <- Nat2Z.inj_add, <- Nat2Z.inj_mod, Nat2Z.id.
    f_equal. lia.
Qed.

Lemma rotate_key_bytes_moves_every_byte_witness :
  ∃ key',
    Rotate.encrypt_rotate_key_bytes 129 [10; 20; 30; 40; 50; 60]
      (Z.of_nat (length [10; 20; 30; 40; 50; 60])) 4
    = Ok key' ∧
    length key' = length [10; 20; 30; 40; 50; 60] ∧
    ∀ i, (i < length [10; 20; 30; 40; 50; 60])%nat →
         key' !! i
         = [10; 20; 30; 40; 50; 60]
             !! ((i + Z.to_nat 4) mod length [10; 20; 30; 40; 50; 60])%nat.
Proof.
  apply (rotate_key_bytes_moves_every_byte 129 [10; 20; 30; 40; 50; 60] 4);
    simpl; lia.
Defined.

(** X3 ([encrypt_rotate_key]).  On a key of at most 128 bytes the call
    returns, for every shift, and the key, read as a bit string with the
    most significant bit of byte 0 first, has been rotated to the left
    by [shift] bits (rotations by a multiple of the bit length are the
    identity). *)
Theorem rotate_key_rotates_the_bit_string (fuel : nat) (key : list Z)
    (shift : Z) :
  key ≠ [] → Z.of_nat (length key) ≤ 128 → Forall is_byte key →
  0 ≤ shift → (129 ≤ fuel)%nat →
  ∃ key',
    Rotate.encrypt_rotate_key fuel key (Z.of_nat (length key)) shift
    = Ok key' ∧
    length key' = length key ∧
    Forall is_byte key' ∧
    key_bits key' = rotate (Z.to_nat shift) (key_bits key).
Proof.
  intros Hne Hlen Hbytes Hshift Hfuel. exists (rotated key shift).
  split_and!.
  - by apply encrypt_rotate_key_spec.
  - apply length_rotated.
  - by apply rotated_bytes.
  - by apply key_bits_rotated.
Qed.

Lemma rotate_key_rotates_the_bit_string_witness :
  ∃ key',
    Rotate.encrypt_rotate_key 129 [1; 0; 128]
                              (Z.of_nat (length [1; 0; 128])) 13
    = Ok key' ∧
    length key' = length [1; 0; 128] ∧
    Forall is_byte key' ∧
    key_bits key' = rotate (Z.to_nat 13) (key_bits [1; 0; 128]).
Proof.
  apply (rotate_key_rotates_the_bit_string 129 [1; 0; 128] 13).
  - done.
  - simpl. lia.
  - repeat constructor; unfold is_byte; lia.
  - lia.
  - lia.
Defined.

(** X4 ([encrypt_rotate_key]).  On a key of at most 128 bytes the
    rotations compose: a rotation by 0 changes nothing, and a rotation
    by [a] followed by one by [b] leaves the key a single rotation by
    [a + b] leaves, which is also what the rotation by [a + b] reduced
    modulo the bit length leaves. *)
Theorem rotate_key_composes_on_short_keys (fuel : nat) (key : list Z)
    (a b : Z) :
  key ≠ [] → Z.of_nat (length key) ≤ 128 → Forall is_byte key →
  0 ≤ a → 0 ≤ b → (129 ≤ fuel)%nat →
  Rotate.encrypt_rotate_key fuel key (Z.of_nat (length key)) 0 = Ok key ∧
  ∃ k1 k2,
    Rotate.encrypt_rotate_key fuel key (Z.of_nat (length key)) a = Ok k1 ∧
    Rotate.encrypt_rotate_key fuel k1 (Z.of_nat (length key)) b = Ok k2 ∧
    Rotate.encrypt_rotate_key fuel key (Z.of_nat (length key)) (a + b)
    = Ok k2 ∧
    Rotate.encrypt_rotate_key fuel key (Z.of_nat (length key))
      ((a + b) mod (8 * Z.of_nat (length key))) = Ok k2.
Proof.
  intros Hne Hlen Hbytes Ha Hb Hfuel.
  destruct (rotate_group_law_short_keys fuel key a b)
    as (H0 & k1 & k2 & H1 & H2 & H3); try done.
  split; [done |]. exists k1, k2. split_and!; try done.
  assert (0 < length key)%nat by (destruct key; simpl; [done | lia]).
  rewrite encrypt_rotate_key_spec in H3 |- * by (done || lia
    || (apply Z.mod_pos_bound; lia)).
  rewrite <- H3. f_equal. apply key_bits_inj; try by apply rotated_bytes.
  rewrite !key_bits_rotated by (done || lia || (apply Z.mod_pos_bound; lia)).
  rewrite <- (rotate_mod (Z.to_nat (a + b))).
  rewrite <- (rotate_mod (Z.to_nat ((a + b) mod _))).
  f_equal. rewrite length_key_bits.
  apply Nat2Z.inj. rewrite !Nat2Z.inj_mod, !Z2Nat.id
    by (lia || (apply Z.mod_pos_bound; lia)).
  replace (Z.of_nat (8 * length key)) with (8 * Z.of_nat (length key)) by lia.
  by rewrite Z.mod_mod by lia.
Qed.

Lemma rotate_key_composes_on_short_keys_witness :
  Rotate.encrypt_rotate_key 129 [1; 0; 128] (Z.of_nat (length [1; 0; 128])) 0
  = Ok [1; 0; 128] ∧
  ∃ k1 k2,
    Rotate.encrypt_rotate_key 129 [1; 0; 128]
                              (Z.of_nat (length [1; 0; 128])) 13 = Ok k1 ∧
    Rotate.encrypt_rotate_key 129 k1 (Z.of_nat (length [1; 0; 128])) 20
    = Ok k2 ∧
    Rotate.encrypt_rotate_key 129 [1; 0; 128]
                              (Z.of_nat (length [1; 0; 128])) (13 + 20)
    = Ok k2 ∧
    Rotate.encrypt_rotate_key 129 [1; 0; 128]
      (Z.of_nat (length [1; 0; 128]))
      ((13 + 20) mod (8 * Z.of_nat (length [1; 0; 128]))) = Ok k2.
Proof.
  apply (rotate_key_composes_on_short_keys 129 [1; 0; 128] 13 20).
  - done.
  - simpl. lia.
  - repeat constructor; unfold is_byte; lia.
  - lia.
  - lia.
  - lia.
Defined.



(** ** The block cipher *)

(** X6 ([encrypt_block]).  With [length] valid bytes in the block and a
    key that is at least as long, every valid byte is XORed with the key
    byte of the same position; the bytes behind them, and the size of
    the buffer, are left as they were. *)
Theorem encrypt_block_xors_the_valid_bytes (block key : list Z) (len : Z) :
  0 ≤ len → (Z.to_nat len ≤ length block)%nat →
  len ≤ Z.of_nat (length key) → Z.of_nat (length key) < 4294967296 →
  ∃ block',
    encrypt_block block len key (Z.of_nat (length key)) = Ok block' ∧
    length block' = length block ∧
    (∀ i b k, (i < Z.to_nat len)%nat → block !! i = Some b →
              key !! i = Some k → block' !! i = Some (Z.lxor b k)) ∧
    (∀ i, (Z.to_nat len ≤ i)%nat → block' !! i = block !! i).
Proof.
  intros H0 Hblock Hkey Hmax.
  pose proof (encrypt_block_spec (take (Z.to_nat len) block)
                (drop (Z.to_nat len) block) key) as Hspec.
  rewrite take_drop, length_take, Nat.min_l, Z2Nat.id in Hspec by lia.
  assert (length (xor_block (take (Z.to_nat len) block) key) = Z.to_nat len)
    as Hlen by (rewrite length_xor_block; rewrite length_take; lia).
  eexists. split_and!.
  - apply Hspec; lia.
  - rewrite length_app, Hlen, length_drop. lia.
  - intros i b k Hi Hb Hk. rewrite lookup_app_l by lia.
    unfold xor_block. rewrite lookup_zip_with, lookup_take_lt by lia.
    by rewrite Hb, Hk.
  - intros i Hi. rewrite lookup_app_r by lia.
    rewrite Hlen, lookup_drop. f_equal. lia.
Qed.

Lemma encrypt_block_xors_the_valid_bytes_witness :
  ∃ block',
    encrypt_block [1; 2; 3; 4] 3 [255; 15; 240]
                  (Z.of_nat (length [255; 15; 240])) = Ok block' ∧
    length block' = length [1; 2; 3; 4] ∧
    (∀ i b k, (i < Z.to_nat 3)%nat → [1; 2; 3; 4] !! i = Some b →
              [255; 15; 240] !! i = Some k →
              block' !! i = Some (Z.lxor b k)) ∧
    (∀ i, (Z.to_nat 3 ≤ i)%nat → block' !! i = [1; 2; 3; 4] !! i).
Proof.
  apply (encrypt_block_xors_the_valid_bytes [1; 2; 3; 4] [255; 15; 240] 3);
    simpl; lia.
Defined.

(** X7 ([encrypt_block]).  Applied twice with the same key, the cipher
    gives the block back. *)
Theorem encrypt_block_twice_is_the_identity (block key : list Z) (len : Z) :
  0 ≤ len → (Z.to_nat len ≤ length block)%nat →
  len ≤ Z.of_nat (length key) → Z.of_nat (length key) < 4294967296 →
  ∃ block',
    encrypt_block block len key (Z.of_nat (length key)) = Ok block' ∧
    encrypt_block block' len key (Z.of_nat (length key)) = Ok block.
Proof.
  intros H0 Hblock Hkey Hmax.
  pose proof (encrypt_block_spec (take (Z.to_nat len) block)
                (drop (Z.to_nat len) block) key) as Hspec.
  rewrite take_drop, length_take, Nat.min_l, Z2Nat.id in Hspec by lia.
  assert (length (xor_block (take (Z.to_nat len) block) key) = Z.to_nat len)
    as Hlen by (rewrite length_xor_block; rewrite length_take; lia).
  eexists. split; [apply Hspec; lia |].
  pose proof (encrypt_block_spec (xor_block (take (Z.to_nat len) block) key)
                (drop (Z.to_nat len) block) key) as Hback.
  rewrite Hlen, Z2Nat.id in Hback by lia.
  rewrite Hback by lia.
  rewrite xor_block_involutive by (rewrite length_take; lia).
  by rewrite take_drop.
Qed.

Lemma encrypt_block_twice_is_the_identity_witness :
  ∃ block',
    encrypt_block [1; 2; 3; 4] 3 [255; 15; 240]
                  (Z.of_nat (length [255; 15; 240])) = Ok block' ∧
    encrypt_block block' 3 [255; 15; 240]
                  (Z.of_nat (length [255; 15; 240])) = Ok [1; 2; 3; 4].
Proof.
  apply (encrypt_block_twice_is_the_identity [1; 2; 3; 4] [255; 15; 240] 3);
    simpl; lia.
Defined.

(** ** The two queues *)

Lemma two_blocks_queue (process completion : option nat) (x : nat) :
  (x = 0 ∨ x = 1)%nat →
  is_seg (heap (two_blocks process completion)) (Some x) None [x].
Proof.
  intros [-> | ->]; (split; [done |]).
  - exists (Info.mk 0 [7] 1 None). split; [apply lookup_insert_eq | done].
  - exists (Info.mk 1 [9] 1 None). split; [| done].
    simpl. rewrite lookup_insert_ne by done. apply lookup_insert_eq.
Qed.

(** X8 (the coordinator's append, [encrypt_execute_parallel]).  A block
    that is not yet queued goes behind the last block of the process
    queue; no block's index, buffer or length changes, and neither do
    the completion queue and the two streams. *)
Theorem submit_appends_at_the_tail (m : machine) (l : list nat) (info : nat)
    (ib : Info.t) (fuel : nat) :
  is_queue (heap m) (process_queue m) l → NoDup l → info ∉ l →
  heap m !! info = Some ib → Info.next ib = None →
  (length l < fuel)%nat →
  ∃ m', Coordinator.submit fuel m info = Ok m' ∧
        is_queue (heap m') (process_queue m') (l ++ [info]) ∧
        NoDup (l ++ [info]) ∧
        (∀ x, data_of (heap m') x = data_of (heap m) x) ∧
        stdin m' = stdin m ∧ stdout m' = stdout m ∧
        completion_queue m' = completion_queue m.
Proof.
  intros Hq Hnd Hinfo Hib Hnext Hfuel.
  destruct (submit_spec m l info ib fuel Hq Hnd Hinfo Hib Hnext Hfuel)
    as (m' & Hsub & Hq' & Hdata & _ & Hin & Hout & Hcq).
  exists m'. split_and!; try done.
  apply NoDup_app. split; [done |]. split; [| apply NoDup_singleton].
  intros x Hx Hx'. apply list_elem_of_singleton in Hx' as ->. done.
Qed.

Lemma submit_appends_at_the_tail_witness :
  ∃ m', Coordinator.submit 2 (two_blocks (Some 0%nat) None) 1%nat = Ok m' ∧
        is_queue (heap m') (process_queue m') ([0%nat] ++ [1%nat]) ∧
        NoDup ([0%nat] ++ [1%nat]) ∧
        (∀ x, data_of (heap m') x
              = data_of (heap (two_blocks (Some 0%nat) None)) x) ∧
        stdin m' = stdin (two_blocks (Some 0%nat) None) ∧
        stdout m' = stdout (two_blocks (Some 0%nat) None) ∧
        completion_queue m' = completion_queue (two_blocks (Some 0%nat) None).
Proof.
  apply (submit_appends_at_the_tail (two_blocks (Some 0%nat) None) [0%nat]
           1%nat (Info.mk 1 [9] 1 None) 2).
  - apply two_blocks_queue. by left.
  - apply NoDup_singleton.
  - intros H. apply list_elem_of_singleton in H. discriminate.
  - simpl. rewrite lookup_insert_ne by done. apply lookup_insert_eq.
  - reflexivity.
  - simpl. lia.
Defined.

Lemma take_blocks_more (l : list nat) :
  ∀ (m : machine) (posts : nat),
  is_queue (heap m) (process_queue m) l → (length l ≤ posts)%nat →
  Coordinator.take_blocks posts m = Ok (set_process_queue m None, l).
Proof.
  induction l as [|x l IH]; intros m posts Hq Hposts.
  - unfold is_queue in Hq. simpl in Hq.
    destruct posts as [|posts]; simpl.
    + destruct m; simpl in *. by subst.
    + unfold Worker.pop. rewrite Hq. simpl. destruct m; simpl in *. by subst.
  - destruct posts as [|posts]; [simpl in Hposts; lia |].
    destruct Hq as (Hp & b & Hb & Hrest). simpl.
    unfold Worker.pop, load. rewrite Hp, Hb. simpl.
    rewrite (IH (set_process_queue m (Info.next b)) posts);
      [done | done | simpl in Hposts; lia].
Qed.

(** X9 (the worker's pop, [encrypt_thread]).  Workers that are woken at
    least as many times as the process queue has blocks take the blocks
    in queue order, the head first, and leave the queue empty; nothing
    else changes. *)
Theorem workers_take_blocks_in_queue_order (l : list nat) (m : machine)
    (posts : nat) :
  is_queue (heap m) (process_queue m) l → (length l ≤ posts)%nat →
  ∃ m', Coordinator.take_blocks posts m = Ok (m', l) ∧
        process_queue m' = None ∧ heap m' = heap m ∧
        completion_queue m' = completion_queue m ∧
        stdin m' = stdin m ∧ stdout m' = stdout m.
Proof.
  intros Hq Hposts. exists (set_process_queue m None).
  split; [by apply take_blocks_more | done].
Qed.

Lemma workers_take_blocks_in_queue_order_witness :
  ∃ m', Coordinator.take_blocks 3 (two_blocks (Some 0%nat) None)
        = Ok (m', [0%nat]) ∧
        process_queue m' = None ∧
        heap m' = heap (two_blocks (Some 0%nat) None) ∧
        completion_queue m' = completion_queue (two_blocks (Some 0%nat) None) ∧
        stdin m' = stdin (two_blocks (Some 0%nat) None) ∧
        stdout m' = stdout (two_blocks (Some 0%nat) None).
Proof.
  apply (workers_take_blocks_in_queue_order [0%nat]
           (two_blocks (Some 0%nat) None) 3).
  - apply two_blocks_queue. by left.
  - simpl. lia.
Defined.

(** X10 (the worker's insertion, [encrypt_thread]).  When the completion
    queue is sorted by block index and the new block's index is not in
    it and is larger than the index of its head (or the queue is empty),
    the insertion puts the block at the place that keeps the queue
    sorted; the blocks that were queued stay queued, in their order, and
    no block's index, buffer or length changes. *)
Theorem insert_behind_the_head_keeps_the_queue_sorted (m : machine)
    (l : list nat) (info : nat) (ib : Info.t) (fuel : nat) :
  is_queue (heap m) (completion_queue m) l →
  NoDup (info :: l) →
  heap m !! info = Some ib →
  StronglySorted Z.lt (indices (heap m) l) →
  Info.index ib ∉ indices (heap m) l →
  (∀ x, head l = Some x → index_at (heap m) x < Info.index ib) →
  (length l < fuel)%nat →
  ∃ m' l1 l2,
    Worker.insert fuel m info = Ok m' ∧
    l = l1 ++ l2 ∧
    is_queue (heap m') (completion_queue m') (l1 ++ info :: l2) ∧
    StronglySorted Z.lt (indices (heap m') (l1 ++ info :: l2)) ∧
    (∀ x, data_of (heap m') x = data_of (heap m) x) ∧
    process_queue m' = process_queue m ∧
    stdin m' = stdin m ∧ stdout m' = stdout m.
Proof.
  intros Hq Hnd Hib Hsorted Hnew Hhead Hfuel.
  destruct (insert_sorted_spec m l info ib fuel Hq Hnd Hib Hsorted Hnew
              Hhead Hfuel)
    as (m' & l1 & l2 & Hins & Hl & Hq' & Hsorted' & Hdata & _ & Hpq & Hin
        & Hout).
  by exists m', l1, l2.
Qed.

Lemma insert_behind_the_head_keeps_the_queue_sorted_witness :
  ∃ m' l1 l2,
    Worker.insert 2 (two_blocks None (Some 0%nat)) 1%nat = Ok m' ∧
    [0%nat] = l1 ++ l2 ∧
    is_queue (heap m') (completion_queue m') (l1 ++ 1%nat :: l2) ∧
    StronglySorted Z.lt (indices (heap m') (l1 ++ 1%nat :: l2)) ∧
    (∀ x, data_of (heap m') x
          = data_of (heap (two_blocks None (Some 0%nat))) x) ∧
    process_queue m' = process_queue (two_blocks None (Some 0%nat)) ∧
    stdin m' = stdin (two_blocks None (Some 0%nat)) ∧
    stdout m' = stdout (two_blocks None (Some 0%nat)).
Proof.
  apply (insert_behind_the_head_keeps_the_queue_sorted
           (two_blocks None (Some 0%nat)) [0%nat] 1%nat
           (Info.mk 1 [9] 1 None) 2).
  - apply two_blocks_queue. by left.
  - apply NoDup_cons. split; [| apply NoDup_singleton].
    intros H. apply list_elem_of_singleton in H. discriminate.
  - simpl. rewrite lookup_insert_ne by done. apply lookup_insert_eq.
  - repeat constructor.
  - intros H. apply list_elem_of_singleton in H. discriminate.
  - intros x [= <-]. reflexivity.
  - simpl. lia.
Defined.



(** ** The end of the pool *)

Lemma free_queue_spec (l : list nat) :
  ∀ (h : gmap nat Info.t) (current : option nat) (fuel : nat),
  is_queue h current l → NoDup l → (length l < fuel)%nat →
  Context.free_queue fuel h current = Ok (foldr delete h l).
Proof.
  induction l as [|x l IH]; intros h current fuel Hq Hnd Hfuel;
    (destruct fuel as [|fuel]; [simpl in Hfuel; lia |]).
  - unfold is_queue in Hq. simpl in Hq. by subst current.
  - destruct Hq as (-> & b & Hb & Hrest).
    apply NoDup_cons in Hnd as [Hx Hnd].
    simpl Context.free_queue. unfold encrypt_block_deinit, load.
    rewrite Hb. simpl.
    rewrite (IH (delete x h) (Info.next b) fuel);
      [| by apply is_seg_delete_ne | done | simpl in Hfuel; lia].
    f_equal. clear -Hx. induction l as [|y l IH]; [done |].
    apply not_elem_of_cons in Hx as [Hxy Hx]. simpl.
    rewrite IH by done. apply delete_delete.
Qed.

(** X12 ([encrypt_context_deinit]).  Whatever blocks the two queues
    still hold, as long as no block is in both or twice in one, are
    released, every other descriptor is left alone, both queue heads are
    cleared and the streams are not touched. *)
Theorem context_deinit_releases_both_queues (m : machine)
    (done_ todo : list nat) (fuel : nat) :
  is_queue (heap m) (completion_queue m) done_ →
  is_queue (heap m) (process_queue m) todo →
  NoDup (done_ ++ todo) →
  (length done_ < fuel)%nat → (length todo < fuel)%nat →
  ∃ m',
    Context.encrypt_context_deinit fuel m = Ok m' ∧
    (∀ x, x ∈ done_ ++ todo → heap m' !! x = None) ∧
    (∀ x, x ∉ done_ ++ todo → heap m' !! x = heap m !! x) ∧
    completion_queue m' = None ∧ process_queue m' = None ∧
    stdin m' = stdin m ∧ stdout m' = stdout m.
Proof.
  intros Hdone Htodo Hnd Hf1 Hf2.
  apply NoDup_app in Hnd as (Hnd1 & Hdisj & Hnd2).
  unfold Context.encrypt_context_deinit.
  rewrite (free_queue_spec done_ (heap m) (completion_queue m) fuel)
    by done.
  rewrite bind_Ok_l.
  rewrite (free_queue_spec todo (foldr delete (heap m) done_)
             (process_queue m) fuel); [| | done | done].
  - rewrite bind_Ok_l. eexists. split; [done |]. simpl.
    split_and!; try done.
    + intros x Hx. apply elem_of_app in Hx as [Hx | Hx].
      * destruct (decide (x ∈ todo)) as [Hin | Hout];
          [by apply lookup_foldr_delete_elem |].
        rewrite lookup_foldr_delete_other by done.
        by apply lookup_foldr_delete_elem.
      * by apply lookup_foldr_delete_elem.
    + intros x Hx. apply not_elem_of_app in Hx as [Hx1 Hx2].
      by rewrite !lookup_foldr_delete_other.
  - clear -Htodo Hdisj. unfold is_queue in *.
    induction done_ as [|y done_ IH]; [done |]. simpl.
    apply is_seg_delete_ne.
    + intros Hy. apply (Hdisj y); [by left | done].
    + apply IH. intros x Hx. apply Hdisj. by right.
Qed.

Lemma context_deinit_releases_both_queues_witness :
  ∃ m',
    Context.encrypt_context_deinit 2 (two_blocks (Some 1%nat) (Some 0%nat))
    = Ok m' ∧
    (∀ x, x ∈ [0%nat] ++ [1%nat] → heap m' !! x = None) ∧
    (∀ x, x ∉ [0%nat] ++ [1%nat] →
          heap m' !! x = heap (two_blocks (Some 1%nat) (Some 0%nat)) !! x) ∧
    completion_queue m' = None ∧ process_queue m' = None ∧
    stdin m' = stdin (two_blocks (Some 1%nat) (Some 0%nat)) ∧
    stdout m' = stdout (two_blocks (Some 1%nat) (Some 0%nat)).
Proof.
  apply (context_deinit_releases_both_queues
           (two_blocks (Some 1%nat) (Some 0%nat)) [0%nat] [1%nat] 2).
  - apply two_blocks_queue. by left.
  - apply two_blocks_queue. by right.
  - apply NoDup_cons. split; [| apply NoDup_singleton].
    intros H. apply list_elem_of_singleton in H. discriminate.
  - simpl. lia.
  - simpl. lia.
Defined.

(** ** The transform, byte by byte *)

Lemma iter_rotl1_succ_r (n : nat) (key : list Z) :
  Nat.iter n rotl1 (rotl1 key) = Nat.iter (S n) rotl1 key.
Proof. induction n as [|n IH]; [done |]. simpl in *. by rewrite IH. Qed.

(** Byte [p] of the transform is byte [p] of the input XORed with the
    byte [p mod L] of the key after [p / L] single-bit rotations. *)
Lemma transform_chunks_lookup (L : nat) :
  (0 < L)%nat →
  ∀ (n : nat) (input key : list Z) (p : nat) (b k : Z),
  length key = L → (length input ≤ n)%nat →
  input !! p = Some b →
  Nat.iter (p / L) rotl1 key !! (p mod L)%nat = Some k →
  transform_chunks key (chunks n L input) !! p = Some (Z.lxor b k).
Proof.
  intros HL. induction n as [|n IH]; intros input key p b k Hkey Hn Hb Hk.
  { apply lookup_lt_Some in Hb. lia. }
  destruct input as [|a input]; [done |].
  rewrite chunks_S by done. cbn [transform_chunks].
  assert (length (xor_block (take L (a :: input)) key)
          = (L `min` length (a :: input))%nat) as Hlen.
  { unfold xor_block. rewrite length_zip_with, length_take. lia. }
  destruct (decide (p < L)%nat) as [Hp | Hp].
  - pose proof (lookup_lt_Some _ _ _ Hb).
    rewrite lookup_app_l by lia.
    rewrite Nat.div_small, Nat.mod_small in Hk by done. simpl in Hk.
    unfold xor_block. rewrite lookup_zip_with, lookup_take_lt by done.
    by rewrite Hb, Hk.
  - pose proof (lookup_lt_Some _ _ _ Hb).
    rewrite lookup_app_r by lia.
    rewrite Hlen, Nat.min_l by lia.
    assert (p = 1 * L + (p - L))%nat as Ep by lia.
    rewrite Ep in Hk.
    rewrite Nat.div_add_l, Nat.Div0.add_mod, Nat.Div0.mod_mul, Nat.add_0_l,
      Nat.Div0.mod_mod in Hk by lia.
    apply (IH (drop L (a :: input)) (rotl1 key) (p - L)%nat b k).
    + by rewrite length_rotl1.
    + rewrite length_drop. simpl in *. lia.
    + rewrite lookup_drop. rewrite <- Hb. f_equal. lia.
    + by rewrite iter_rotl1_succ_r.
Qed.

Lemma transform_lookup (key input : list Z) (p : nat) (b k : Z) :
  key ≠ [] →
  input !! p = Some b →
  Nat.iter (p / length key) rotl1 key !! (p mod length key)%nat = Some k →
  transform key input !! p = Some (Z.lxor b k).
Proof.
  intros Hne Hb Hk. unfold transform.
  apply (transform_chunks_lookup (length key)); try done.
  destruct key; simpl; [done | lia].
Qed.

(** ** The batches, in closed form *)



(** ** Sequential mode *)

(** X13 ([encrypt_execute_sequential]).  For a key whose bit length fits
    32 bits, sequential mode ends on every input, writes as many bytes
    as it reads, and byte [p] of the output is byte [p] of the input
    XORed with byte [p mod keylength] of the key after [p / keylength]
    rotations to the left by one bit. *)
Theorem sequential_mode_output (fuel : nat) (key input : list Z) :
  key ≠ [] → Z.of_nat (length key) * 8 < 4294967296 →
  (length input < fuel)%nat →
  ∃ out,
    Coordinator.encrypt_execute_sequential fuel key (Z.of_nat (length key))
                                           input = Ok out ∧
    length out = length input ∧
    ∀ p b k, input !! p = Some b →
             Nat.iter (p / length key) rotl1 key !! (p mod length key)%nat
             = Some k →
             out !! p = Some (Z.lxor b k).
Proof.
  intros Hne Hmax Hfuel.
  assert (0 < length key)%nat by (destruct key; simpl; [done | lia]).
  exists (transform key input). split_and!.
  - apply encrypt_execute_sequential_spec; [done | lia | | done].
    rewrite uint_small by lia. lia.
  - by apply length_transform.
  - intros p b k Hb Hk. by apply transform_lookup.
Qed.

Lemma sequential_mode_output_witness :
  ∃ out,
    Coordinator.encrypt_execute_sequential 6 [1; 128]
      (Z.of_nat (length [1; 128])) [0; 0; 0; 0; 0] = Ok out ∧
    length out = length [0; 0; 0; 0; 0] ∧
    ∀ p b k, [0; 0; 0; 0; 0] !! p = Some b →
             Nat.iter (p / length [1; 128]) rotl1 [1; 128]
               !! (p mod length [1; 128])%nat = Some k →
             out !! p = Some (Z.lxor b k).
Proof.
  apply (sequential_mode_output 6 [1; 128] [0; 0; 0; 0; 0]).
  - done.
  - simpl. lia.
  - simpl. lia.
Defined.

(** X14 ([encrypt_execute_sequential]).  For a key whose bit length fits
    32 bits, sequential mode run on its own output gives the input
    back. *)
Theorem sequential_mode_round_trip (fuel : nat) (key input : list Z) :
  key ≠ [] → Z.of_nat (length key) * 8 < 4294967296 →
  (length input < fuel)%nat →
  ∃ out,
    Coordinator.encrypt_execute_sequential fuel key (Z.of_nat (length key))
                                           input = Ok out ∧
    Coordinator.encrypt_execute_sequential fuel key (Z.of_nat (length key))
                                           out = Ok input.
Proof.
  intros Hne Hmax Hfuel.
  assert (0 < length key)%nat by (destruct key; simpl; [done | lia]).
  assert (uint (Z.of_nat (length key) * 8) ≠ 0)
    by (rewrite uint_small by lia; lia).
  exists (transform key input). split.
  - apply encrypt_execute_sequential_spec; [done | lia | done | done].
  - rewrite encrypt_execute_sequential_spec;
      [| done | lia | done | by rewrite length_transform].
    by rewrite transform_involutive.
Qed.

Lemma sequential_mode_round_trip_witness :
  ∃ out,
    Coordinator.encrypt_execute_sequential 6 [1; 128]
      (Z.of_nat (length [1; 128])) [10; 20; 30; 40; 50] = Ok out ∧
    Coordinator.encrypt_execute_sequential 6 [1; 128]
      (Z.of_nat (length [1; 128])) out = Ok [10; 20; 30; 40; 50].
Proof.
  apply (sequential_mode_round_trip 6 [1; 128] [10; 20; 30; 40; 50]).
  - done.
  - simpl. lia.
  - simpl. lia.
Defined.

(** ** Parallel mode when the batches complete in submission order *)







(** ** Parallel mode on the empty input *)

Lemma parallel_loop_empty_input (fuel : nat) (sched : list nat)
    (key : list Z) (L N : Z) :
  0 < N →
  Coordinator.parallel_loop (S fuel) (S fuel) sched key L N
                            (Coordinator.start []) 0 []
  = Ok (Machine ∅ 1%nat None None [] [], [Round 0 [] 0 true]).
Proof.
  intros HN. cbn [Coordinator.parallel_loop].
  unfold Coordinator.parallel_round.
  destruct (Z.to_nat N) as [|n] eqn:E; [lia |].
  cbn [Coordinator.submit_loop].
  destruct (Z.ltb_spec 0 N) as [_ | ?]; [| lia].
  unfold encrypt_block_init, Coordinator.start.
  cbn [heap brk stdin stdout process_queue completion_queue].
  unfold load. rewrite lookup_insert_eq, bind_Ok_l.
  unfold fread. rewrite take_nil. cbn [length Info.block].
  change (Z.of_nat 0 =? 0) with true. cbv iota.
  unfold encrypt_block_deinit, load, set_heap, set_stdin.
  cbn [heap brk stdin stdout process_queue completion_queue].
  rewrite lookup_insert_eq, !bind_Ok_l. cbv beta iota.
  rewrite insert_insert_eq, delete_insert_eq, delete_empty.
  change (Z.to_nat 0) with 0%nat. cbn [Coordinator.take_blocks].
  rewrite bind_Ok_l. cbv beta iota. cbn [length Coordinator.complete].
  rewrite bind_Ok_l. cbv beta iota.
  cbn [Coordinator.drain completion_queue]. rewrite bind_Ok_l.
  cbv beta iota. unfold set_completion_queue.
  cbn [heap brk stdin stdout process_queue completion_queue].
  rewrite drop_nil. done.
Qed.

(** X18 ([encrypt_execute_parallel], [encrypt_context_deinit]).  On the
    empty input parallel mode makes one round, whatever the key, the
    pool width and the schedule: the first read is empty, the block that
    was allocated for it is released, nothing is submitted, nothing is
    written, and no descriptor is left allocated. *)
Theorem parallel_mode_empty_input (fuel : nat) (sched : list nat)
    (key : list Z) (L N : Z) :
  0 < L → 0 < N →
  Coordinator.encrypt_execute_parallel (S fuel) sched key L N []
  = Ok ([], [Round 0 [] 0 true]) ∧
  ∃ m, Context.encrypt_execute_parallel (S fuel) sched key L N [] = Ok m ∧
       heap m = ∅ ∧ stdout m = [] ∧
       process_queue m = None ∧ completion_queue m = None.
Proof.
  intros HL HN.
  unfold Coordinator.encrypt_execute_parallel,
    Context.encrypt_execute_parallel.
  assert ((0 <? L) && (0 <? N) = true) as ->.
  { apply andb_true_iff. split; apply Z.ltb_lt; lia. }
  rewrite parallel_loop_empty_input by done.
  split; [done |]. eexists. split; [reflexivity |]. done.
Qed.

Lemma parallel_mode_empty_input_witness :
  Coordinator.encrypt_execute_parallel 1 [3; 1]%nat key257 257 4 []
  = Ok ([], [Round 0 [] 0 true]) ∧
  ∃ m, Context.encrypt_execute_parallel 1 [3; 1]%nat key257 257 4 [] = Ok m ∧
       heap m = ∅ ∧ stdout m = [] ∧
       process_queue m = None ∧ completion_queue m = None.
Proof. apply (parallel_mode_empty_input 0 [3; 1]%nat key257 257 4); lia. Defined.

(** ** What a run leaves behind *)



(** ** Setup *)

Lemma create_threads_status (env : Program.environment) (N : Z) (todo : nat) :
  N < 4294967296 →
  ∀ index : Z,
  0 ≤ index → index + Z.of_nat todo = N →
  (Program.create_threads todo env N index = 0 ↔
   ∀ i, index ≤ i < N → Program.pthread_create env i = 0).
Proof.
  intros Hmax. induction todo as [|todo IH]; intros index Hindex Htodo.
  { simpl. split; [intros _ i Hi; lia | done]. }
  simpl. destruct (Z.ltb_spec index N) as [_ | ?]; [| lia].
  destruct (Z.eqb_spec (Program.pthread_create env index) 0) as [E | E].
  - rewrite IH; [| unfold uint; apply Z.mod_pos_bound; lia
                 | rewrite uint_small by lia; lia].
    rewrite uint_small by lia. split.
    + intros H i Hi. destruct (decide (i = index)) as [-> | ?]; [done |].
      apply H. lia.
    + intros H i Hi. apply H. lia.
  - split; [done |]. intros H. apply H. lia.
Qed.

(** X20 ([encrypt_context_init]).  The function returns 0 exactly when
    the mutex, the two semaphores and the thread array were obtained and
    every one of the [threadcount] calls of [pthread_create] returned 0;
    it then prints nothing.  Otherwise it returns a code that is not 0
    and prints one line, which names the function. *)
Theorem context_init_status (env : Program.environment) (threadcount : Z) :
  0 ≤ threadcount < 4294967296 →
  ((Program.encrypt_context_init env threadcount).1.1 = 0 ↔
   Program.pthread_mutex_init env = 0 ∧
   Program.sem_init_process env = 0 ∧
   Program.sem_init_completion env = 0 ∧
   Program.malloc_threads env = true ∧
   ∀ i, 0 ≤ i < threadcount → Program.pthread_create env i = 0) ∧
  ((Program.encrypt_context_init env threadcount).1.1 = 0 →
   (Program.encrypt_context_init env threadcount).1.2 = []) ∧
  ((Program.encrypt_context_init env threadcount).1.1 ≠ 0 →
   ∃ line code,
     (Program.encrypt_context_init env threadcount).1.2
     = [Program.Diagnostic "encrypt_context_init" line code]).
Proof.
  intros HN. unfold Program.encrypt_context_init.
  destruct (Z.eqb_spec (Program.pthread_mutex_init env) 0) as [E1 | E1];
    simpl;
    [| split_and!; [split; [done | by intros (? & _)] | done | eauto]].
  destruct (Z.eqb_spec (Program.sem_init_process env) 0) as [E2 | E2];
    simpl;
    [| split_and!; [split; [done | by intros (_ & ? & _)] | done | eauto]].
  destruct (Z.eqb_spec (Program.sem_init_completion env) 0) as [E3 | E3];
    simpl;
    [| split_and!; [split; [done | by intros (_ & _ & ? & _)] | done | eauto]].
  destruct (Program.malloc_threads env) eqn:E4;
    simpl;
    [| split_and!; [split; [done | by intros (_ & _ & _ & ? & _)] | done
                    | eauto]].
  pose proof (create_threads_status env threadcount (Z.to_nat threadcount)
                ltac:(lia) 0 ltac:(lia) ltac:(lia)) as Hthreads.
  destruct (Z.eqb_spec
              (Program.create_threads (Z.to_nat threadcount) env threadcount 0)
              0) as [E5 | E5]; simpl.
  - split_and!; [| done | done]. split; [| done]. intros _.
    split_and!; try done. by apply Hthreads.
  - split_and!; [| done | eauto]. split; [done |].
    intros (_ & _ & _ & _ & H). by apply Hthreads in H.
Qed.

Lemma context_init_status_witness :
  ((Program.encrypt_context_init (healthy ∅) 4).1.1 = 0 ↔
   Program.pthread_mutex_init (healthy ∅) = 0 ∧
   Program.sem_init_process (healthy ∅) = 0 ∧
   Program.sem_init_completion (healthy ∅) = 0 ∧
   Program.malloc_threads (healthy ∅) = true ∧
   ∀ i, 0 ≤ i < 4 → Program.pthread_create (healthy ∅) i = 0) ∧
  ((Program.encrypt_context_init (healthy ∅) 4).1.1 = 0 →
   (Program.encrypt_context_init (healthy ∅) 4).1.2 = []) ∧
  ((Program.encrypt_context_init (healthy ∅) 4).1.1 ≠ 0 →
   ∃ line code,
     (Program.encrypt_context_init (healthy ∅) 4).1.2
     = [Program.Diagnostic "encrypt_context_init" line code]).
Proof. apply (context_init_status (healthy ∅) 4). lia. Defined.

(** ** What [encrypt] reports *)





(** ** The program, from the command line to the output *)








(** ** Parallel mode when the oldest block of every batch completes
    first *)


(** X24 (the workers of one batch, [encrypt_thread]).  With a key of at
    most 128 bytes, a batch of blocks with increasing indices, and an
    empty completion queue: when the worker of the oldest block is the
    first to finish, the others may finish in any order; every block of
    the batch is XORed with the key rotated by its own index, and the
    completion queue ends up holding the batch in index order. *)
Theorem batch_completes_behind_its_oldest_block (key : list Z) (fuel : nat)
    (l : list nat) (m : machine) (sched : list nat) :
  key ≠ [] → Z.of_nat (length key) ≤ 128 → (129 ≤ fuel)%nat →
  (length l ≤ 1)%nat ∨ (hd 0 sched mod length l)%nat = 0%nat →
  completion_queue m = None →
  NoDup l →
  StronglySorted Z.lt (indices (heap m) l) →
  Forall (λ x, ∃ d, data_of (heap m) x = Some d ∧ workable key d) l →
  (length l < fuel)%nat →
  ∃ m',
    Coordinator.complete (length l) fuel sched key (Z.of_nat (length key)) m l
    = Ok (m', drop (length l) sched) ∧
    is_queue (heap m') (completion_queue m') l ∧
    (∀ x, x ∉ l → data_of (heap m') x = data_of (heap m) x) ∧
    (∀ x, x ∈ l →
       data_of (heap m') x = transformed key <$> data_of (heap m) x) ∧
    process_queue m' = process_queue m ∧
    stdin m' = stdin m ∧ stdout m' = stdout m.
Proof.
  intros Hne Hlen Hfuel Hsched Hcq Hnd Hsorted Hwork Hf.
  destruct (complete_oldest_first_spec key fuel Hne Hlen Hfuel l m sched
              Hsched Hcq Hnd Hsorted Hwork Hf)
    as (m' & Hrun & Hq & Hold & Hnew & _ & Hpq & Hin & Hout).
  by exists m'.
Qed.

Lemma batch_completes_behind_its_oldest_block_witness :
  ∃ m',
    Coordinator.complete (length [0; 1]%nat) 129 [2; 5]%nat [1; 128]
      (Z.of_nat (length [1; 128])) (two_blocks None None) [0; 1]%nat
    = Ok (m', drop (length [0; 1]%nat) [2; 5]%nat) ∧
    is_queue (heap m') (completion_queue m') [0; 1]%nat ∧
    (∀ x, x ∉ [0; 1]%nat →
          data_of (heap m') x = data_of (heap (two_blocks None None)) x) ∧
    (∀ x, x ∈ [0; 1]%nat →
       data_of (heap m') x
       = transformed [1; 128] <$> data_of (heap (two_blocks None None)) x) ∧
    process_queue m' = process_queue (two_blocks None None) ∧
    stdin m' = stdin (two_blocks None None) ∧
    stdout m' = stdout (two_blocks None None).
Proof.
  apply (batch_completes_behind_its_oldest_block [1; 128] 129 [0; 1]%nat
           (two_blocks None None) [2; 5]%nat).
  - done.
  - simpl. lia.
  - lia.
  - right. reflexivity.
  - reflexivity.
  - apply NoDup_cons. split; [| apply NoDup_singleton].
    intros H. apply list_elem_of_singleton in H. discriminate.
  - repeat constructor.
  - apply Forall_cons. split; [| apply Forall_cons; split; [| constructor]].
    + exists (0, [7], 1). split; [reflexivity |]. simpl. lia.
    + exists (1, [9], 1). split; [reflexivity |]. simpl. lia.
  - simpl. lia.
Defined.



(** ** The exit status *)


